(** * Vessify: transaction extraction, pagination and tenant isolation

    A shallow embedding of the transaction core of the backend:
    - [parseTransactionTextWithRegex] and [parseTransactionText]
      (backend/src/lib/transaction.ts),
    - [extractTransactionWithBedrock] (backend/src/lib/bedrock.ts),
    - [getTransactions], [getTransactionById] and the [GET /:id] route,
    and of what stands around it:
    - the rate limiter (backend/src/middleware/rateLimit.ts),
    - memberships and roles (backend/src/lib/organization.ts) and the member
      routes (backend/src/routes/organization.ts),
    - [createTransaction] and the three transaction routes
      (backend/src/routes/transaction.ts),
    - the route guard, the confidence label and the transaction list of the
      frontend.

    JavaScript strings are lists of UTF-16 code units.  JavaScript numbers are
    modelled by [number]: an exact rational, an infinity or NaN; decimal
    literals such as [0.3] denote the rational they spell.  The built-ins the
    code calls but the repository does not define ([JSON.parse], the [Date]
    constructor, [String.prototype.toLowerCase]) are parameters of the
    functions that call them. *)

From Stdlib Require Import String Ascii.
From Stdlib Require Import List NArith ZArith QArith Qabs Qminmax Bool Lia.
From Stdlib Require Import Sorting.Sorted Sorting.Permutation.
Import ListNotations.

Set Implicit Arguments.
Set Warnings "-register-all".
Close Scope Q_scope.

(* ================================================================= *)
(** ** JavaScript strings *)

Module JsString.

(** A string is its sequence of UTF-16 code units. *)
Definition t := list N.

Fixpoint bytes_of (s : string) : list N :=
  match s with
  | EmptyString => []
  | String a s' => N_of_ascii a :: bytes_of s'
  end.

(** Code units of a UTF-8 encoded literal (one to four byte sequences). *)
Fixpoint units_of_utf8 (bs : list N) : t :=
  match bs with
  | [] => []
  | b0 :: t0 =>
    if (b0 <? 128)%N then b0 :: units_of_utf8 t0 else
    match t0 with
    | [] => []
    | b1 :: t1 =>
      if (b0 <? 224)%N then ((b0 - 192) * 64 + (b1 - 128))%N :: units_of_utf8 t1 else
      match t1 with
      | [] => []
      | b2 :: t2 =>
        if (b0 <? 240)%N
        then ((b0 - 224) * 4096 + (b1 - 128) * 64 + (b2 - 128))%N :: units_of_utf8 t2
        else
        match t2 with
        | [] => []
        | b3 :: t3 =>
          let cp := ((b0 - 240) * 262144 + (b1 - 128) * 4096
                     + (b2 - 128) * 64 + (b3 - 128))%N in
          let v := (cp - 65536)%N in
          (55296 + v / 1024)%N :: (56320 + v mod 1024)%N :: units_of_utf8 t3
        end
      end
    end
  end.

(** The string a source literal denotes. *)
Definition lit (s : string) : t := units_of_utf8 (bytes_of s).

Definition eqb (a b : t) : bool :=
  if list_eq_dec N.eq_dec a b then true else false.

Definition is_digit (c : N) : bool := ((48 <=? c) && (c <=? 57))%N.
Definition is_upper (c : N) : bool := ((65 <=? c) && (c <=? 90))%N.
Definition is_lower (c : N) : bool := ((97 <=? c) && (c <=? 122))%N.
Definition is_alpha (c : N) : bool := is_upper c || is_lower c.

(** WhiteSpace and LineTerminator of ECMAScript: what [\s] matches and what
    [trim] strips. *)
Definition is_space (c : N) : bool :=
  ((9 <=? c) && (c <=? 13) || (c =? 32) || (c =? 160) || (c =? 5760)
   || (8192 <=? c) && (c <=? 8202) || (c =? 8232) || (c =? 8233)
   || (c =? 8239) || (c =? 8287) || (c =? 12288) || (c =? 65279))%N.

Fixpoint trimStart (s : t) : t :=
  match s with
  | c :: s' => if is_space c then trimStart s' else s
  | [] => []
  end.

Definition trimEnd (s : t) : t := rev (trimStart (rev s)).

(** [s.trim()] *)
Definition trim (s : t) : t := trimEnd (trimStart s).

(** [s.substring(0, n)] *)
Definition substring0 (n : nat) (s : t) : t := firstn n s.

(** [s.split(sep)] for a one-unit separator: always at least one piece. *)
Fixpoint split (sep : N) (s : t) : list t :=
  match s with
  | [] => [[]]
  | c :: s' =>
    if (c =? sep)%N then [] :: split sep s'
    else match split sep s' with
         | [] => [[c]]
         | p :: ps => (c :: p) :: ps
         end
  end.

Fixpoint starts_with (p s : t) : bool :=
  match p, s with
  | [], _ => true
  | _ :: _, [] => false
  | a :: p', b :: s' => (a =? b)%N && starts_with p' s'
  end.

(** [s.includes(p)] *)
Fixpoint includes (s p : t) : bool :=
  starts_with p s ||
  match s with
  | [] => false
  | _ :: s' => includes s' p
  end.

(** [s.replace(/c/g, '')]: every occurrence of one unit removed. *)
Definition remove_all (c : N) (s : t) : t :=
  filter (fun x => negb (x =? c)%N) s.

(** ASCII part of the case mappings. *)
Definition ascii_upper (c : N) : N := if is_lower c then (c - 32)%N else c.
Definition ascii_lower (c : N) : N := if is_upper c then (c + 32)%N else c.

End JsString.

Definition jsstring : Type := JsString.t.
Notation "'js' s" := (JsString.lit s%string) (at level 9, s at level 0, only parsing).

(* ================================================================= *)
(** ** Regular expressions with the backtracking semantics of ECMAScript *)

Module Regex.

(** Pattern syntax, after the ECMAScript grammar: a one-unit matcher (a
    literal, an escape or a class), sequence, disjunction, quantifier with its
    bounds and greediness, capture group, and the two assertions [^] and [$]
    (neither pattern in the source sets the multiline flag). *)
Inductive regex : Type :=
| Empty
| Char (p : N -> bool)
| Seq (r1 r2 : regex)
| Alt (r1 r2 : regex)
| Repeat (r : regex) (min : nat) (max : option nat) (greedy : bool)
| Group (i : nat) (r : regex)
| Bol
| Eol.

(** Match state: what is left of the input and the captures so far. *)
Record state := { rest : jsstring; caps : list (nat * jsstring) }.

Definition set_cap (i : nat) (v : jsstring) (x : state) : state :=
  {| rest := rest x; caps := (i, v) :: caps x |}.

Fixpoint groups_of (r : regex) : list nat :=
  match r with
  | Seq a b | Alt a b => groups_of a ++ groups_of b
  | Repeat a _ _ _ => groups_of a
  | Group i a => i :: groups_of a
  | _ => []
  end.

Definition clear_caps (gs : list nat) (x : state) : state :=
  {| rest := rest x;
     caps := filter (fun kv => negb (existsb (Nat.eqb (fst kv)) gs)) (caps x) |}.

Definition orelse {A} (a : option A) (b : unit -> option A) : option A :=
  match a with
  | Some z => Some z
  | None => b tt
  end.

(** The matcher of a pattern takes a state and a continuation, as in the
    language specification. *)
Definition matcher_t : Type := state -> (state -> option state) -> option state.

(** RepeatMatcher for a quantified pattern with matcher [m] and capture groups
    [gs]: at most [max] iterations, [min] of them required; an iteration that
    is not required and consumes nothing fails; the captures of the quantified
    pattern are cleared before each iteration.  The fuel bounds the number of
    iterations; [matcher] passes the required ones plus the units left, which
    no run exceeds (see [repeat_matcher_fuel]). *)
Fixpoint repeat_matcher (m : matcher_t) (gs : list nat) (greedy : bool)
         (c : state -> option state)
         (fuel min : nat) (max : option nat) (x : state) : option state :=
  match fuel with
  | O => None
  | S fuel' =>
    match max with
    | Some O => c x
    | _ =>
      let d := fun y =>
        if Nat.eqb min 0 && Nat.eqb (length (rest y)) (length (rest x))
        then None
        else repeat_matcher m gs greedy c fuel' (Nat.pred min)
                            (option_map Nat.pred max) y in
      let xr := clear_caps gs x in
      if negb (Nat.eqb min 0) then m xr d
      else if greedy then orelse (m xr d) (fun _ => c x)
      else orelse (c x) (fun _ => m xr d)
    end
  end.

Section Matcher.
(** Length of the whole input: [^] holds where nothing is consumed yet. *)
Variable len0 : nat.

Fixpoint matcher (r : regex) (x : state) (c : state -> option state)
  : option state :=
  match r with
  | Empty => c x
  | Char p =>
    match rest x with
    | ch :: s' => if p ch then c {| rest := s'; caps := caps x |} else None
    | [] => None
    end
  | Seq r1 r2 => matcher r1 x (fun y => matcher r2 y c)
  | Alt r1 r2 => orelse (matcher r1 x c) (fun _ => matcher r2 x c)
  | Repeat r1 min max greedy =>
    repeat_matcher (matcher r1) (groups_of r1) greedy c
                   (S (min + length (rest x))) min max x
  | Group i r1 =>
    matcher r1 x
      (fun y => c (set_cap i (firstn (length (rest x) - length (rest y)) (rest x)) y))
  | Bol => if Nat.eqb (length (rest x)) len0 then c x else None
  | Eol => match rest x with [] => c x | _ :: _ => None end
  end.
End Matcher.

(** The result of [RegExp.prototype.exec]: the matched text and the groups. *)
Record result := { matched : jsstring; groups : list (nat * jsstring) }.

(** [m[i]] for a group [i >= 1]; [None] is [undefined]. *)
Definition group (i : nat) (m : result) : option jsstring :=
  option_map snd (find (fun kv => Nat.eqb (fst kv) i) (groups m)).

(** Leftmost match: start positions are tried from the left. *)
Fixpoint exec_from (r : regex) (len0 : nat) (s : jsstring) : option result :=
  match matcher len0 r {| rest := s; caps := [] |} Some with
  | Some y =>
    Some {| matched := firstn (length s - length (rest y)) s; groups := caps y |}
  | None =>
    match s with
    | [] => None
    | _ :: s' => exec_from r len0 s'
    end
  end.

(** [s.match(r)] for a pattern without the global flag. *)
Definition exec (r : regex) (s : jsstring) : option result :=
  exec_from r (length s) s.

Definition test (r : regex) (s : jsstring) : bool :=
  match exec r s with Some _ => true | None => false end.

(** *** Pattern building blocks *)

Definition seq (rs : list regex) : regex := fold_right Seq Empty rs.

Fixpoint alt (rs : list regex) : regex :=
  match rs with
  | [] => Char (fun _ => false)
  | [r] => r
  | r :: rs' => Alt r (alt rs')
  end.

Definition star (r : regex) : regex := Repeat r 0 None true.
Definition plus (r : regex) : regex := Repeat r 1 None true.
Definition opt (r : regex) : regex := Repeat r 0 (Some 1) true.
Definition lazy_star (r : regex) : regex := Repeat r 0 None false.
Definition times (a b : nat) (r : regex) : regex := Repeat r a (Some b) true.

(** One literal unit. *)
Definition chr (c : N) : regex := Char (N.eqb c).

(** One literal unit under the [i] flag.  Canonicalize maps a unit to its upper
    case unless that would turn a non-ASCII unit into an ASCII one, so against
    an ASCII pattern letter exactly the two ASCII cases match. *)
Definition chr_i (c : N) : regex :=
  Char (fun x => N.eqb (JsString.ascii_upper x) (JsString.ascii_upper c)).

Definition str (s : jsstring) : regex := seq (map chr s).
Definition str_i (s : jsstring) : regex := seq (map chr_i s).

(** A class listing its members: [[abc]]. *)
Definition one_of (s : jsstring) : N -> bool := fun x => existsb (N.eqb x) s.

Definition digit : regex := Char JsString.is_digit.
Definition space : regex := Char JsString.is_space.

End Regex.

(* ================================================================= *)
(** ** JavaScript values, numbers and exceptions *)

Module Js.

(** A number: an exact rational where the source has a finite double. *)
Inductive number : Type :=
| Fin (q : Q)
| PosInf
| NegInf
| NaN.

Definition isNaN (n : number) : bool :=
  match n with NaN => true | _ => false end.

(** [Math.abs] *)
Definition abs (n : number) : number :=
  match n with
  | Fin q => Fin (Qabs q)
  | PosInf | NegInf => PosInf
  | NaN => NaN
  end.

(** [a <= b] *)
Definition leb (a b : number) : bool :=
  match a, b with
  | NaN, _ | _, NaN => false
  | Fin x, Fin y => Qle_bool x y
  | NegInf, _ => true
  | _, PosInf => true
  | _, _ => false
  end.

(** [a < b] *)
Definition ltb (a b : number) : bool :=
  match a, b with
  | NaN, _ | _, NaN => false
  | Fin x, Fin y => negb (Qle_bool y x)
  | PosInf, _ => false
  | _, NegInf => false
  | _, _ => true
  end.

(** [a + b] *)
Definition add (a b : number) : number :=
  match a, b with
  | NaN, _ | _, NaN => NaN
  | Fin x, Fin y => Fin (Qred (x + y))
  | PosInf, NegInf | NegInf, PosInf => NaN
  | PosInf, _ | _, PosInf => PosInf
  | NegInf, _ | _, NegInf => NegInf
  end.

(** [Math.min(a, b)] *)
Definition min (a b : number) : number :=
  match a, b with
  | NaN, _ | _, NaN => NaN
  | _, _ => if leb a b then a else b
  end.

(** What [JSON.parse] can produce. *)
Inductive json : Type :=
| JNull
| JBool (b : bool)
| JNum (n : number)
| JStr (s : jsstring)
| JArr (items : list json)
| JObj (fields : list (jsstring * json)).

(** ToBoolean *)
Definition truthy (v : json) : bool :=
  match v with
  | JNull => false
  | JBool b => b
  | JNum (Fin q) => negb (Qeq_bool q 0)
  | JNum NaN => false
  | JNum _ => true
  | JStr [] => false
  | JStr (_ :: _) => true
  | JArr _ | JObj _ => true
  end.

(** A thrown value: an [Error] object with its message, or anything else. *)
Inductive exn : Type :=
| ErrorObject (message : jsstring)
| Thrown (v : json).

(** A [TypeError] raised by the engine; the wording of its message is the
    engine's, the model keeps the name. *)
Definition TypeError : exn := ErrorObject (js "TypeError").
Definition SyntaxError : exn := ErrorObject (js "SyntaxError").

(** Completion of a computation that may throw. *)
Inductive completion (A : Type) : Type :=
| Normal (a : A)
| Throw (e : exn).
Arguments Normal {A} a.
Arguments Throw {A} e.

Definition bind {A B} (m : completion A) (f : A -> completion B) : completion B :=
  match m with
  | Normal a => f a
  | Throw e => Throw e
  end.

(** [try { body } catch (e) { handler e }] *)
Definition try_catch {A} (body : completion A) (handler : exn -> completion A)
  : completion A :=
  match body with
  | Normal a => Normal a
  | Throw e => handler e
  end.

(** [v.k] and [v[k]] for a value that is [undefined] ([None]) or a JSON value.
    Reading a property of [undefined] or [null] throws.  The adapter reads
    [content], [0], [text], [amount], [date], [description], [category],
    [confidence] and [reasoning]: of these only [0] is ever a property of a
    string or an array, and none is inherited by an object. *)
Definition get (v : option json) (k : jsstring) : completion (option json) :=
  match v with
  | None | Some JNull => Throw TypeError
  | Some (JObj fields) =>
    Normal (option_map snd (find (fun kv => JsString.eqb (fst kv) k) fields))
  | Some (JArr items) =>
    Normal (if JsString.eqb k (js "0") then nth_error items 0 else None)
  | Some (JStr s) =>
    Normal (if JsString.eqb k (js "0")
            then match s with c :: _ => Some (JStr [c]) | [] => None end
            else None)
  | Some _ => Normal None
  end.

(** Digits at the front of a string, as values, and what follows them. *)
Fixpoint take_digits (s : jsstring) : list Z * jsstring :=
  match s with
  | c :: s' =>
    if JsString.is_digit c
    then let (ds, r) := take_digits s' in (Z.of_N (c - 48) :: ds, r)
    else ([], s)
  | [] => ([], [])
  end.

Definition digits_value (ds : list Z) : Z :=
  fold_left (fun acc d => acc * 10 + d)%Z ds 0%Z.

(** [parseFloat] on the decimal forms without exponent: leading white space, a
    sign, digits, a fraction.  The source applies it to a capture of digits,
    separators removed, with an optional sign and fraction. *)
Definition parseFloat (s : jsstring) : number :=
  let s0 := JsString.trimStart s in
  let '(neg, s1) :=
    match s0 with
    | 45%N :: r => (true, r)
    | 43%N :: r => (false, r)
    | _ => (false, s0)
    end in
  let '(ip, s2) := take_digits s1 in
  let fp := match s2 with 46%N :: r => fst (take_digits r) | _ => [] end in
  match ip, fp with
  | [], [] => NaN
  | _, _ =>
    let scale := (10 ^ Z.of_nat (length fp))%Z in
    let q := Qred (Qmake (digits_value ip * scale + digits_value fp)
                         (Z.to_pos scale)) in
    Fin (if neg then Qopp q else q)
  end.

(** A template literal's rendering of a capture that may be [undefined]. *)
Definition render (g : option jsstring) : jsstring :=
  match g with
  | Some s => s
  | None => js "undefined"
  end.

End Js.

Notation "x <- m ;; k" := (Js.bind m (fun x => k))
  (at level 61, m at next level, right associativity).

(* ================================================================= *)
(** ** The regex fallback parser (backend/src/lib/transaction.ts) *)

Module Transaction.
Import Regex Js.

(** The result of either extraction strategy.  [category] is whatever value
    the strategy stored, [JNull] for [null]; [date] is the time value of a
    valid [Date]. *)
Record ParsedTransaction := {
  amount : option number;
  date : option Z;
  description : option jsstring;
  category : json;
  confidence : number
}.

Definition month_names : list string :=
  ["Jan"; "Feb"; "Mar"; "Apr"; "May"; "Jun";
   "Jul"; "Aug"; "Sep"; "Oct"; "Nov"; "Dec"]%string.

(** [(Jan|Feb|...|Dec)] under the [i] flag, as group [i]. *)
Definition month_group (i : nat) : regex :=
  Group i (alt (map (fun m => str_i (js m)) month_names)).

(** [[a-z]] under the [i] flag. *)
Definition letter_i : regex := Char JsString.is_alpha.

(** [[A-Za-z]] *)
Definition letter : regex := Char JsString.is_alpha.

(** [-?\d{1,n}(?:,\d{2})*(?:,\d{3})*(?:\.\d{2})?] *)
Definition indian_number (n : nat) : regex :=
  seq [opt (chr 45); times 1 n digit;
       star (seq [chr 44; times 2 2 digit]);
       star (seq [chr 44; times 3 3 digit]);
       opt (seq [chr 46; times 2 2 digit])].

(** [-?\d{1,3}(?:,\d{3})*(?:\.\d{2})?] *)
Definition western_number : regex :=
  seq [opt (chr 45); times 1 3 digit;
       star (seq [chr 44; times 3 3 digit]);
       opt (seq [chr 46; times 2 2 digit])].

Definition amountPatterns : list regex :=
  [ (* /[₹Rs\.]\s*(-?\d{1,2}(?:,\d{2})*(?:,\d{3})*(?:\.\d{2})?)/ *)
    seq [Char (one_of (js "₹Rs.")); star space; Group 1 (indian_number 2)];
    (* /(-?\d{1,2}(?:,\d{2})*(?:,\d{3})*(?:\.\d{2})?)\s*(?:INR|Rs|₹)/i *)
    seq [Group 1 (indian_number 2); star space;
         alt [str_i (js "INR"); str_i (js "Rs"); str_i (js "₹")]];
    (* /Amount:\s*(-?\d{1,3}(?:,\d{2})*(?:,\d{3})*(?:\.\d{2})?)/i *)
    seq [str_i (js "Amount:"); star space; Group 1 (indian_number 3)];
    (* /\$\s*(-?\d{1,3}(?:,\d{3})*(?:\.\d{2})?)/ *)
    seq [chr 36; star space; Group 1 western_number];
    (* /(?:^|\s)(-?\d{1,3}(?:,\d{2})*(?:,\d{3})*(?:\.\d{2})?)(?:\s|$)/ *)
    seq [Alt Bol space; Group 1 (indian_number 3); Alt space Eol] ].

Definition separator : regex := Char (one_of (js "/-")).

Definition datePatterns : list regex :=
  [ (* /(\d{1,2})\s+(Jan|...|Dec)[a-z]*\s+(\d{4})/i *)
    seq [Group 1 (times 1 2 digit); plus space; month_group 2; star letter_i;
         plus space; Group 3 (times 4 4 digit)];
    (* /(Jan|...|Dec)[a-z]*\s+(\d{1,2}),?\s+(\d{4})/i *)
    seq [month_group 1; star letter_i; plus space; Group 2 (times 1 2 digit);
         opt (chr 44); plus space; Group 3 (times 4 4 digit)];
    (* /(\d{1,2})[\/\-](\d{1,2})[\/\-](\d{2,4})/ *)
    seq [Group 1 (times 1 2 digit); separator; Group 2 (times 1 2 digit);
         separator; Group 3 (times 2 4 digit)];
    (* /(\d{4})[\/\-](\d{1,2})[\/\-](\d{1,2})/ *)
    seq [Group 1 (times 4 4 digit); separator; Group 2 (times 1 2 digit);
         separator; Group 3 (times 1 2 digit)];
    (* /Date:\s*(\d{1,2})\s+(Jan|...|Dec)[a-z]*\s+(\d{4})/i *)
    seq [str_i (js "Date:"); star space; Group 1 (times 1 2 digit); plus space;
         month_group 2; star letter_i; plus space; Group 3 (times 4 4 digit)] ].

(** [/^[A-Za-z]/] *)
Definition starts_with_letter : regex := Seq Bol letter.

(** [/Date:/i] *)
Definition date_label : regex := str_i (js "Date:").

(** [/^[\d\$\.,\/\-\s]+$/] *)
Definition numeric_line : regex :=
  seq [Bol;
       plus (Char (fun c => JsString.is_digit c || one_of (js "$.,/-") c
                            || JsString.is_space c));
       Eol].

Definition categoryKeywords : list (string * list string) :=
  [ ("Food & Dining",
     ["restaurant"; "food"; "coffee"; "cafe"; "pizza"; "burger"; "dining";
      "lunch"; "dinner"; "breakfast"; "swiggy"; "zomato"; "starbucks";
      "mcdonald"; "kfc"; "domino"; "subway"]);
    ("Shopping",
     ["amazon"; "flipkart"; "myntra"; "walmart"; "target"; "store"; "shop";
      "retail"; "purchase"; "mall"; "market"; "reliance"; "dmart"]);
    ("Transportation",
     ["uber"; "ola"; "rapido"; "lyft"; "gas"; "fuel"; "parking"; "transit";
      "taxi"; "train"; "bus"; "metro"; "petrol"; "diesel"]);
    ("Entertainment",
     ["movie"; "theater"; "netflix"; "hotstar"; "prime"; "spotify"; "game";
      "concert"; "ticket"; "bookmyshow"; "pvr"; "inox"]);
    ("Utilities",
     ["electric"; "electricity"; "water"; "internet"; "phone"; "utility";
      "bill"; "airtel"; "jio"; "bsnl"; "vodafone"; "mseb"; "bescom"]);
    ("Healthcare",
     ["pharmacy"; "doctor"; "medical"; "hospital"; "health"; "dental";
      "apollo"; "fortis"; "medplus"; "clinic"]);
    ("Transfer",
     ["transfer"; "payment"; "upi"; "neft"; "imps"; "rtgs"; "paytm";
      "phonepe"; "gpay"; "googlepay"; "venmo"; "paypal"; "zelle"; "cashapp"])
  ]%string.

Section Fallback.
(** [new Date(v)]: the time value, or [None] for an invalid date (or when
    the conversion of [v] throws; both callers store [null] then). *)
Variable newDate : json -> option Z.
(** [String.prototype.toLowerCase] *)
Variable toLowerCase : jsstring -> jsstring.

(** The amount loop: the first pattern that matches decides. *)
Fixpoint amount_loop (patterns : list regex) (text : jsstring)
  : completion (option number) :=
  match patterns with
  | [] => Normal None
  | pattern :: patterns' =>
    match exec pattern text with
    | Some m =>
      match group 1 m with
      | Some g => Normal (Some (abs (parseFloat (JsString.remove_all 44 g))))
      | None => Throw TypeError
      end
    | None => amount_loop patterns' text
    end
  end.

(** The string handed to [new Date] for a match of a date pattern; reading
    [length] of a missing first group throws. *)
Definition date_string (m : result) : completion jsstring :=
  let g1 := group 1 m in
  let g2 := group 2 m in
  let g3 := group 3 m in
  if test starts_with_letter (matched m) || test date_label (matched m) then
    if match g1 with
       | Some (c :: s) => test starts_with_letter (c :: s)
       | _ => false
       end
    then Normal (render g1 ++ js " " ++ render g2 ++ js ", " ++ render g3)
    else Normal (render g2 ++ js " " ++ render g1 ++ js ", " ++ render g3)
  else
    match g1 with
    | None => Throw TypeError
    | Some s1 =>
      if Nat.eqb (length s1) 4
      then Normal (render g1 ++ js "-" ++ render g2 ++ js "-" ++ render g3)
      else Normal (render g3 ++ js "-" ++ render g2 ++ js "-" ++ render g1)
    end.

(** The date loop: a match whose date is invalid, or whose handling throws,
    leaves [null] and the next pattern is tried. *)
Fixpoint date_loop (patterns : list regex) (text : jsstring) : option Z :=
  match patterns with
  | [] => None
  | pattern :: patterns' =>
    match exec pattern text with
    | Some m =>
      match date_string m with
      | Normal s =>
        match newDate (JStr s) with
        | Some d => Some d
        | None => date_loop patterns' text
        end
      | Throw _ => date_loop patterns' text
      end
    | None => date_loop patterns' text
    end
  end.

(** [text.split('\n').filter(line => line.trim().length > 0)] *)
Definition nonblank_lines (text : jsstring) : list jsstring :=
  filter (fun line => Nat.ltb 0 (length (JsString.trim line)))
         (JsString.split 10 text).

(** The description loop: the first line that is not only digits, currency
    signs, punctuation and white space. *)
Fixpoint description_loop (lines : list jsstring) : option jsstring :=
  match lines with
  | [] => None
  | line :: lines' =>
    let trimmed := JsString.trim line in
    if test numeric_line trimmed then description_loop lines'
    else Some (JsString.substring0 255 trimmed)
  end.

(** [!description] *)
Definition no_description (d : option jsstring) : bool :=
  match d with
  | None | Some [] => true
  | Some (_ :: _) => false
  end.

(** The category loop over [Object.entries(categoryKeywords)]. *)
Fixpoint category_loop (entries : list (string * list string))
         (lowerText : jsstring) : option string :=
  match entries with
  | [] => None
  | (cat, keywords) :: entries' =>
    if existsb (fun keyword => JsString.includes lowerText (js keyword)) keywords
    then Some cat
    else category_loop entries' lowerText
  end.

Definition parseTransactionTextWithRegex (text : jsstring)
  : completion ParsedTransaction :=
  let confidence := Fin 0 in
  let confidenceFactors := 0%nat in
  (* amount *)
  amount <- amount_loop amountPatterns text ;;
  let '(confidence, confidenceFactors) :=
    match amount with
    | Some _ => (add confidence (Fin (3 # 10)), S confidenceFactors)
    | None => (confidence, confidenceFactors)
    end in
  (* date *)
  let date := date_loop datePatterns text in
  let '(confidence, confidenceFactors) :=
    match date with
    | Some _ => (add confidence (Fin (3 # 10)), S confidenceFactors)
    | None => (confidence, confidenceFactors)
    end in
  (* description *)
  let lines := nonblank_lines text in
  let description := description_loop lines in
  let '(confidence, confidenceFactors) :=
    match description with
    | Some _ => (add confidence (Fin (2 # 10)), S confidenceFactors)
    | None => (confidence, confidenceFactors)
    end in
  let '(description, confidence, confidenceFactors) :=
    match lines with
    | line0 :: _ =>
      if no_description description
      then (Some (JsString.substring0 255 line0),
            add confidence (Fin (1 # 10)), S confidenceFactors)
      else (description, confidence, confidenceFactors)
    | [] => (description, confidence, confidenceFactors)
    end in
  (* category *)
  let lowerText := toLowerCase text in
  let category := category_loop categoryKeywords lowerText in
  let '(confidence, confidenceFactors) :=
    match category with
    | Some _ => (add confidence (Fin (2 # 10)), S confidenceFactors)
    | None => (confidence, confidenceFactors)
    end in
  let finalConfidence :=
    if Nat.ltb 0 confidenceFactors then min confidence (Fin 1) else Fin 0 in
  Normal {| amount := amount;
            date := date;
            description := description;
            category := match category with
                        | Some cat => JStr (js cat)
                        | None => JNull
                        end;
            confidence := finalConfidence |}.

End Fallback.

(* ----------------------------------------------------------------- *)
(** *** The Bedrock adapter (backend/src/lib/bedrock.ts) *)

(** What the adapter returns: [date] and [category] are the model's value or
    [null]; [reasoning] is the model's value, possibly [undefined]. *)
Record ExtractionResult := {
  ex_amount : option number;
  ex_date : json;
  ex_description : option jsstring;
  ex_category : json;
  ex_confidence : number;
  ex_reasoning : option json
}.

(** What one call of the service does: [client.send] rejects, or decoding the
    transport response ([TextDecoder], [JSON.parse] of the body) throws, or a
    response body comes back. *)
Inductive service_behaviour : Type :=
| SendThrows (e : exn)
| DecodeThrows (e : exn)
| Body (responseBody : json).

(** [[\s\S]] *)
Definition any_unit : regex := Char (fun _ => true).

(** [/```(?:json)?\s*(\{[\s\S]*?\})\s*```/] *)
Definition fenced_json : regex :=
  seq [str (js "```"); opt (str (js "json")); star space;
       Group 1 (seq [chr 123; lazy_star any_unit; chr 125]);
       star space; str (js "```")].

(** [/\{[\s\S]*\}/] *)
Definition braced_object : regex := seq [chr 123; star any_unit; chr 125].

(** [v || null] *)
Definition or_null (v : option json) : json :=
  match v with
  | Some j => if truthy j then j else JNull
  | None => JNull
  end.

(** The result built in the [catch] block. *)
Definition degraded (error : exn) : ExtractionResult :=
  {| ex_amount := None;
     ex_date := JNull;
     ex_description := None;
     ex_category := JNull;
     ex_confidence := Fin 0;
     ex_reasoning :=
       Some (JStr (js "Extraction failed: " ++
                   match error with
                   | ErrorObject message => message
                   | Thrown _ => js "Unknown error"
                   end)) |}.

Section Adapter.
(** [JSON.parse]; [None] where it throws a [SyntaxError]. *)
Variable JSON_parse : jsstring -> option json.
(** The service, as a function of the text placed in the prompt. *)
Variable client_send : jsstring -> service_behaviour.

Definition json_parse (s : jsstring) : completion json :=
  match JSON_parse s with
  | Some v => Normal v
  | None => Throw SyntaxError
  end.

(** [responseBody.content[0].text.trim()] *)
Definition response_text (responseBody : json) : completion jsstring :=
  content <- get (Some responseBody) (js "content") ;;
  first <- get content (js "0") ;;
  text <- get first (js "text") ;;
  match text with
  | Some (JStr s) => Normal (JsString.trim s)
  | _ => Throw TypeError
  end.

(** The three attempts at a JSON object in the response text. *)
Definition extract_json (responseText : jsstring) : completion json :=
  try_catch (json_parse responseText)
    (fun _ =>
       match exec fenced_json responseText with
       | Some jsonMatch => json_parse (render (group 1 jsonMatch))
       | None =>
         match exec braced_object responseText with
         | Some jsonObjectMatch => json_parse (matched jsonObjectMatch)
         | None =>
           Throw (ErrorObject (js "Could not extract JSON from response"))
         end
       end).

(** Validation of the parsed object, field by field. *)
Definition sanitize (extracted : json) : completion ExtractionResult :=
  a <- get (Some extracted) (js "amount") ;;
  let amount :=
    match a with
    | Some (JNum n) => if negb (isNaN n) then Some (abs n) else None
    | _ => None
    end in
  d <- get (Some extracted) (js "date") ;;
  desc <- get (Some extracted) (js "description") ;;
  description <-
    match desc with
    | Some v =>
      if truthy v then
        match v with
        | JStr s => Normal (Some (JsString.substring0 255 s))
        | _ => Throw TypeError
        end
      else Normal None
    | None => Normal None
    end ;;
  cat <- get (Some extracted) (js "category") ;;
  conf <- get (Some extracted) (js "confidence") ;;
  let confidence :=
    match conf with
    | Some (JNum n) => if leb (Fin 0) n && leb n (Fin 1) then n else Fin (1 # 2)
    | _ => Fin (1 # 2)
    end in
  reasoning <- get (Some extracted) (js "reasoning") ;;
  Normal {| ex_amount := amount;
            ex_date := or_null d;
            ex_description := description;
            ex_category := or_null cat;
            ex_confidence := confidence;
            ex_reasoning := reasoning |}.

(** The body of the adapter's [try] block. *)
Definition extraction (text : jsstring) : completion ExtractionResult :=
  responseBody <-
    match client_send text with
    | SendThrows e => Throw e
    | DecodeThrows e => Throw e
    | Body b => Normal b
    end ;;
  responseText <- response_text responseBody ;;
  extracted <- extract_json responseText ;;
  sanitize extracted.

Definition extractTransactionWithBedrock (text : jsstring)
  : completion ExtractionResult :=
  try_catch (extraction text) (fun error => Normal (degraded error)).

End Adapter.

(** The three environment variables the configuration check reads. *)
Record environment := {
  AWS_REGION : option jsstring;
  AWS_ACCESS_KEY_ID : option jsstring;
  AWS_SECRET_ACCESS_KEY : option jsstring
}.

Definition is_set (v : option jsstring) : bool :=
  match v with
  | Some (_ :: _) => true
  | _ => false
  end.

Definition isBedrockConfigured (env : environment) : bool :=
  is_set (AWS_REGION env) && is_set (AWS_ACCESS_KEY_ID env)
  && is_set (AWS_SECRET_ACCESS_KEY env).

(* ----------------------------------------------------------------- *)
(** *** The orchestrator *)

Section Orchestrator.
Variable env : environment.
Variable JSON_parse : jsstring -> option json.
Variable client_send : jsstring -> service_behaviour.
Variable newDate : json -> option Z.
Variable toLowerCase : jsstring -> jsstring.

Definition parseTransactionText (text : jsstring)
  : completion ParsedTransaction :=
  if isBedrockConfigured env then
    try_catch
      (extracted <- extractTransactionWithBedrock JSON_parse client_send text ;;
       let dateObj :=
         if truthy (ex_date extracted) then newDate (ex_date extracted)
         else None in
       Normal {| amount := ex_amount extracted;
                 date := dateObj;
                 description := ex_description extracted;
                 category := ex_category extracted;
                 confidence := ex_confidence extracted |})
      (fun _ => parseTransactionTextWithRegex newDate toLowerCase text)
  else parseTransactionTextWithRegex newDate toLowerCase text.

End Orchestrator.

(** The closed enumeration of categories the prompt and the data model name. *)
Definition category_enum : list string :=
  ["Food & Dining"; "Shopping"; "Transportation"; "Entertainment";
   "Utilities"; "Healthcare"; "Transfer"; "Income"; "Other"]%string.

End Transaction.

(* ================================================================= *)
(** ** The transaction store and its read paths *)

Module Store.
Import Js.

Record Transaction := {
  id : jsstring;
  text : jsstring;
  amount : option number;
  date : option Z;
  description : option jsstring;
  category : option jsstring;
  confidence : number;
  organizationId : jsstring;
  userId : jsstring;
  createdAt : Z;
  updatedAt : Z
}.

(** The table.  The order of the list is the order in which the engine yields
    rows that the query does not order: [orderBy] names [createdAt] alone, so
    rows of equal [createdAt] come out in this order. *)
Definition table := list Transaction.

(** Insertion of a row into a list ordered by [createdAt] descending, before
    the rows that are not newer. *)
Fixpoint insert_desc (x : Transaction) (l : list Transaction) : list Transaction :=
  match l with
  | [] => [x]
  | y :: l' =>
    if (createdAt y <=? createdAt x)%Z then x :: y :: l'
    else y :: insert_desc x l'
  end.

(** [orderBy: { createdAt: 'desc' }] *)
Fixpoint orderBy_createdAt_desc (l : list Transaction) : list Transaction :=
  match l with
  | [] => []
  | x :: l' => insert_desc x (orderBy_createdAt_desc l')
  end.

(** The rows from the cursor row on; none if no row has the cursor's id. *)
Fixpoint from_cursor (c : jsstring) (l : list Transaction) : list Transaction :=
  match l with
  | [] => []
  | x :: l' => if JsString.eqb (id x) c then l else from_cursor c l'
  end.

(** [prisma.transaction.findMany({ where: { organizationId }, take, cursor,
    skip, orderBy: { createdAt: 'desc' } })], as the client documents it: the
    rows of the organization in order, positioned at the cursor row, [skip]
    rows passed over, at most [take] rows returned. *)
Definition findMany (db : table) (org : jsstring) (take : nat)
           (cursor : option jsstring) (skip : nat) : list Transaction :=
  let rows := filter (fun t => JsString.eqb (organizationId t) org) db in
  let ordered := orderBy_createdAt_desc rows in
  let positioned :=
    match cursor with
    | Some c => from_cursor c ordered
    | None => ordered
    end in
  firstn take (skipn skip positioned).

(** [prisma.transaction.findFirst({ where: { id, organizationId } })] *)
Definition findFirst (db : table) (i org : jsstring) : option Transaction :=
  find (fun t => JsString.eqb (id t) i && JsString.eqb (organizationId t) org) db.

Record page := {
  items : list Transaction;
  nextCursor : option jsstring;
  hasMore : bool
}.

(** [getTransactions({ organizationId, limit, cursor })].  [limit || 20]
    replaces a missing or zero limit; an empty cursor counts as none. *)
Definition getTransactions (db : table) (org : jsstring) (limit : option nat)
           (cursor : option jsstring) : completion page :=
  let limit := match limit with Some (S n) => S n | _ => 20 end in
  let cursor := match cursor with Some (c :: s) => Some (c :: s) | _ => None end in
  let transactions :=
    findMany db org (limit + 1) cursor
             (match cursor with Some _ => 1 | None => 0 end) in
  let hasMore := Nat.ltb limit (length transactions) in
  let items := if hasMore then removelast transactions else transactions in
  if hasMore then
    match rev items with
    | t :: _ => Normal {| items := items; nextCursor := Some (id t); hasMore := true |}
    | [] => Throw TypeError
    end
  else Normal {| items := items; nextCursor := None; hasMore := false |}.

Definition getTransactionById (db : table) (i org : jsstring) : option Transaction :=
  findFirst db i org.

(** The answer of [GET /api/transactions/:id] for an authenticated user whose
    organizations are [userOrgs]. *)
Inductive response : Type :=
| BadRequest
| Forbidden
| NotFound
| Ok (t : Transaction).

Definition status (r : response) : nat :=
  match r with
  | BadRequest => 400
  | Forbidden => 403
  | NotFound => 404
  | Ok _ => 200
  end.

Definition get_transaction_route (db : table) (userOrgs : list jsstring)
           (i : jsstring) (organizationId : option jsstring) : response :=
  match organizationId with
  | Some (c :: s) =>
    let org := c :: s in
    if negb (existsb (fun o => JsString.eqb o org) userOrgs) then Forbidden
    else match getTransactionById db i org with
         | None => NotFound
         | Some t => Ok t
         end
  | _ => BadRequest
  end.

End Store.

(* ================================================================= *)
(** ** Reference built-ins for evaluating the examples *)

Module Reference.
Import Js.

(** [toLowerCase] on text whose letters are ASCII. *)
Definition toLowerCase (s : jsstring) : jsstring := map JsString.ascii_lower s.

(** Days from 1970-01-01 to the given civil date (proleptic Gregorian). *)
Definition days_from_civil (y m d : Z) : Z :=
  let y' := (if m <=? 2 then y - 1 else y)%Z in
  let era := (y' / 400)%Z in
  let yoe := (y' - era * 400)%Z in
  let mp := (if m <=? 2 then m + 9 else m - 3)%Z in
  let doy := ((153 * mp + 2) / 5 + d - 1)%Z in
  let doe := (yoe * 365 + yoe / 4 - yoe / 100 + doy)%Z in
  (era * 146097 + doe - 719468)%Z.

Definition two_digits (a b : N) : option Z :=
  if JsString.is_digit a && JsString.is_digit b
  then Some (Z.of_N ((a - 48) * 10 + (b - 48)))
  else None.

(** [new Date(s)] for the date-only form [YYYY-MM-DD] of the ECMAScript
    date-time string format: UTC midnight of that day; a month outside 1..12
    or a day outside 1..31 gives an invalid date.  Any other argument is
    treated as invalid: the examples only pass strings of this form. *)
Definition newDate (v : json) : option Z :=
  match v with
  | JStr [y1; y2; y3; y4; 45%N; m1; m2; 45%N; d1; d2] =>
    match two_digits y1 y2, two_digits y3 y4, two_digits m1 m2, two_digits d1 d2 with
    | Some yh, Some yl, Some m, Some d =>
      if ((1 <=? m) && (m <=? 12) && (1 <=? d) && (d <=? 31))%Z
      then Some (days_from_civil (yh * 100 + yl) m d * 86400000)%Z
      else None
    | _, _, _, _ => None
    end
  | _ => None
  end.

(** A [JSON.parse] that knows the given texts and rejects every other. *)
Fixpoint JSON_parse (known : list (jsstring * json)) (s : jsstring) : option json :=
  match known with
  | [] => None
  | (k, v) :: known' => if JsString.eqb k s then Some v else JSON_parse known' s
  end.

End Reference.

(* ================================================================= *)
(** ** Properties stated about the code *)

Module Props.
Import Regex Js Transaction.

(** Group [i] has a value among the captures. *)
Definition has_cap (i : nat) (cs : list (nat * jsstring)) : bool :=
  existsb (fun kv => Nat.eqb (fst kv) i) cs.

(** Every match of [r] gives group [i] a value: the group lies on every path
    through the pattern and outside every quantifier. *)
Fixpoint sets (i : nat) (r : regex) : bool :=
  match r with
  | Seq a b => sets i a && negb (existsb (Nat.eqb i) (groups_of b)) || sets i b
  | Alt a b => sets i a && sets i b
  | Group j a => Nat.eqb j i || sets i a
  | _ => false
  end.

(** A matcher only looks at its continuation on states with no more input
    left than it started from. *)
Definition local (m : matcher_t) : Prop :=
  forall x c1 c2,
    (forall y, length (rest y) <= length (rest x) -> c1 y = c2 y) ->
    m x c1 = m x c2.

(** What a successful run hands to its continuation keeps group [i] if the
    pattern sets it, or if it was set before and the pattern cannot clear it. *)
Definition keeps (i : nat) (gs : list nat) (always : bool) (m : matcher_t) : Prop :=
  forall x c z, m x c = Some z ->
    exists y, c y = Some z /\
      (always = true \/ (has_cap i (caps x) = true /\ ~ In i gs) ->
       has_cap i (caps y) = true).

(** A unit that is not white space. *)
Definition nonspace (c : N) : bool := negb (JsString.is_space c).

(** The ways the body of the adapter's [try] block throws [e]: the service
    call, the decoding of the transport response, the reading of the response
    text, the extraction of JSON from it, the validation of the parsed value. *)
Inductive adapter_failure (JSON_parse : jsstring -> option json)
          (client_send : jsstring -> service_behaviour) (text : jsstring)
  : exn -> Prop :=
| invocation_throws e :
    client_send text = SendThrows e ->
    adapter_failure JSON_parse client_send text e
| decoding_throws e :
    client_send text = DecodeThrows e ->
    adapter_failure JSON_parse client_send text e
| response_text_throws b e :
    client_send text = Body b ->
    response_text b = Throw e ->
    adapter_failure JSON_parse client_send text e
| json_extraction_throws b t e :
    client_send text = Body b ->
    response_text b = Normal t ->
    extract_json JSON_parse t = Throw e ->
    adapter_failure JSON_parse client_send text e
| validation_throws b t j e :
    client_send text = Body b ->
    response_text b = Normal t ->
    extract_json JSON_parse t = Normal j ->
    sanitize j = Throw e ->
    adapter_failure JSON_parse client_send text e.

(** A category is [null] or one of the nine names of the enumeration. *)
Definition category_closed (c : json) : Prop :=
  c = JNull \/ exists name, In name category_enum /\ c = JStr (js name).

(** The examples of the specification. *)
Definition starbucks_text : jsstring := js "Starbucks Coffee 12/15/2024 ₹420.00".
Definition amazon_text : jsstring :=
  js "Amazon Purchase Rs. 1,500.50 dated 15-12-2024".
Definition zzz_text : jsstring := js "zzz qqq".

(** An environment without credentials, and one with them. *)
Definition env_unconfigured : environment :=
  {| AWS_REGION := None; AWS_ACCESS_KEY_ID := None; AWS_SECRET_ACCESS_KEY := None |}.
Definition env_configured : environment :=
  {| AWS_REGION := Some (js "ap-south-1");
     AWS_ACCESS_KEY_ID := Some (js "AKIAEXAMPLE");
     AWS_SECRET_ACCESS_KEY := Some (js "secret") |}.

(** A string literal of JSON text: the content between quotation marks. *)
Definition quoted (s : string) : jsstring := (34%N :: js s) ++ [34%N].

(** A model reply whose category is outside the enumeration:
    [{"category":"Groceries","confidence":0.9}]. *)
Definition groceries_reply : jsstring :=
  js "{" ++ quoted "category" ++ js ":" ++ quoted "Groceries" ++ js ","
     ++ quoted "confidence" ++ js ":0.9}".

Definition groceries_object : json :=
  JObj [(js "category", JStr (js "Groceries"));
        (js "confidence", JNum (Fin (9 # 10)))].

(** The service answering with that reply as its first content block. *)
Definition groceries_service (_ : jsstring) : service_behaviour :=
  Body (JObj [(js "content",
               JArr [JObj [(js "type", JStr (js "text"));
                           (js "text", JStr groceries_reply)]])]).

(** A service whose invocation fails. *)
Definition failing_service (_ : jsstring) : service_behaviour :=
  SendThrows (ErrorObject (js "socket hang up")).

End Props.

Module StoreProps.
Import Js Store.

(** The rows of an organization as [findMany] orders them. *)
Definition ordered_rows (db : table) (org : jsstring) : list Transaction :=
  orderBy_createdAt_desc (filter (fun t => JsString.eqb (organizationId t) org) db).

(** [a] is not older than [b]. *)
Definition newer_or_equal (a b : Transaction) : Prop :=
  (createdAt b <= createdAt a)%Z.

(** The rows created at time [k]. *)
Definition created_at (k : Z) (l : list Transaction) : list Transaction :=
  filter (fun t => (createdAt t =? k)%Z) l.

(** What [getTransactions] makes of the rows fetched for a limit. *)
Definition page_of (limit : nat) (fetched : list Transaction) (p : page) : Prop :=
  if Nat.eqb (length fetched) (limit + 1)
  then hasMore p = true
       /\ items p = firstn limit fetched
       /\ exists front t, items p = front ++ [t] /\ nextCursor p = Some (id t)
  else hasMore p = false /\ items p = fetched /\ nextCursor p = None.

(** Wherever two rows of equal [createdAt] follow one another in [l], their
    identifiers are in the order [lt]. *)
Definition ties_ordered_by (lt : jsstring -> jsstring -> Prop)
           (l : list Transaction) : Prop :=
  forall pre a mid b post,
    l = pre ++ a :: mid ++ b :: post ->
    createdAt a = createdAt b ->
    lt (id a) (id b).

(** Some strict order on identifiers decides the order of ties on every page. *)
Definition identifier_breaks_ties : Prop :=
  exists lt : jsstring -> jsstring -> Prop,
    (forall x y, lt x y -> ~ lt y x)
    /\ forall db org limit cursor p,
        NoDup (map id db) ->
        getTransactions db org limit cursor = Normal p ->
        ties_ordered_by lt (items p).

(** Sample rows. *)
Definition row (i org : string) (created : Z) : Transaction :=
  {| id := js i; text := js "Transaction"; amount := Some (Fin 100);
     date := None; description := Some (js "Test"); category := Some (js "Other");
     confidence := Fin (8 # 10); organizationId := js org; userId := js "user1";
     createdAt := created; updatedAt := created |}.

(** Five transactions of one organization among those of another. *)
Definition five_rows : table :=
  [row "t1" "orgA" 1000; row "t2" "orgA" 2000; row "x1" "orgB" 2500;
   row "t3" "orgA" 3000; row "t4" "orgA" 4000; row "x2" "orgB" 4500;
   row "t5" "orgA" 5000].

(** Two transactions created at the same instant, in the two orders in which
    the engine may yield them. *)
Definition tie_ab : table := [row "a" "orgA" 1000; row "b" "orgA" 1000].
Definition tie_ba : table := [row "b" "orgA" 1000; row "a" "orgA" 1000].

End StoreProps.

(* ================================================================= *)
(** ** The rate limiter (backend/src/middleware/rateLimit.ts) *)

Module RateLimit.

(** An entry of the store: the requests counted in the current window and
    the time (milliseconds) at which the window ends. *)
Record entry := { count : Z; resetTime : Z }.

(** [rateLimitStore], a [Map] from keys to entry objects.  The middleware
    keeps a reference to the entry it found or created and increments it in
    place, also after the rest of the chain has run, so the map holds
    addresses and the objects live in a heap. *)
Record store := { refs : list (jsstring * nat); heap : list entry }.

(** [new Map()] *)
Definition empty : store := {| refs := []; heap := [] |}.

(** [Map.prototype.get] *)
Fixpoint map_get (k : jsstring) (m : list (jsstring * nat)) : option nat :=
  match m with
  | [] => None
  | (k', l) :: m' => if JsString.eqb k' k then Some l else map_get k m'
  end.

(** [Map.prototype.set]: the binding of an existing key is replaced. *)
Fixpoint map_set (k : jsstring) (l : nat) (m : list (jsstring * nat))
  : list (jsstring * nat) :=
  match m with
  | [] => [(k, l)]
  | (k', l') :: m' =>
    if JsString.eqb k' k then (k, l) :: m' else (k', l') :: map_set k l m'
  end.

(** The object at an address. *)
Definition deref (h : list entry) (l : nat) : entry :=
  nth l h {| count := 0; resetTime := 0 |}.

Fixpoint heap_set (l : nat) (e : entry) (h : list entry) : list entry :=
  match h, l with
  | [], _ => []
  | _ :: h', O => e :: h'
  | x :: h', S l' => x :: heap_set l' e h'
  end.

(** [entry.count++] on the object at [l]. *)
Definition increment (l : nat) (s : store) : store :=
  {| refs := refs s;
     heap := heap_set l {| count := count (deref (heap s) l) + 1;
                           resetTime := resetTime (deref (heap s) l) |}
                      (heap s) |}.

(** [now > entry.resetTime] *)
Definition expired (now : Z) (e : entry) : bool := (resetTime e <? now)%Z.

(** [cleanupExpiredEntries(now)]: every key whose entry has expired is
    deleted. *)
Definition cleanupExpiredEntries (now : Z) (s : store) : store :=
  {| refs := filter (fun kl => negb (expired now (deref (heap s) (snd kl))))
                    (refs s);
     heap := heap s |}.

(** [clearRateLimitStore()] *)
Definition clearRateLimitStore (s : store) : store :=
  {| refs := []; heap := heap s |}.

(** [getRateLimitStatus(key)]; [None] is [null]. *)
Definition getRateLimitStatus (s : store) (key : jsstring) : option entry :=
  option_map (deref (heap s)) (map_get key (refs s)).

Record config := {
  windowMs : Z;
  maxRequests : Z;
  skipSuccessfulRequests : bool;
  skipFailedRequests : bool
}.

(** A configuration that leaves both skip options at their default. *)
Definition limit_of (window max : Z) : config :=
  {| windowMs := window; maxRequests := max;
     skipSuccessfulRequests := false; skipFailedRequests := false |}.

(** [rateLimitPresets] *)
Definition preset_auth : config := limit_of (15 * 60 * 1000) 5.
Definition preset_api : config := limit_of (60 * 1000) 60.
Definition preset_aiExtraction : config := limit_of (60 * 1000) 10.
Definition preset_read : config := limit_of (60 * 1000) 100.

(** [Math.ceil(a / b)] for integers and a positive [b]. *)
Definition ceil_div (a b : Z) : Z := (- ((- a) / b))%Z.

(** The three [X-RateLimit-*] headers. *)
Record headers := { limit : Z; remaining : Z; reset : Z }.

(** What the middleware answers: 429 with [retryAfter], or the rest of the
    chain ran and answered with [status]. *)
Inductive outcome : Type :=
| TooManyRequests (retryAfter : Z) (h : headers)
| Passed (h : headers) (status : Z).

(** A new entry object for the key. *)
Definition new_entry (cfg : config) (key : jsstring) (now : Z) (s : store)
  : store * nat :=
  let l := length (heap s) in
  ({| refs := map_set key l (refs s);
      heap := heap s ++ [{| count := 0; resetTime := now + windowMs cfg |}] |},
   l).

(** The middleware [rateLimit(config)] on a request with key [key] at time
    [now]; [random] tells whether [Math.random() < 0.01]; [next] is the rest
    of the chain, which may use the store and answers with a status. *)
Definition rateLimit (cfg : config) (key : jsstring) (now : Z) (random : bool)
           (next : store -> store * Z) (s : store) : store * outcome :=
  let s := if random then cleanupExpiredEntries now s else s in
  let '(s, l) :=
    match map_get key (refs s) with
    | Some l =>
      if expired now (deref (heap s) l) then new_entry cfg key now s else (s, l)
    | None => new_entry cfg key now s
    end in
  if (maxRequests cfg <=? count (deref (heap s) l))%Z then
    let retryAfter := ceil_div (resetTime (deref (heap s) l) - now) 1000 in
    (s, TooManyRequests retryAfter
          {| limit := maxRequests cfg; remaining := 0;
             reset := ceil_div (resetTime (deref (heap s) l)) 1000 |})
  else
    let s :=
      if negb (skipSuccessfulRequests cfg) && negb (skipFailedRequests cfg)
      then increment l s else s in
    let h := {| limit := maxRequests cfg;
                remaining := Z.max 0 (maxRequests cfg - count (deref (heap s) l));
                reset := ceil_div (resetTime (deref (heap s) l)) 1000 |} in
    let '(s, status) := next s in
    let s :=
      if skipSuccessfulRequests cfg || skipFailedRequests cfg then
        let isSuccess := ((200 <=? status) && (status <? 400))%Z in
        let isFailed := (400 <=? status)%Z in
        if (negb (skipSuccessfulRequests cfg) || negb isSuccess)
           && (negb (skipFailedRequests cfg) || negb isFailed)
        then increment l s else s
      else s in
    (s, Passed h status).

(** The default [keyGenerator]: the user's id if there is one, otherwise the
    first item of [x-forwarded-for], or [x-real-ip], or "unknown". *)
Definition defaultKey (userId forwarded realIp : option jsstring) : jsstring :=
  match userId with
  | Some (c :: u) => js "user:" ++ c :: u
  | _ =>
    let first := match forwarded with
                 | Some f => hd [] (JsString.split 44 f)
                 | None => []
                 end in
    let ip := match first, realIp with
              | c :: f, _ => c :: f
              | [], Some (c :: r) => c :: r
              | [], _ => js "unknown"
              end in
    js "ip:" ++ ip
  end.

(** The key of the extraction route: [`ai-extract:${user?.id || 'anonymous'}`]. *)
Definition extractKey (userId : option jsstring) : jsstring :=
  js "ai-extract:" ++ match userId with
                      | Some (c :: u) => c :: u
                      | _ => js "anonymous"
                      end.

(** A rest of the chain that leaves the store alone. *)
Definition handler (status : Z) (s : store) : store * Z := (s, status).

(** The status of the response the middleware leaves. *)
Definition response_status (o : outcome) : Z :=
  match o with
  | TooManyRequests _ _ => 429
  | Passed _ status => status
  end.

(** The two limiters in front of [POST /api/transactions/extract]: the global
    one of index.ts, registered before any user is set and so keyed by the
    address headers, then the one of the route, keyed by the authenticated
    user; the handler behind them answers [status]. *)
Definition extract_chain (forwarded realIp : option jsstring) (userId : jsstring)
           (now : Z) (random : bool) (now' : Z) (random' : bool) (status : Z)
           (s : store) : store * outcome :=
  rateLimit (limit_of (60 * 1000) 100) (defaultKey None forwarded realIp)
            now random
            (fun s1 =>
               let '(s2, o) :=
                 rateLimit preset_aiExtraction (extractKey (Some userId))
                           now' random' (handler status) s1 in
               (s2, response_status o))
            s.

End RateLimit.

Module RateLimitProps.
Import RateLimit.

(** What holds of every store the middleware builds: a key has one binding,
    no two keys share an object, and every address is allocated. *)
Definition wf (s : store) : Prop :=
  NoDup (map fst (refs s))
  /\ NoDup (map snd (refs s))
  /\ Forall (fun kl => snd kl < length (heap s)) (refs s).

(** The entry of a key, unless it has expired at [now]. *)
Definition live (now : Z) (s : store) (key : jsstring) : option entry :=
  match getRateLimitStatus s key with
  | Some e => if expired now e then None else Some e
  | None => None
  end.

(** The window a request is judged against: the live entry, or a new one. *)
Definition window (cfg : config) (now : Z) (e : option entry) : entry :=
  match e with
  | Some e => e
  | None => {| count := 0; resetTime := now + windowMs cfg |}
  end.

(** Whether a request that was let through is counted, given the status the
    rest of the chain answered with. *)
Definition counted (cfg : config) (status : Z) : bool :=
  if negb (skipSuccessfulRequests cfg) && negb (skipFailedRequests cfg) then true
  else (negb (skipSuccessfulRequests cfg)
        || negb ((200 <=? status) && (status <? 400))%Z)
       && (negb (skipFailedRequests cfg) || negb (400 <=? status)%Z).

(** The answer to a request, from the window it is judged against. *)
Definition verdict (cfg : config) (now : Z) (e : option entry) (status : Z)
  : outcome :=
  let w := window cfg now e in
  if (maxRequests cfg <=? count w)%Z then
    TooManyRequests (ceil_div (resetTime w - now) 1000)
                    {| limit := maxRequests cfg; remaining := 0;
                       reset := ceil_div (resetTime w) 1000 |}
  else
    Passed {| limit := maxRequests cfg;
              remaining :=
                Z.max 0 (maxRequests cfg
                         - (count w
                            + if negb (skipSuccessfulRequests cfg)
                                 && negb (skipFailedRequests cfg)
                              then 1 else 0));
              reset := ceil_div (resetTime w) 1000 |}
           status.

(** The entry of the key after the request. *)
Definition entry_after (cfg : config) (now : Z) (e : option entry) (status : Z)
  : entry :=
  let w := window cfg now e in
  if (maxRequests cfg <=? count w)%Z then w
  else {| count := count w + (if counted cfg status then 1 else 0);
          resetTime := resetTime w |}.

(** Whether the request was let through. *)
Definition passed (o : outcome) : bool :=
  match o with
  | Passed _ _ => true
  | TooManyRequests _ _ => false
  end.

(** A run of requests of one key: each with its time, its draw of
    [Math.random() < 0.01] and the status its handler answers. *)
Fixpoint serve (cfg : config) (key : jsstring) (reqs : list (Z * bool * Z))
         (s : store) : store * list outcome :=
  match reqs with
  | [] => (s, [])
  | (now, random, status) :: reqs' =>
    let '(s1, o) := rateLimit cfg key now random (handler status) s in
    let '(s2, os) := serve cfg key reqs' s1 in
    (s2, o :: os)
  end.

End RateLimitProps.

(* ================================================================= *)
(** ** Organizations and membership (backend/src/lib/organization.ts and
       backend/src/routes/organization.ts) *)

Module Organization.
Import Js.

Record Org := {
  org_id : jsstring;
  org_name : jsstring;
  org_slug : jsstring
}.

(** A row of [organizationMember]; [m_role] is the stored text. *)
Record Member := {
  m_userId : jsstring;
  m_organizationId : jsstring;
  m_role : jsstring;
  m_createdAt : Z
}.

Record database := {
  organizations : list Org;
  members : list Member
}.

(** The errors of the client that the routes tell apart: a unique constraint
    that fails, a record that an update or delete does not find. *)
Inductive prisma_error : Type := P2002 | P2025.

Inductive result (A : Type) : Type :=
| Done (a : A)
| Failed (e : prisma_error).
Arguments Done {A} a.
Arguments Failed {A} e.

(** [type OrganizationRole = 'owner' | 'admin' | 'member'] *)
Inductive OrganizationRole : Type := owner | admin | member.

Definition role_name (r : OrganizationRole) : jsstring :=
  match r with
  | owner => js "owner"
  | admin => js "admin"
  | member => js "member"
  end.

Definition is_member (userId organizationId : jsstring) (m : Member) : bool :=
  JsString.eqb (m_userId m) userId
  && JsString.eqb (m_organizationId m) organizationId.

(** [prisma.organizationMember.findUnique({ where: { userId_organizationId } })] *)
Definition findUnique_member (db : database) (userId organizationId : jsstring)
  : option Member :=
  find (is_member userId organizationId) (members db).

(** [roleHierarchy[role]] where it is a number: the object has the three
    roles; whatever else a name may reach on it is not a number. *)
Definition roleHierarchy (role : jsstring) : option Z :=
  if JsString.eqb role (js "owner") then Some 3%Z
  else if JsString.eqb role (js "admin") then Some 2%Z
  else if JsString.eqb role (js "member") then Some 1%Z
  else None.

Definition hasOrganizationAccess (db : database) (userId organizationId : jsstring)
  : bool :=
  match findUnique_member db userId organizationId with
  | Some _ => true
  | None => false
  end.

(** [hasOrganizationRole(userId, organizationId, requiredRole)]; a stored role
    without a number compares false with the number of the required role. *)
Definition hasOrganizationRole (db : database) (userId organizationId : jsstring)
           (requiredRole : OrganizationRole) : bool :=
  match findUnique_member db userId organizationId with
  | None => false
  | Some m =>
    match roleHierarchy (m_role m), roleHierarchy (role_name requiredRole) with
    | Some have, Some need => (need <=? have)%Z
    | _, _ => false
    end
  end.

(** [addUserToOrganization({ userId, organizationId, role = 'member' })]: the
    pair of user and organization is unique. *)
Definition addUserToOrganization (db : database) (now : Z)
           (userId organizationId : jsstring) (role : option jsstring)
  : result database :=
  match findUnique_member db userId organizationId with
  | Some _ => Failed P2002
  | None =>
    Done {| organizations := organizations db;
            members := members db
                       ++ [{| m_userId := userId;
                              m_organizationId := organizationId;
                              m_role := match role with
                                        | Some r => r
                                        | None => js "member"
                                        end;
                              m_createdAt := now |}] |}
  end.

Fixpoint remove_first (f : Member -> bool) (l : list Member) : list Member :=
  match l with
  | [] => []
  | m :: l' => if f m then l' else m :: remove_first f l'
  end.

Fixpoint update_first (f : Member -> bool) (g : Member -> Member)
         (l : list Member) : list Member :=
  match l with
  | [] => []
  | m :: l' => if f m then g m :: l' else m :: update_first f g l'
  end.

(** [removeUserFromOrganization({ userId, organizationId })] *)
Definition removeUserFromOrganization (db : database)
           (userId organizationId : jsstring) : result database :=
  match findUnique_member db userId organizationId with
  | None => Failed P2025
  | Some _ =>
    Done {| organizations := organizations db;
            members := remove_first (is_member userId organizationId)
                                    (members db) |}
  end.

(** [updateUserRole({ userId, organizationId, role })] *)
Definition updateUserRole (db : database) (userId organizationId role : jsstring)
  : result database :=
  match findUnique_member db userId organizationId with
  | None => Failed P2025
  | Some _ =>
    Done {| organizations := organizations db;
            members :=
              update_first (is_member userId organizationId)
                           (fun m => {| m_userId := m_userId m;
                                        m_organizationId := m_organizationId m;
                                        m_role := role;
                                        m_createdAt := m_createdAt m |})
                           (members db) |}
  end.

(** [createOrganization({ name, slug, creatorUserId })]: the organization and
    the membership of its creator as owner are created together; the slug
    and the identifier are unique.  [newId] is the identifier the client
    generates. *)
Definition createOrganization (db : database) (newId : jsstring) (now : Z)
           (name slug creatorUserId : jsstring) : result database :=
  if existsb (fun o => JsString.eqb (org_slug o) slug
                       || JsString.eqb (org_id o) newId) (organizations db)
  then Failed P2002
  else
    Done {| organizations := organizations db
                             ++ [{| org_id := newId; org_name := name;
                                    org_slug := slug |}];
            members := members db
                       ++ [{| m_userId := creatorUserId;
                              m_organizationId := newId;
                              m_role := js "owner";
                              m_createdAt := now |}] |}.

Fixpoint insert_member_desc (x : Member) (l : list Member) : list Member :=
  match l with
  | [] => [x]
  | y :: l' =>
    if (m_createdAt y <=? m_createdAt x)%Z then x :: y :: l'
    else y :: insert_member_desc x l'
  end.

Fixpoint orderBy_member_createdAt_desc (l : list Member) : list Member :=
  match l with
  | [] => []
  | x :: l' => insert_member_desc x (orderBy_member_createdAt_desc l')
  end.

(** An organization of a user with the user's role in it:
    [{ ...m.organization, role: m.role }]. *)
Record UserOrganization := { uo_org : Org; uo_role : jsstring }.

(** [getUserOrganizations(userId)]: the memberships of the user, newest first,
    each with the organization the row refers to (the foreign key makes the
    organization exist). *)
Definition getUserOrganizations (db : database) (userId : jsstring)
  : list UserOrganization :=
  flat_map
    (fun m =>
       match find (fun o => JsString.eqb (org_id o) (m_organizationId m))
                  (organizations db) with
       | Some o => [{| uo_org := o; uo_role := m_role m |}]
       | None => []
       end)
    (orderBy_member_createdAt_desc
       (filter (fun m => JsString.eqb (m_userId m) userId) (members db))).

(** The check of the transaction routes:
    [userOrgs.some(org => org.id === organizationId)]. *)
Definition route_hasAccess (db : database) (userId organizationId : jsstring)
  : bool :=
  existsb (fun uo => JsString.eqb (org_id (uo_org uo)) organizationId)
          (getUserOrganizations db userId).

(** [POST /:id/members] for an authenticated requester; [userId] and [role]
    are the fields of the body, each absent or a string. *)
Definition add_member_route (db : database) (now : Z) (requester id : jsstring)
           (userId role : option jsstring) : database * nat :=
  match userId with
  | Some (c :: u) =>
    if negb (hasOrganizationRole db requester id admin) then (db, 403)
    else match addUserToOrganization db now (c :: u) id
                                     (Some match role with
                                           | Some r => r
                                           | None => js "member"
                                           end) with
         | Done db' => (db', 201)
         | Failed P2002 => (db, 409)
         | Failed _ => (db, 500)
         end
  | _ => (db, 400)
  end.

(** [PUT /:id/members/:userId]; [role] is the field of the body, absent or a
    string. *)
Definition update_member_route (db : database) (requester id userId : jsstring)
           (role : option jsstring) : database * nat :=
  match role with
  | Some (c :: r) =>
    if negb (hasOrganizationRole db requester id admin) then (db, 403)
    else match updateUserRole db userId id (c :: r) with
         | Done db' => (db', 200)
         | Failed _ => (db, 500)
         end
  | _ => (db, 400)
  end.

(** [DELETE /:id/members/:userId] *)
Definition remove_member_route (db : database) (requester id userId : jsstring)
  : database * nat :=
  if negb (hasOrganizationRole db requester id admin) then (db, 403)
  else match removeUserFromOrganization db userId id with
       | Done db' => (db', 200)
       | Failed _ => (db, 500)
       end.

End Organization.

Module OrganizationProps.
Import Organization.

(** What the foreign key of [organizationMember] guarantees: the organization
    of every membership exists. *)
Definition memberships_refer (db : database) : Prop :=
  forall m, In m (members db) ->
            exists o, In o (organizations db) /\ org_id o = m_organizationId m.

(** What the unique constraint guarantees: one row for a user and an
    organization. *)
Definition memberships_unique (db : database) : Prop :=
  NoDup (map (fun m => (m_userId m, m_organizationId m)) (members db)).

(** Which checks a recognised role passes: owner all, admin those for admin
    and member, member that for member. *)
Definition passes (have need : OrganizationRole) : bool :=
  match have, need with
  | owner, _ => true
  | admin, owner => false
  | admin, _ => true
  | member, member => true
  | member, _ => false
  end.

(** Sample data: an organization with an owner, an admin, a member and a user
    whose stored role is none of the three. *)
Definition acme : database :=
  {| organizations := [{| org_id := js "org1"; org_name := js "Acme";
                          org_slug := js "acme" |}];
     members :=
       [{| m_userId := js "olga"; m_organizationId := js "org1";
           m_role := js "owner"; m_createdAt := 1 |};
        {| m_userId := js "adam"; m_organizationId := js "org1";
           m_role := js "admin"; m_createdAt := 2 |};
        {| m_userId := js "mia"; m_organizationId := js "org1";
           m_role := js "member"; m_createdAt := 3 |};
        {| m_userId := js "vic"; m_organizationId := js "org1";
           m_role := js "viewer"; m_createdAt := 4 |}] |}.

End OrganizationProps.

(* ================================================================= *)
(** ** The transaction routes (backend/src/routes/transaction.ts) and
       [createTransaction] (backend/src/lib/transaction.ts) *)

Module TransactionRoutes.
Import Js Organization.

(** The two stores the routes read and write. *)
Record world := {
  orgdb : database;
  transactions : Store.table
}.

(** The argument of [createTransaction]; [d_category] is whatever value the
    parser stored. *)
Record TransactionData := {
  d_text : jsstring;
  d_amount : option number;
  d_date : option Z;
  d_description : option jsstring;
  d_category : json;
  d_confidence : number;
  d_organizationId : jsstring;
  d_userId : jsstring
}.

(** What is generated for a new row: the identifier and the two times. *)
Record generated := {
  g_id : jsstring;
  g_createdAt : Z;
  g_updatedAt : Z
}.

(** [createTransaction(data)], that is [prisma.transaction.create({ data })]:
    the client rejects a category that is neither a string nor null; the
    primary key and the foreign key on the organization are checked; the new
    row holds the data as given. *)
Definition createTransaction (w : world) (g : generated) (data : TransactionData)
  : completion (world * Store.Transaction) :=
  match match d_category data with
        | JNull => Some None
        | JStr s => Some (Some s)
        | _ => None
        end with
  | None => Throw (ErrorObject (js "PrismaClientValidationError"))
  | Some category =>
    if existsb (fun t => JsString.eqb (Store.id t) (g_id g)) (transactions w)
    then Throw (ErrorObject (js "P2002"))
    else if negb (existsb (fun o => JsString.eqb (org_id o) (d_organizationId data))
                          (organizations (orgdb w)))
    then Throw (ErrorObject (js "P2003"))
    else
      let t := {| Store.id := g_id g;
                  Store.text := d_text data;
                  Store.amount := d_amount data;
                  Store.date := d_date data;
                  Store.description := d_description data;
                  Store.category := category;
                  Store.confidence := d_confidence data;
                  Store.organizationId := d_organizationId data;
                  Store.userId := d_userId data;
                  Store.createdAt := g_createdAt g;
                  Store.updatedAt := g_updatedAt g |} in
      Normal ({| orgdb := orgdb w; transactions := transactions w ++ [t] |}, t)
  end.

(** [parseInt(s, 10)]: white space and a sign at the front are passed over and
    the digits that follow are read; [None] is NaN, for no digit.  The value is
    the integer the digits denote: the engine's rounding of a long numeral to
    a double changes neither its comparisons with 1 and 100 nor a value
    between them. *)
Definition parseInt10 (s : jsstring) : option Z :=
  let s0 := JsString.trimStart s in
  let '(neg, s1) :=
    match s0 with
    | c :: r =>
      if (c =? 45)%N then (true, r)
      else if (c =? 43)%N then (false, r)
      else (false, s0)
    | [] => (false, s0)
    end in
  match fst (take_digits s1) with
  | [] => None
  | ds => Some (if neg then - digits_value ds else digits_value ds)%Z
  end.

(** [v || d] for a query parameter. *)
Definition or_default (v : option jsstring) (d : jsstring) : jsstring :=
  match v with
  | Some (c :: s) => c :: s
  | _ => d
  end.

(** [v || undefined] *)
Definition or_undefined (v : option jsstring) : option jsstring :=
  match v with
  | Some (c :: s) => Some (c :: s)
  | _ => None
  end.

Inductive extract_response : Type :=
| ExtractBadRequest
| ExtractForbidden
| ExtractError
| Created (t : Store.Transaction).

Definition extract_status (r : extract_response) : nat :=
  match r with
  | ExtractBadRequest => 400
  | ExtractForbidden => 403
  | ExtractError => 500
  | Created _ => 201
  end.

Inductive list_response : Type :=
| ListBadRequest
| ListForbidden
| ListError
| ListOk (p : Store.page) (count : nat).

Definition list_status (r : list_response) : nat :=
  match r with
  | ListBadRequest => 400
  | ListForbidden => 403
  | ListError => 500
  | ListOk _ _ => 200
  end.

(** The identifiers of [userOrgs]. *)
Definition userOrgs_ids (db : database) (user : jsstring) : list jsstring :=
  map (fun uo => org_id (uo_org uo)) (getUserOrganizations db user).

Section Routes.
Variable env : Transaction.environment.
Variable JSON_parse : jsstring -> option json.
Variable client_send : jsstring -> Transaction.service_behaviour.
Variable newDate : json -> option Z.
Variable toLowerCase : jsstring -> jsstring.

(** [POST /api/transactions/extract] for the authenticated user [user];
    [body] is what [c.req.json()] gives, [None] where it throws.  The
    handler reads [text] and [organizationId] from the body: neither is an
    index nor inherited. *)
Definition extract_route (w : world) (g : generated) (user : jsstring)
           (body : option json) : world * extract_response :=
  let attempt : completion (world * extract_response) :=
    body <- match body with
            | Some b => Normal b
            | None => Throw SyntaxError
            end ;;
    text <- get (Some body) (js "text") ;;
    organizationId <- get (Some body) (js "organizationId") ;;
    match text with
    | Some (JStr (c :: s)) =>
      let text := c :: s in
      match organizationId with
      | Some (JStr (c' :: s')) =>
        let organizationId := c' :: s' in
        if negb (route_hasAccess (orgdb w) user organizationId)
        then Normal (w, ExtractForbidden)
        else
          parsed <- Transaction.parseTransactionText
                      env JSON_parse client_send newDate toLowerCase text ;;
          created <- createTransaction w g
                       {| d_text := text;
                          d_amount := Transaction.amount parsed;
                          d_date := Transaction.date parsed;
                          d_description := Transaction.description parsed;
                          d_category := Transaction.category parsed;
                          d_confidence := Transaction.confidence parsed;
                          d_organizationId := organizationId;
                          d_userId := user |} ;;
          Normal (fst created, Created (snd created))
      | _ => Normal (w, ExtractBadRequest)
      end
    | _ => Normal (w, ExtractBadRequest)
    end in
  match attempt with
  | Normal r => r
  | Throw _ => (w, ExtractError)
  end.

End Routes.

(** [GET /api/transactions] for the authenticated user [user]; the three
    query parameters are absent or strings. *)
Definition list_route (w : world) (user : jsstring)
           (organizationId limit cursor : option jsstring) : list_response :=
  let limit := parseInt10 (or_default limit (js "20")) in
  if match limit with
     | Some n => (n <? 1)%Z || (100 <? n)%Z
     | None => false
     end
  then ListBadRequest
  else
    match organizationId with
    | Some (c :: s) =>
      let organizationId := c :: s in
      if negb (route_hasAccess (orgdb w) user organizationId) then ListForbidden
      else
        match Store.getTransactions (transactions w) organizationId
                                    (option_map Z.to_nat limit)
                                    (or_undefined cursor) with
        | Normal result => ListOk result (length (Store.items result))
        | Throw _ => ListError
        end
    | _ => ListBadRequest
    end.

(** [GET /api/transactions/:id] for the authenticated user [user]. *)
Definition get_route (w : world) (user i : jsstring)
           (organizationId : option jsstring) : Store.response :=
  Store.get_transaction_route (transactions w) (userOrgs_ids (orgdb w) user)
                              i organizationId.

End TransactionRoutes.

Module TransactionRoutesProps.
Import Js Organization TransactionRoutes.

(** The values a transaction row may hold, as the parser guarantees them. *)
Definition well_formed_row (t : Store.Transaction) : Prop :=
  (exists q, Store.confidence t = Fin q /\ (0 <= q <= 1)%Q)
  /\ (forall d, Store.description t = Some d -> length d <= 255)
  /\ (forall a, Store.amount t = Some a -> ltb a (Fin 0) = false).

(** An extraction request: what is generated for its row, the authenticated
    user and the body. *)
Record request := {
  rq_generated : generated;
  rq_user : jsstring;
  rq_body : option json
}.

Section Served.
Variable env : Transaction.environment.
Variable JSON_parse : jsstring -> option json.
Variable client_send : jsstring -> Transaction.service_behaviour.
Variable newDate : json -> option Z.
Variable toLowerCase : jsstring -> jsstring.

(** The world after the extraction route has served the requests in turn. *)
Definition extract_all (w : world) (requests : list request) : world :=
  fold_left
    (fun w rq =>
       fst (extract_route env JSON_parse client_send newDate toLowerCase
                          w (rq_generated rq) (rq_user rq) (rq_body rq)))
    requests w.

End Served.

(** What holds of every row the extraction route has written while the
    memberships were [db]. *)
Definition written_by_member (db : database) (t : Store.Transaction) : Prop :=
  well_formed_row t
  /\ Store.text t <> []
  /\ hasOrganizationAccess db (Store.userId t) (Store.organizationId t) = true.

(** A world with the sample organization and no transaction. *)
Definition acme_world : world :=
  {| orgdb := OrganizationProps.acme; transactions := [] |}.

(** The sample organization with three transactions of its own and one of
    another organization. *)
Definition acme_busy : world :=
  {| orgdb := OrganizationProps.acme;
     transactions := [StoreProps.row "t1" "org1" 1000;
                      StoreProps.row "t2" "org1" 2000;
                      StoreProps.row "x1" "org9" 2500;
                      StoreProps.row "t3" "org1" 3000] |}.

Definition first_row : generated :=
  {| g_id := js "tx1"; g_createdAt := 100; g_updatedAt := 100 |}.

Definition second_row : generated :=
  {| g_id := js "tx2"; g_createdAt := 200; g_updatedAt := 200 |}.

(** A model reply whose category is a number:
    [{"category":5,"confidence":0.9}]. *)
Definition numeric_category_reply : jsstring :=
  js "{" ++ Props.quoted "category" ++ js ":5,"
     ++ Props.quoted "confidence" ++ js ":0.9}".

Definition numeric_category_object : json :=
  JObj [(js "category", JNum (Fin 5));
        (js "confidence", JNum (Fin (9 # 10)))].

(** The service answering with that reply as its first content block. *)
Definition numeric_category_service (_ : jsstring)
  : Transaction.service_behaviour :=
  Transaction.Body
    (JObj [(js "content",
            JArr [JObj [(js "type", JStr (js "text"));
                        (js "text", JStr numeric_category_reply)]])]).


(** A request body [{ text, organizationId }]. *)
Definition extract_body (text organizationId : jsstring) : json :=
  JObj [(js "text", JStr text); (js "organizationId", JStr organizationId)].

End TransactionRoutesProps.

(* ================================================================= *)
(** ** The transaction list of the frontend
       (frontend/components/transactions-list.tsx) *)

Module TransactionsList.
Import TransactionRoutes.

(** The state of the component that the loads change. *)
Record list_state := {
  shown : list Store.Transaction;
  nextCursor : option jsstring;
  hasMore : bool
}.

Definition initial_state : list_state :=
  {| shown := []; nextCursor := None; hasMore := false |}.

(** [loadTransactions(cursor, append)] for the signed-in user [user] and the
    organization of the component: the client library and the proxy hand
    [organizationId], [limit=20] and the cursor, if there is one, to the
    list route, whose answer comes back; an answer that is not 200 leaves the
    three fields alone. *)
Definition loadTransactions (w : world) (user organizationId : jsstring)
           (cursor : option jsstring) (append : bool) (st : list_state)
  : list_state :=
  match list_route w user (Some organizationId) (Some (js "20"))
                   (or_undefined cursor) with
  | ListOk response _ =>
    {| shown := if append then shown st ++ Store.items response
                else Store.items response;
       nextCursor := Store.nextCursor response;
       hasMore := Store.hasMore response |}
  | _ => st
  end.

(** [handleLoadMore()], when no load is under way. *)
Definition handleLoadMore (w : world) (user organizationId : jsstring)
           (st : list_state) : list_state :=
  match nextCursor st with
  | Some (c :: s) => loadTransactions w user organizationId (Some (c :: s)) true st
  | _ => st
  end.

(** The first load, then [clicks] uses of "load more". *)
Definition after_clicks (w : world) (user organizationId : jsstring)
           (clicks : nat) : list_state :=
  Nat.iter clicks (handleLoadMore w user organizationId)
           (loadTransactions w user organizationId None false initial_state).

(** What the list shows after some pages, and the cursor it holds: the
    first [k] of [rows], and the identifier of the last of them if there are
    more. *)
Definition paged (rows : list Store.Transaction) (k : nat) (st : list_state)
  : Prop :=
  shown st = firstn k rows
  /\ if Nat.ltb k (length rows)
     then hasMore st = true
          /\ exists pre x,
              firstn k rows = pre ++ [x] /\ nextCursor st = Some (Store.id x)
     else hasMore st = false /\ nextCursor st = None.

(** Sample data: forty-five transactions of the sample organization, the
    [n]-th created at time [n]. *)
Definition numbered_row (n : nat) : Store.Transaction :=
  {| Store.id := repeat 97%N (S n);
     Store.text := js "Transaction";
     Store.amount := None;
     Store.date := None;
     Store.description := None;
     Store.category := None;
     Store.confidence := Js.Fin 0;
     Store.organizationId := js "org1";
     Store.userId := js "mia";
     Store.createdAt := Z.of_nat n;
     Store.updatedAt := Z.of_nat n |}.

Definition acme_long : world :=
  {| orgdb := OrganizationProps.acme;
     transactions := map numbered_row (List.seq 0 45) |}.

End TransactionsList.

(** Words of a pattern and numbers without separators, to state what the
    amount patterns can capture. *)
Module AmountProps.
Import Regex.

(** The words a pattern can consume; the two assertions consume nothing. *)
Fixpoint matches (r : regex) (w : jsstring) : Prop :=
  match r with
  | Empty | Bol | Eol => w = []
  | Char p => exists c, w = [c] /\ p c = true
  | Seq a b => exists u v, w = u ++ v /\ matches a u /\ matches b v
  | Alt a b => matches a w \/ matches b w
  | Repeat a min max _ =>
    exists ws,
      w = concat ws /\ Forall (matches a) ws
      /\ match max with
         | Some k => length ws <= k /\ (min <= k -> min <= length ws)
         | None => min <= length ws
         end
  | Group _ a => matches a w
  end.

(** [w] occurs in [text]. *)
Definition occurs_in (text w : jsstring) : Prop :=
  exists pre post, text = pre ++ w ++ post.

(** Every capture is a word of [number] that occurs in [text]. *)
Definition captures_ok (text : jsstring) (number : regex)
           (cs : list (nat * jsstring)) : Prop :=
  Forall (fun kv => occurs_in text (snd kv) /\ matches number (snd kv)) cs.

(** Every group of the pattern encloses [number]. *)
Fixpoint groups_enclose (number : regex) (r : regex) : Prop :=
  match r with
  | Seq a b | Alt a b => groups_enclose number a /\ groups_enclose number b
  | Repeat a _ _ _ => groups_enclose number a
  | Group _ a => a = number /\ groups_enclose number a
  | _ => True
  end.

(** A successful run of the matcher [m] of [r] from a position of [text]
    consumes a word of [r] and keeps the captures as [captures_ok] wants
    them. *)
Definition sound (text : jsstring) (number r : regex) (m : matcher_t) : Prop :=
  forall x c z,
    (exists pre, text = pre ++ rest x) ->
    captures_ok text number (caps x) ->
    m x c = Some z ->
    exists y w,
      c y = Some z /\ rest x = w ++ rest y /\ matches r w
      /\ captures_ok text number (caps y).

(** A number written without separators: a sign, one to [n] digits, and a
    fraction of two digits, the sign and the fraction optional. *)
Definition plain_number (n : nat) (w : jsstring) : Prop :=
  exists sign ds frac,
    w = sign ++ ds ++ frac
    /\ (sign = [] \/ sign = [45%N])
    /\ Forall (fun c => JsString.is_digit c = true) ds
    /\ 1 <= length ds <= n
    /\ (frac = []
        \/ exists a b, frac = [46%N; a; b]
                       /\ JsString.is_digit a = true
                       /\ JsString.is_digit b = true).

(** What [parseFloat] reads after the sign. *)
Definition decimal (neg : bool) (s1 : jsstring) : Js.number :=
  let '(ip, s2) := Js.take_digits s1 in
  let fp := match s2 with 46%N :: r => fst (Js.take_digits r) | _ => [] end in
  match ip, fp with
  | [], [] => Js.NaN
  | _, _ =>
    let scale := (10 ^ Z.of_nat (length fp))%Z in
    let q := Qred (Qmake (Js.digits_value ip * scale + Js.digits_value fp)
                         (Z.to_pos scale)) in
    Js.Fin (if neg then Qopp q else q)
  end.

(** A comma directly followed by a digit: a separator inside a number. *)
Fixpoint has_separator (s : jsstring) : bool :=
  match s with
  | c :: s' =>
    match s' with
    | d :: _ => ((c =? 44)%N && JsString.is_digit d) || has_separator s'
    | [] => false
    end
  | [] => false
  end.

(** A unit of the class [[₹Rs\.]] directly followed by a digit. *)
Fixpoint has_sign_before_digit (s : jsstring) : bool :=
  match s with
  | c :: s' =>
    match s' with
    | d :: _ =>
      (one_of (js "₹Rs.") c && JsString.is_digit d) || has_sign_before_digit s'
    | [] => false
    end
  | [] => false
  end.

End AmountProps.

Module CategoryProps.

(** A keyword of the entry occurs in the text. *)
Definition entry_matches (lowerText : jsstring) (e : string * list string) : bool :=
  existsb (fun keyword => JsString.includes lowerText (js keyword)) (snd e).

End CategoryProps.

(* ================================================================= *)
(** ** The frontend: route guard (frontend/middleware.ts) and the confidence
       label of the transaction form *)

Module Frontend.
Import Js.







Inductive label : Type := High | Medium | Low.

(** [getConfidenceLabel(confidence)] *)
Definition getConfidenceLabel (confidence : number) : label :=
  if leb (Fin (8 # 10)) confidence then High
  else if leb (Fin (5 # 10)) confidence then Medium
  else Low.

End Frontend.

(** Bounds between closed rationals, by evaluation. *)
Ltac closed_rational_goal :=
  match goal with
  | |- (_ <= _)%Q => apply Qle_bool_iff; vm_compute; reflexivity
  | |- (_ == _)%Q => vm_compute; reflexivity
  | |- _ /\ _ => split; closed_rational_goal
  end.

(* ================================================================= *)
(** ** Facts about the matcher *)

Module RegexFacts.
Import Regex Props.

Lemma orelse_ext {A} (a a' : option A) (b b' : unit -> option A) :
  a = a' -> b tt = b' tt -> orelse a b = orelse a' b'.
Proof.
  intros -> H. unfold orelse. destruct a'; auto.
Qed.

Lemma repeat_matcher_local m gs greedy (Hm : local m) :
  forall fuel min max x c1 c2,
    (forall y, length (rest y) <= length (rest x) -> c1 y = c2 y) ->
    repeat_matcher m gs greedy c1 fuel min max x
    = repeat_matcher m gs greedy c2 fuel min max x.
Proof.
  induction fuel as [|fuel IH]; intros min max x c1 c2 Hc; simpl; [reflexivity|].
  assert (Hx : c1 x = c2 x) by (apply Hc; lia).
  assert (Hd : m (clear_caps gs x)
                 (fun y => if Nat.eqb min 0 && Nat.eqb (length (rest y)) (length (rest x))
                           then None
                           else repeat_matcher m gs greedy c1 fuel (Nat.pred min)
                                               (option_map Nat.pred max) y)
               = m (clear_caps gs x)
                 (fun y => if Nat.eqb min 0 && Nat.eqb (length (rest y)) (length (rest x))
                           then None
                           else repeat_matcher m gs greedy c2 fuel (Nat.pred min)
                                               (option_map Nat.pred max) y)).
  { apply Hm. simpl. intros y Hy.
    destruct (Nat.eqb min 0 && Nat.eqb (length (rest y)) (length (rest x)));
      [reflexivity|].
    apply IH. intros z Hz. apply Hc. lia. }
  destruct max as [[|k]|]; auto;
    destruct (negb (Nat.eqb min 0)); auto;
    destruct greedy; apply orelse_ext; auto.
Qed.

Lemma matcher_Repeat len0 r1 min max greedy x c :
  matcher len0 (Repeat r1 min max greedy) x c
  = repeat_matcher (matcher len0 r1) (groups_of r1) greedy c
                   (S (min + length (rest x))) min max x.
Proof. reflexivity. Qed.

Lemma matcher_local len0 r : local (matcher len0 r).
Proof.
  induction r as [|p|r1 IH1 r2 IH2|r1 IH1 r2 IH2|r1 IH1 min max greedy|i r1 IH1| |];
    intros x c1 c2 Hc; [simpl|simpl|simpl|simpl|rewrite !matcher_Repeat|simpl|simpl|simpl].
  - apply Hc; lia.
  - destruct (rest x) as [|ch s'] eqn:E; [reflexivity|].
    destruct (p ch); [|reflexivity]. apply Hc. simpl. lia.
  - apply IH1. intros y Hy. apply IH2. intros z Hz. apply Hc. lia.
  - apply orelse_ext; [apply IH1|apply IH2]; assumption.
  - apply repeat_matcher_local; assumption.
  - apply IH1. intros y Hy. apply Hc. simpl. assumption.
  - destruct (Nat.eqb (length (rest x)) len0); [apply Hc; lia|reflexivity].
  - assert (Hx : c1 x = c2 x) by (apply Hc; lia).
    destruct (rest x); [exact Hx|reflexivity].
Qed.

(** The fuel [matcher] gives to a quantifier is enough: more changes nothing. *)
Lemma repeat_matcher_fuel m gs greedy c (Hm : local m) :
  forall fuel1 fuel2 min max x,
    min + length (rest x) < fuel1 ->
    min + length (rest x) < fuel2 ->
    repeat_matcher m gs greedy c fuel1 min max x
    = repeat_matcher m gs greedy c fuel2 min max x.
Proof.
  induction fuel1 as [|fuel1 IH]; intros fuel2 min max x H1 H2; [lia|].
  destruct fuel2 as [|fuel2]; [lia|]. simpl.
  assert (Hd : m (clear_caps gs x)
                 (fun y => if Nat.eqb min 0 && Nat.eqb (length (rest y)) (length (rest x))
                           then None
                           else repeat_matcher m gs greedy c fuel1 (Nat.pred min)
                                               (option_map Nat.pred max) y)
               = m (clear_caps gs x)
                 (fun y => if Nat.eqb min 0 && Nat.eqb (length (rest y)) (length (rest x))
                           then None
                           else repeat_matcher m gs greedy c fuel2 (Nat.pred min)
                                               (option_map Nat.pred max) y)).
  { apply Hm. simpl. intros y Hy.
    destruct (Nat.eqb min 0) eqn:E0; simpl.
    - destruct (Nat.eqb (length (rest y)) (length (rest x))) eqn:E1; [reflexivity|].
      apply Nat.eqb_eq in E0. apply Nat.eqb_neq in E1. subst min.
      apply IH; simpl; lia.
    - apply Nat.eqb_neq in E0. apply IH; lia. }
  destruct max as [[|k]|]; auto;
    destruct (negb (Nat.eqb min 0)); auto;
    destruct greedy; apply orelse_ext; auto.
Qed.

(** In particular for the quantifier of a pattern, whose matcher is local. *)
Lemma matcher_Repeat_fuel len0 r1 min max greedy x c fuel :
  min + length (rest x) < fuel ->
  repeat_matcher (matcher len0 r1) (groups_of r1) greedy c fuel min max x
  = matcher len0 (Repeat r1 min max greedy) x c.
Proof.
  intros H. rewrite matcher_Repeat.
  apply repeat_matcher_fuel; [apply matcher_local|exact H|lia].
Qed.

Lemma has_cap_clear i gs cs :
  ~ In i gs -> has_cap i cs = true ->
  has_cap i (filter (fun kv => negb (existsb (Nat.eqb (fst kv)) gs)) cs) = true.
Proof.
  intros Hi. unfold has_cap. induction cs as [|[j v] cs IH]; simpl; [auto|].
  destruct (Nat.eqb j i) eqn:E; simpl.
  - apply Nat.eqb_eq in E. subst j. intros _.
    assert (Hn : existsb (Nat.eqb i) gs = false).
    { destruct (existsb (Nat.eqb i) gs) eqn:Ex; [|reflexivity].
      apply existsb_exists in Ex. destruct Ex as [k [Hk Ek]].
      apply Nat.eqb_eq in Ek. subst k. contradiction. }
    rewrite Hn. simpl. rewrite Nat.eqb_refl. reflexivity.
  - intros H. destruct (negb (existsb (Nat.eqb j) gs)); simpl; auto.
    rewrite E. simpl. auto.
Qed.

Lemma orelse_some {A} (a : option A) b z :
  orelse a b = Some z -> a = Some z \/ b tt = Some z.
Proof.
  unfold orelse. destruct a; auto.
Qed.

Lemma repeat_matcher_keeps i m gs greedy c (Hm : keeps i gs false m) :
  forall fuel min max x z,
    repeat_matcher m gs greedy c fuel min max x = Some z ->
    exists y, c y = Some z /\
      (has_cap i (caps x) = true /\ ~ In i gs -> has_cap i (caps y) = true).
Proof.
  induction fuel as [|fuel IH]; intros min max x z H; simpl in H; [discriminate|].
  assert (Hstop : c x = Some z ->
                  exists y, c y = Some z /\
                    (has_cap i (caps x) = true /\ ~ In i gs -> has_cap i (caps y) = true)).
  { intros Hc. exists x. split; [assumption|]. intros [Hx _]. exact Hx. }
  assert (Hiter : forall d,
             d = (fun y => if Nat.eqb min 0 && Nat.eqb (length (rest y)) (length (rest x))
                           then None
                           else repeat_matcher m gs greedy c fuel (Nat.pred min)
                                               (option_map Nat.pred max) y) ->
             m (clear_caps gs x) d = Some z ->
             exists y, c y = Some z /\
               (has_cap i (caps x) = true /\ ~ In i gs -> has_cap i (caps y) = true)).
  { intros d -> Hd. apply Hm in Hd. destruct Hd as [y [Hy Hk]].
    destruct (Nat.eqb min 0 && Nat.eqb (length (rest y)) (length (rest x)));
      [discriminate|].
    apply IH in Hy. destruct Hy as [y' [Hy' Hk']].
    exists y'. split; [assumption|]. intros [Hx Hi].
    apply Hk'. split; [|assumption]. apply Hk. right. split; [|assumption].
    simpl. apply has_cap_clear; assumption. }
  assert (Hmore :
            (if negb (Nat.eqb min 0)
             then m (clear_caps gs x)
                    (fun y => if Nat.eqb min 0 && Nat.eqb (length (rest y)) (length (rest x))
                              then None
                              else repeat_matcher m gs greedy c fuel (Nat.pred min)
                                                  (option_map Nat.pred max) y)
             else if greedy
                  then orelse (m (clear_caps gs x)
                    (fun y => if Nat.eqb min 0 && Nat.eqb (length (rest y)) (length (rest x))
                              then None
                              else repeat_matcher m gs greedy c fuel (Nat.pred min)
                                                  (option_map Nat.pred max) y))
                              (fun _ => c x)
                  else orelse (c x) (fun _ => m (clear_caps gs x)
                    (fun y => if Nat.eqb min 0 && Nat.eqb (length (rest y)) (length (rest x))
                              then None
                              else repeat_matcher m gs greedy c fuel (Nat.pred min)
                                                  (option_map Nat.pred max) y))) = Some z ->
            exists y, c y = Some z /\
              (has_cap i (caps x) = true /\ ~ In i gs -> has_cap i (caps y) = true)).
  { intros H'. destruct (negb (Nat.eqb min 0)).
    - eapply Hiter; [reflexivity|exact H'].
    - destruct greedy; apply orelse_some in H'; destruct H' as [H'|H'];
        first [apply Hstop; exact H' | eapply Hiter; [reflexivity|exact H']]. }
  destruct max as [[|k]|]; [apply Hstop; exact H|apply Hmore; exact H|apply Hmore; exact H].
Qed.

Lemma keeps_weaken i gs m : keeps i gs true m -> keeps i gs false m.
Proof.
  intros H x c z Hz. destruct (H x c z Hz) as [y [Hy Hk]].
  exists y. split; [assumption|]. intros _. apply Hk. left. reflexivity.
Qed.

Lemma not_in_existsb i gs : existsb (Nat.eqb i) gs = false -> ~ In i gs.
Proof.
  intros H Hin. assert (existsb (Nat.eqb i) gs = true).
  { apply existsb_exists. exists i. split; [assumption|apply Nat.eqb_refl]. }
  congruence.
Qed.

Lemma matcher_keeps i len0 r :
  keeps i (groups_of r) (sets i r) (matcher len0 r).
Proof.
  induction r as [|p|r1 IH1 r2 IH2|r1 IH1 r2 IH2|r1 IH1 min max greedy|j r1 IH1| |];
    intros x c z H;
    [simpl in H|simpl in H|simpl in H|simpl in H|rewrite matcher_Repeat in H
     |simpl in H|simpl in H|simpl in H].
  - exists x. split; [assumption|]. intros [Hs|[Hx _]]; [discriminate|assumption].
  - destruct (rest x) as [|ch s']; [discriminate|].
    destruct (p ch); [|discriminate].
    eexists. split; [eassumption|]. simpl.
    intros [Hs|[Hx _]]; [discriminate|assumption].
  - apply IH1 in H. destruct H as [y1 [H Hk1]].
    apply IH2 in H. destruct H as [y2 [H Hk2]].
    exists y2. split; [assumption|]. simpl.
    intros [Hs|[Hx Hi]].
    + apply orb_true_iff in Hs. destruct Hs as [Hs|Hs].
      * apply andb_true_iff in Hs. destruct Hs as [Hs1 Hn].
        apply negb_true_iff in Hn. apply not_in_existsb in Hn.
        apply Hk2. right. split; [|assumption]. apply Hk1. left. assumption.
      * apply Hk2. left. assumption.
    + apply Hk2. right. split.
      * apply Hk1. right. split; [assumption|]. intros Hin. apply Hi.
        apply in_or_app. left. assumption.
      * intros Hin. apply Hi. apply in_or_app. right. assumption.
  - apply orelse_some in H. simpl.
    destruct H as [H|H]; [apply IH1 in H|apply IH2 in H];
      destruct H as [y [H Hk]]; exists y; (split; [assumption|]);
      intros [Hs|[Hx Hi]].
    + apply andb_true_iff in Hs. apply Hk. left. tauto.
    + apply Hk. right. split; [assumption|]. intros Hin. apply Hi.
      apply in_or_app. left. assumption.
    + apply andb_true_iff in Hs. apply Hk. left. tauto.
    + apply Hk. right. split; [assumption|]. intros Hin. apply Hi.
      apply in_or_app. right. assumption.
  - apply (repeat_matcher_keeps (i := i)) in H.
    + destruct H as [y [H Hk]]. exists y. split; [assumption|].
      simpl. intros [Hs|Hx]; [discriminate|]. apply Hk. assumption.
    + intros x' c' z' H'. apply IH1 in H'. destruct H' as [y [Hy Hk]].
      exists y. split; [assumption|]. intros [Hs|Hx]; [discriminate|].
      apply Hk. right. assumption.
  - apply IH1 in H. destruct H as [y [H Hk]].
    eexists. split; [eassumption|]. simpl. unfold has_cap. simpl.
    intros [Hs|[Hx Hi]].
    + destruct (Nat.eqb j i) eqn:E; [reflexivity|]. simpl in *.
      apply Hk. left. assumption.
    + destruct (Nat.eqb j i) eqn:E; [reflexivity|]. simpl.
      apply Hk. right. split; [assumption|]. tauto.
  - destruct (Nat.eqb (length (rest x)) len0); [|discriminate].
    exists x. split; [assumption|]. intros [Hs|[Hx _]]; [discriminate|assumption].
  - destruct (rest x); [|discriminate].
    exists x. split; [assumption|]. intros [Hs|[Hx _]]; [discriminate|assumption].
Qed.

Lemma has_cap_group i m :
  has_cap i (groups m) = true -> exists g, group i m = Some g.
Proof.
  unfold has_cap, group. intros H.
  destruct (find (fun kv => Nat.eqb (fst kv) i) (groups m)) as [[k v]|] eqn:E.
  - exists v. reflexivity.
  - apply existsb_exists in H. destruct H as [kv [Hin Hk]].
    apply (find_none _ _ E) in Hin. congruence.
Qed.

Lemma exec_from_sets i r len0 : sets i r = true ->
  forall s m, exec_from r len0 s = Some m -> exists g, group i m = Some g.
Proof.
  intros Hs. induction s as [|ch s IH]; intros m H; simpl in H.
  - destruct (matcher len0 r {| rest := []; caps := [] |} Some) as [y|] eqn:E;
      [|discriminate].
    apply (matcher_keeps i) in E. destruct E as [y' [Hy Hk]].
    inversion Hy; subst y'. inversion H; subst m.
    apply has_cap_group. simpl. apply Hk. left. assumption.
  - destruct (matcher len0 r {| rest := ch :: s; caps := [] |} Some) as [y|] eqn:E.
    + apply (matcher_keeps i) in E. destruct E as [y' [Hy Hk]].
      inversion Hy; subst y'. inversion H; subst m.
      apply has_cap_group. simpl. apply Hk. left. assumption.
    + apply IH. assumption.
Qed.

(** A match of a pattern that sets group [i] has a value for [m[i]]. *)
Lemma exec_sets i r s m :
  sets i r = true -> exec r s = Some m -> exists g, group i m = Some g.
Proof.
  intros Hs H. exact (exec_from_sets i r (length s) Hs s H).
Qed.

End RegexFacts.

(* ================================================================= *)
(** ** Facts about the fallback parser *)

Module FallbackFacts.
Import Regex Js Transaction Props RegexFacts.

#[local] Arguments JsString.substring0 : simpl never.

Lemma amountPatterns_set_group : Forall (fun p => sets 1 p = true) amountPatterns.
Proof.
  unfold amountPatterns. repeat constructor.
Qed.

Lemma abs_not_negative n : ltb (abs n) (Fin 0) = false.
Proof.
  destruct n as [q| | |]; simpl; try reflexivity.
  apply negb_false_iff. apply Qle_bool_iff. apply Qabs_nonneg.
Qed.

Lemma amount_loop_normal patterns text :
  Forall (fun p => sets 1 p = true) patterns ->
  exists a, amount_loop patterns text = Normal a
            /\ (a = None \/ exists n, a = Some (abs n)).
Proof.
  induction 1 as [|pattern patterns Hs _ IH]; simpl.
  - exists None. auto.
  - destruct (exec pattern text) as [m|] eqn:E; [|exact IH].
    destruct (exec_sets 1 pattern text Hs E) as [g Hg]. rewrite Hg.
    eexists. split; [reflexivity|]. right. eexists. reflexivity.
Qed.

Lemma description_loop_length lines d :
  description_loop lines = Some d -> length d <= 255.
Proof.
  induction lines as [|line lines IH]; simpl; [discriminate|].
  destruct (test numeric_line (JsString.trim line)); [exact IH|].
  intros H. inversion H. unfold JsString.substring0. apply firstn_le_length.
Qed.

Lemma category_loop_in entries lowerText cat :
  category_loop entries lowerText = Some cat -> In cat (map fst entries).
Proof.
  induction entries as [|[c ks] entries IH]; simpl; [discriminate|].
  destruct (existsb _ ks).
  - intros H. inversion H. left. reflexivity.
  - intros H. right. apply IH. exact H.
Qed.

Lemma split_piece f sep s :
  f sep = false -> existsb f s = true ->
  exists p, In p (JsString.split sep s) /\ existsb f p = true.
Proof.
  intros Hsep. induction s as [|c s IH]; simpl; [discriminate|].
  intros H. destruct (N.eqb_spec c sep) as [->|Hne].
  - rewrite Hsep in H. simpl in H. destruct (IH H) as [p [Hin Hp]].
    exists p. split; [right; assumption|assumption].
  - destruct (f c) eqn:Hc.
    + destruct (JsString.split sep s) as [|p ps]; eexists; (split; [left; reflexivity|]);
        simpl; rewrite Hc; reflexivity.
    + simpl in H. destruct (IH H) as [p [Hin Hp]].
      destruct (JsString.split sep s) as [|p0 ps]; [contradiction|].
      destruct Hin as [->|Hin].
      * exists (c :: p). split; [left; reflexivity|]. simpl. rewrite Hp.
        apply orb_true_r.
      * exists p. split; [right; assumption|assumption].
Qed.

Lemma trimStart_nonspace s :
  existsb nonspace s = true -> existsb nonspace (JsString.trimStart s) = true.
Proof.
  induction s as [|c s IH]; simpl; [auto|].
  unfold nonspace at 1. destruct (JsString.is_space c) eqn:E; simpl.
  - exact IH.
  - intros _. unfold nonspace at 1. rewrite E. reflexivity.
Qed.

Lemma existsb_rev_true (f : N -> bool) s :
  existsb f s = true -> existsb f (rev s) = true.
Proof.
  intros H. apply existsb_exists in H. destruct H as [x [Hin Hx]].
  apply existsb_exists. exists x. split; [|assumption].
  apply in_rev. rewrite rev_involutive. assumption.
Qed.

Lemma trim_nonspace s :
  existsb nonspace s = true -> 0 < length (JsString.trim s).
Proof.
  intros H. unfold JsString.trim, JsString.trimEnd.
  assert (H' : existsb nonspace
                 (rev (JsString.trimStart (rev (JsString.trimStart s)))) = true).
  { apply existsb_rev_true, trimStart_nonspace, existsb_rev_true,
      trimStart_nonspace, H. }
  destruct (rev (JsString.trimStart (rev (JsString.trimStart s)))); simpl in *;
    [discriminate|lia].
Qed.

(** A text with a unit that is not white space has a line that survives the
    filter on blank lines. *)
Lemma nonblank_lines_nonempty text :
  existsb nonspace text = true -> nonblank_lines text <> [].
Proof.
  intros H. destruct (split_piece nonspace 10 text eq_refl H) as [p [Hin Hp]].
  unfold nonblank_lines. intros Hnil.
  assert (Hf : In p (filter (fun line => Nat.ltb 0 (length (JsString.trim line)))
                            (JsString.split 10 text))).
  { apply filter_In. split; [assumption|]. apply Nat.ltb_lt. apply trim_nonspace.
    exact Hp. }
  rewrite Hnil in Hf. contradiction.
Qed.


(** What the fallback parser returns, for every text and whatever the [Date]
    constructor and [toLowerCase] do: a record, with a confidence between 0 and
    1 that is 0 exactly when all four fields are [null] and at least 0.1 when
    there is a description. *)
Lemma regex_parse_spec newDate toLowerCase text :
  exists r q,
    parseTransactionTextWithRegex newDate toLowerCase text = Normal r
    /\ confidence r = Fin q
    /\ (0 <= q <= 1)%Q
    /\ (amount r = None \/ exists n, amount r = Some (abs n))
    /\ (forall d, description r = Some d -> length d <= 255)
    /\ (nonblank_lines text <> [] -> description r <> None)
    /\ (description r <> None -> (1 # 10 <= q)%Q)
    /\ category r = match category_loop categoryKeywords (toLowerCase text) with
                    | Some cat => JStr (js cat)
                    | None => JNull
                    end
    /\ ((amount r = None /\ date r = None /\ description r = None
         /\ category r = JNull) <-> confidence r = Fin 0)
    /\ amount_loop amountPatterns text = Normal (amount r)
    /\ date r = date_loop newDate datePatterns text.
Proof.
  unfold parseTransactionTextWithRegex.
  destruct (amount_loop_normal text amountPatterns_set_group) as [a [Ha Habs]].
  rewrite Ha. clear Ha.
  generalize (date_loop newDate datePatterns text). intros dt.
  generalize (description_loop_length (nonblank_lines text)).
  generalize (description_loop (nonblank_lines text)). intros dl Hlen.
  generalize (category_loop categoryKeywords (toLowerCase text)). intros ct.
  generalize (nonblank_lines text). intros lines.
  assert (Hfirst : forall l : jsstring, length (JsString.substring0 255 l) <= 255)
    by (intros l; apply firstn_le_length).
  destruct a as [n|], dt as [z|], dl as [[|c d0]|], lines as [|line0 lines],
           ct as [cat|];
    cbn [bind no_description Nat.ltb Nat.leb];
    eexists; eexists; (split; [reflexivity|]);
    cbn [confidence amount date description category];
    (split; [vm_compute; reflexivity|]);
    (split; [closed_rational_goal|]);
    (split; [exact Habs|]);
    (split; [intros d Hd; first [discriminate Hd
                                | inversion Hd; subst; first [apply Hfirst | apply Hlen; reflexivity]]|]);
    (split; [intros Hl; first [congruence | discriminate]|]);
    (split; [intros Hd; first [closed_rational_goal | exfalso; apply Hd; reflexivity]|]);
    (split; [reflexivity|]);
    (split; [split; [intros [H1 [H2 [H3 H4]]]; first [discriminate | reflexivity]
                    | intros Hq; first [vm_compute in Hq; discriminate Hq | auto]]|]);
    (split; reflexivity).
Qed.

End FallbackFacts.

(* ================================================================= *)
(** ** Facts about the adapter *)

Module AdapterFacts.
Import Regex Js Transaction Props.

#[local] Arguments JsString.substring0 : simpl never.

Lemma in_unit_interval n :
  leb (Fin 0) n && leb n (Fin 1) = true -> exists q, n = Fin q /\ (0 <= q <= 1)%Q.
Proof.
  destruct n as [q| | |]; simpl; try discriminate.
  intros H. apply andb_true_iff in H. destruct H as [H0 H1].
  exists q. split; [reflexivity|]. split; apply Qle_bool_iff; assumption.
Qed.

Lemma confidence_or_default n :
  exists q, (if leb (Fin 0) n && leb n (Fin 1) then n else Fin (1 # 2)) = Fin q
            /\ (0 <= q <= 1)%Q.
Proof.
  destruct (leb (Fin 0) n && leb n (Fin 1)) eqn:E.
  - apply in_unit_interval. exact E.
  - exists (1 # 2)%Q. split; [reflexivity|closed_rational_goal].
Qed.

(** What validation lets through. *)
Lemma sanitize_spec extracted r :
  sanitize extracted = Normal r ->
  (exists q, ex_confidence r = Fin q /\ (0 <= q <= 1)%Q)
  /\ (forall d, ex_description r = Some d -> length d <= 255)
  /\ (ex_amount r = None \/ exists n, ex_amount r = Some (abs n)).
Proof.
  unfold sanitize.
  destruct (get (Some extracted) (js "amount")) as [a|]; [|discriminate].
  cbn [bind]; cbv zeta.
  destruct (get (Some extracted) (js "date")) as [d|]; [|discriminate].
  cbn [bind].
  destruct (get (Some extracted) (js "description")) as [desc|]; [|discriminate].
  destruct (get (Some extracted) (js "category")) as [cat|];
    [|cbn [bind]; destruct desc as [v|]; [destruct (truthy v); [destruct v|]|];
      discriminate].
  destruct (get (Some extracted) (js "confidence")) as [conf|];
    [|cbn [bind]; destruct desc as [v|]; [destruct (truthy v); [destruct v|]|];
      discriminate].
  destruct (get (Some extracted) (js "reasoning")) as [reasoning|];
    [|cbn [bind]; destruct desc as [v|]; [destruct (truthy v); [destruct v|]|];
      discriminate].
  cbn [bind].
  set (description :=
         match desc with
         | Some v =>
           if truthy v
           then match v with
                | JStr s => Normal (Some (JsString.substring0 255 s))
                | _ => Throw TypeError
                end
           else Normal None
         | None => Normal None
         end).
  assert (Hdesc : forall o, description = Normal o ->
                            forall d0, o = Some d0 -> length d0 <= 255).
  { unfold description. intros o Ho d0 ->.
    destruct desc as [v|]; [|discriminate].
    destruct (truthy v); [|discriminate].
    destruct v; try discriminate. inversion Ho. apply firstn_le_length. }
  destruct description as [o|e]; [|discriminate]. cbn [bind].
  intros H. inversion H; subst r; clear H. cbn [ex_confidence ex_description ex_amount].
  split; [|split].
  - destruct conf as [[| |n| | |]|]; try (exists (1 # 2)%Q; split; [reflexivity|closed_rational_goal]).
    apply confidence_or_default.
  - intros d0 Hd. exact (Hdesc o eq_refl d0 Hd).
  - destruct a as [[| |n| | |]|]; auto.
    destruct (negb (isNaN n)); [right; exists n; reflexivity|left; reflexivity].
Qed.

Lemma extraction_validated JSON_parse client_send text r :
  extraction JSON_parse client_send text = Normal r ->
  exists extracted, sanitize extracted = Normal r.
Proof.
  unfold extraction.
  destruct (client_send text) as [e|e|b]; cbn [bind]; try discriminate.
  destruct (response_text b) as [t|e]; cbn [bind]; [|discriminate].
  destruct (extract_json JSON_parse t) as [j|e]; cbn [bind]; [|discriminate].
  intros H. exists j. exact H.
Qed.

(** The adapter returns, and what it returns is within the bounds. *)
Lemma adapter_spec JSON_parse client_send text :
  exists r,
    extractTransactionWithBedrock JSON_parse client_send text = Normal r
    /\ (exists q, ex_confidence r = Fin q /\ (0 <= q <= 1)%Q)
    /\ (forall d, ex_description r = Some d -> length d <= 255)
    /\ (ex_amount r = None \/ exists n, ex_amount r = Some (abs n)).
Proof.
  unfold extractTransactionWithBedrock, try_catch.
  destruct (extraction JSON_parse client_send text) as [r|e] eqn:E.
  - exists r. split; [reflexivity|].
    destruct (extraction_validated _ _ _ E) as [extracted Hs].
    exact (sanitize_spec _ Hs).
  - eexists. split; [reflexivity|]. cbn [degraded ex_confidence ex_description ex_amount].
    split; [exists 0%Q; split; [reflexivity|closed_rational_goal]|].
    split; [discriminate|left; reflexivity].
Qed.

Lemma adapter_failure_throws JSON_parse client_send text e :
  adapter_failure JSON_parse client_send text e ->
  extraction JSON_parse client_send text = Throw e.
Proof.
  unfold extraction.
  intros [e' H|e' H|b e' H Ht|b t e' H Ht Hj|b t j e' H Ht Hj Hv]; rewrite H; cbn [bind];
    try reflexivity; rewrite Ht; cbn [bind]; try reflexivity;
    rewrite Hj; cbn [bind]; try reflexivity; exact Hv.
Qed.

End AdapterFacts.

(* ================================================================= *)
(** ** Facts about the store *)

Module StoreFacts.
Import Js Store StoreProps.

Lemma eqb_refl (a : jsstring) : JsString.eqb a a = true.
Proof.
  unfold JsString.eqb. destruct (list_eq_dec N.eq_dec a a); congruence.
Qed.

Lemma eqb_eq (a b : jsstring) : JsString.eqb a b = true <-> a = b.
Proof.
  unfold JsString.eqb. destruct (list_eq_dec N.eq_dec a b); split; congruence.
Qed.

Lemma eqb_neq (a b : jsstring) : a <> b -> JsString.eqb a b = false.
Proof.
  unfold JsString.eqb. destruct (list_eq_dec N.eq_dec a b); congruence.
Qed.

Lemma insert_desc_perm x l : Permutation (x :: l) (insert_desc x l).
Proof.
  induction l as [|y l IH]; simpl; [reflexivity|].
  destruct (createdAt y <=? createdAt x)%Z; [reflexivity|].
  rewrite perm_swap. apply perm_skip. exact IH.
Qed.

Lemma orderBy_perm l : Permutation l (orderBy_createdAt_desc l).
Proof.
  induction l as [|x l IH]; simpl; [reflexivity|].
  rewrite <- insert_desc_perm. apply perm_skip. exact IH.
Qed.

Lemma insert_desc_sorted x l :
  StronglySorted newer_or_equal l -> StronglySorted newer_or_equal (insert_desc x l).
Proof.
  induction 1 as [|y l Hs IH Hy]; simpl.
  - constructor; constructor.
  - destruct (createdAt y <=? createdAt x)%Z eqn:E.
    + apply Z.leb_le in E. constructor; [constructor; assumption|].
      constructor; [exact E|].
      eapply Forall_impl; [|exact Hy]. unfold newer_or_equal. intros z Hz. lia.
    + apply Z.leb_gt in E. constructor; [exact IH|].
      eapply Permutation_Forall; [apply insert_desc_perm|].
      constructor; [unfold newer_or_equal; lia|exact Hy].
Qed.

(** The ordered rows are newest first. *)
Lemma orderBy_sorted l : StronglySorted newer_or_equal (orderBy_createdAt_desc l).
Proof.
  induction l as [|x l IH]; simpl; [constructor|].
  apply insert_desc_sorted. exact IH.
Qed.

Lemma insert_desc_created_at k x l :
  created_at k (insert_desc x l) = created_at k (x :: l).
Proof.
  unfold created_at. induction l as [|y l IH]; simpl; [reflexivity|].
  destruct (createdAt y <=? createdAt x)%Z eqn:E; [reflexivity|].
  apply Z.leb_gt in E. simpl in *. rewrite IH.
  destruct (createdAt x =? k)%Z eqn:Ex, (createdAt y =? k)%Z eqn:Ey; try reflexivity.
  apply Z.eqb_eq in Ex, Ey. lia.
Qed.

(** Ordering keeps rows of equal [createdAt] in the order of the table. *)
Lemma orderBy_stable k l :
  created_at k (orderBy_createdAt_desc l) = created_at k l.
Proof.
  induction l as [|x l IH]; simpl; [reflexivity|].
  rewrite insert_desc_created_at. unfold created_at in *. simpl. rewrite IH.
  reflexivity.
Qed.

Lemma sorted_app_inv (R : Transaction -> Transaction -> Prop) l1 l2 :
  StronglySorted R (l1 ++ l2) -> StronglySorted R l1 /\ StronglySorted R l2.
Proof.
  induction l1 as [|x l1 IH]; simpl; intros H.
  - split; [constructor|exact H].
  - inversion H as [|? ? Hs Hf]; subst. destruct (IH Hs) as [H1 H2].
    split; [|exact H2]. constructor; [exact H1|].
    apply Forall_app in Hf. tauto.
Qed.

Lemma from_cursor_suffix c l : exists pre, l = pre ++ from_cursor c l.
Proof.
  induction l as [|x l [pre IH]]; simpl.
  - exists []. reflexivity.
  - destruct (JsString.eqb (id x) c).
    + exists []. reflexivity.
    + exists (x :: pre). simpl. rewrite <- IH. reflexivity.
Qed.

(** Positioning at a cursor that names a row: what follows the row's first
    occurrence, the row itself first. *)
Lemma from_cursor_at c pre x post :
  id x = c -> ~ In c (map id pre) ->
  from_cursor c (pre ++ x :: post) = x :: post.
Proof.
  intros Hx. induction pre as [|y pre IH]; simpl; intros Hn.
  - rewrite Hx, eqb_refl. reflexivity.
  - rewrite eqb_neq by tauto. apply IH. tauto.
Qed.

(** What [findMany] returns is a run of consecutive ordered rows. *)
Lemma findMany_segment db org take cursor skip :
  exists pre post,
    ordered_rows db org = pre ++ findMany db org take cursor skip ++ post.
Proof.
  unfold findMany. fold (ordered_rows db org).
  set (positioned := match cursor with
                     | Some c => from_cursor c (ordered_rows db org)
                     | None => ordered_rows db org
                     end).
  assert (Hp : exists pre, ordered_rows db org = pre ++ positioned).
  { unfold positioned. destruct cursor as [c|]; [apply from_cursor_suffix|].
    exists []. reflexivity. }
  destruct Hp as [pre Hp].
  exists (pre ++ firstn skip positioned), (skipn take (skipn skip positioned)).
  rewrite Hp at 1. rewrite <- app_assoc. f_equal.
  rewrite firstn_skipn. rewrite firstn_skipn. reflexivity.
Qed.

Lemma removelast_segment (l : list Transaction) :
  exists post, l = removelast l ++ post.
Proof.
  destruct l as [|x l] using rev_ind.
  - exists []. reflexivity.
  - exists [x]. rewrite removelast_last. reflexivity.
Qed.

(** The second half of [getTransactions], on the rows fetched. *)
Lemma page_from_fetched lim (fetched : list Transaction) :
  1 <= lim ->
  exists p post,
    (let hasMore := Nat.ltb lim (length fetched) in
     let items := if hasMore then removelast fetched else fetched in
     if hasMore then
       match rev items with
       | t :: _ =>
         Normal {| items := items; nextCursor := Some (id t); hasMore := true |}
       | [] => Throw TypeError
       end
     else Normal {| items := items; nextCursor := None; hasMore := false |})
    = Normal p
    /\ fetched = items p ++ post
    /\ (length fetched <= lim + 1 -> page_of lim fetched p).
Proof.
  intros Hl. cbv zeta. unfold page_of.
  destruct (Nat.ltb lim (length fetched)) eqn:Hlt.
  - apply Nat.ltb_lt in Hlt.
    destruct (removelast_segment fetched) as [post Hrl].
    destruct (rev (removelast fetched)) as [|t r] eqn:Er.
    + exfalso. apply (f_equal (@length _)) in Er. rewrite length_rev in Er.
      rewrite removelast_firstn_len, length_firstn in Er. simpl in Er. lia.
    + eexists. exists post. split; [reflexivity|]. simpl.
      split; [exact Hrl|]. intros Hle.
      assert (E : Nat.eqb (length fetched) (lim + 1) = true)
        by (apply Nat.eqb_eq; lia).
      rewrite E. split; [reflexivity|]. split.
      * rewrite removelast_firstn_len. f_equal. apply Nat.eqb_eq in E. lia.
      * exists (rev r), t. split; [|reflexivity].
        rewrite <- (rev_involutive (removelast fetched)), Er. reflexivity.
  - apply Nat.ltb_ge in Hlt. eexists. exists []. split; [reflexivity|]. simpl.
    split; [rewrite app_nil_r; reflexivity|]. intros _.
    assert (E : Nat.eqb (length fetched) (lim + 1) = false)
      by (apply Nat.eqb_neq; lia).
    rewrite E. auto.
Qed.

(** The page rule of [getTransactions], for a limit of at least one and a
    cursor that is absent or not empty. *)
Lemma getTransactions_page db org limit cursor :
  1 <= limit -> cursor <> Some [] ->
  exists p,
    getTransactions db org (Some limit) cursor = Normal p
    /\ page_of limit
               (findMany db org (limit + 1) cursor
                         (match cursor with Some _ => 1 | None => 0 end)) p.
Proof.
  intros Hl Hc. unfold getTransactions.
  destruct limit as [|n]; [lia|].
  destruct cursor as [[|c s]|]; [congruence| |]; cbv beta iota zeta.
  - destruct (page_from_fetched (findMany db org (S n + 1) (Some (c :: s)) 1) Hl)
      as [p [post [H1 [_ H3]]]].
    exists p. split; [exact H1|]. apply H3. apply firstn_le_length.
  - destruct (page_from_fetched (findMany db org (S n + 1) None 0) Hl)
      as [p [post [H1 [_ H3]]]].
    exists p. split; [exact H1|]. apply H3. apply firstn_le_length.
Qed.

(** [getTransactions] returns for every limit and cursor, and its page is a run
    of consecutive ordered rows. *)
Lemma getTransactions_segment db org limit cursor :
  exists p pre post,
    getTransactions db org limit cursor = Normal p
    /\ ordered_rows db org = pre ++ items p ++ post.
Proof.
  assert (H : forall lim cur, 1 <= lim ->
             exists p pre post,
               (let transactions :=
                  findMany db org (lim + 1) cur
                           (match cur with Some _ => 1 | None => 0 end) in
                let hasMore := Nat.ltb lim (length transactions) in
                let items := if hasMore then removelast transactions else transactions in
                if hasMore then
                  match rev items with
                  | t :: _ =>
                    Normal {| items := items; nextCursor := Some (id t);
                              hasMore := true |}
                  | [] => Throw TypeError
                  end
                else Normal {| items := items; nextCursor := None; hasMore := false |})
               = Normal p
               /\ ordered_rows db org = pre ++ items p ++ post).
  { intros lim cur Hlim. cbv zeta.
    destruct (findMany_segment db org (lim + 1) cur
                               (match cur with Some _ => 1 | None => 0 end))
      as [pre [post Hseg]].
    destruct (page_from_fetched
                (findMany db org (lim + 1) cur
                          (match cur with Some _ => 1 | None => 0 end))
                Hlim) as [p [post' [H1 [H2 _]]]].
    exists p, pre, (post' ++ post). split; [exact H1|].
    rewrite Hseg. rewrite H2 at 1. rewrite <- app_assoc. reflexivity. }
  unfold getTransactions.
  destruct limit as [[|n]|], cursor as [[|c s]|]; cbv beta iota zeta;
    apply H; lia.
Qed.

Lemma ordered_rows_in db org t :
  In t (ordered_rows db org) <-> In t db /\ organizationId t = org.
Proof.
  unfold ordered_rows. split.
  - intros H. apply (Permutation_in _ (Permutation_sym (orderBy_perm _))) in H.
    apply filter_In in H. destruct H as [H1 H2]. apply eqb_eq in H2. tauto.
  - intros [H1 H2]. apply (Permutation_in _ (orderBy_perm _)).
    apply filter_In. split; [assumption|]. apply eqb_eq. assumption.
Qed.

Lemma NoDup_map_filter (f : Transaction -> bool) l :
  NoDup (map id l) -> NoDup (map id (filter f l)).
Proof.
  induction l as [|x l IH]; simpl; intros H; [constructor|].
  inversion H as [|? ? Hn Hd]; subst.
  destruct (f x); simpl; [|apply IH; assumption].
  constructor; [|apply IH; assumption].
  intros Hin. apply Hn. apply in_map_iff in Hin. destruct Hin as [y [Hy Hin]].
  apply filter_In in Hin. apply in_map_iff. exists y. tauto.
Qed.

Lemma ordered_rows_NoDup db org :
  NoDup (map id db) -> NoDup (map id (ordered_rows db org)).
Proof.
  intros H. unfold ordered_rows.
  eapply Permutation_NoDup; [apply Permutation_map, orderBy_perm|].
  apply NoDup_map_filter. exact H.
Qed.

Lemma findMany_no_cursor db org n :
  findMany db org n None 0 = firstn n (ordered_rows db org).
Proof. reflexivity. Qed.

Lemma findMany_after_cursor db org n c pre x post :
  ordered_rows db org = pre ++ x :: post ->
  id x = c -> ~ In c (map id pre) ->
  findMany db org n (Some c) 1 = firstn n post.
Proof.
  intros H Hx Hn. unfold findMany. fold (ordered_rows db org).
  rewrite H, (@from_cursor_at c pre x post Hx Hn). reflexivity.
Qed.

Lemma NoDup_map_id_eq (l : list Transaction) x y :
  NoDup (map id l) -> In x l -> In y l -> id x = id y -> x = y.
Proof.
  induction l as [|z l IH]; simpl; intros Hd Hx Hy E; [contradiction|].
  inversion Hd as [|? ? Hn Hd']; subst.
  destruct Hx as [->|Hx], Hy as [->|Hy]; auto.
  - exfalso. apply Hn. rewrite E. apply in_map. assumption.
  - exfalso. apply Hn. rewrite <- E. apply in_map. assumption.
Qed.

Lemma find_all_false (f : Transaction -> bool) l :
  (forall x, In x l -> f x = false) -> find f l = None.
Proof.
  induction l as [|x l IH]; simpl; intros H; [reflexivity|].
  rewrite (H x) by (left; reflexivity). apply IH. intros y Hy. apply H. right.
  assumption.
Qed.

End StoreFacts.

(* ================================================================= *)
(** ** The extraction pipeline: confidence, failures and categories *)

Import Regex Js Transaction Props RegexFacts FallbackFacts AdapterFacts.

(** C1.  For every input text, every environment and every behaviour of the
    model service, [parseTransactionText] returns a record whose confidence is
    a number between 0 and 1: on the AI path the validated or defaulted value
    of the adapter, on the fallback path the clamped sum of weights or 0. *)
Theorem C1_confidence_within_bounds
        env JSON_parse client_send newDate toLowerCase text :
  exists r q,
    parseTransactionText env JSON_parse client_send newDate toLowerCase text
    = Normal r
    /\ confidence r = Fin q /\ (0 <= q <= 1)%Q.
Proof.
  unfold parseTransactionText.
  destruct (isBedrockConfigured env).
  - destruct (adapter_spec JSON_parse client_send text)
      as [ex [He [[q [Hq Hb]] _]]].
    rewrite He. cbn [bind try_catch].
    eexists. exists q. split; [reflexivity|]. split; [exact Hq|exact Hb].
  - destruct (regex_parse_spec newDate toLowerCase text)
      as [r [q [H1 [H2 [H3 _]]]]].
    exists r, q. auto.
Qed.

(** C2.  For every input text and every behaviour of the service, the adapter
    returns a result and throws nothing; when the body of its [try] block
    throws (the invocation, the decoding of the response, the extraction of
    JSON or the validation) the result has [amount], [date], [description] and
    [category] null, confidence 0, and a reasoning that starts with
    "Extraction failed: " followed by the error's message. *)
Theorem C2_adapter_never_throws JSON_parse client_send text :
  (exists r, extractTransactionWithBedrock JSON_parse client_send text = Normal r)
  /\ forall e,
      adapter_failure JSON_parse client_send text e ->
      exists r,
        extractTransactionWithBedrock JSON_parse client_send text = Normal r
        /\ ex_amount r = None /\ ex_date r = JNull
        /\ ex_description r = None /\ ex_category r = JNull
        /\ ex_confidence r = Fin 0
        /\ ex_reasoning r
           = Some (JStr (js "Extraction failed: " ++
                         match e with
                         | ErrorObject message => message
                         | Thrown _ => js "Unknown error"
                         end)).
Proof.
  split.
  - destruct (adapter_spec JSON_parse client_send text) as [r [Hr _]].
    exists r. exact Hr.
  - intros e He. apply adapter_failure_throws in He.
    unfold extractTransactionWithBedrock. rewrite He. cbn [try_catch].
    eexists. split; [reflexivity|]. cbn. repeat split; reflexivity.
Qed.

Lemma C2_witness :
  exists r,
    extractTransactionWithBedrock (fun _ => None) failing_service zzz_text = Normal r
    /\ ex_amount r = None /\ ex_date r = JNull
    /\ ex_description r = None /\ ex_category r = JNull
    /\ ex_confidence r = Fin 0
    /\ ex_reasoning r = Some (JStr (js "Extraction failed: socket hang up")).
Proof.
  destruct (C2_adapter_never_throws (fun _ => None) failing_service zzz_text)
    as [_ H].
  apply (H (ErrorObject (js "socket hang up"))).
  apply invocation_throws. reflexivity.
Defined.

(** C3, as the claim states it, fails: with the service configured and the
    model answering [{"category":"Groceries","confidence":0.9}], the category
    of the result is "Groceries", which is not in the enumeration. *)
Lemma C3_counterexample :
  exists r,
    parseTransactionText env_configured
      (Reference.JSON_parse [(groceries_reply, groceries_object)])
      groceries_service Reference.newDate Reference.toLowerCase zzz_text
    = Normal r
    /\ category r = JStr (js "Groceries")
    /\ ~ category_closed (category r).
Proof.
  eexists. split; [vm_compute; reflexivity|]. split; [reflexivity|].
  cbn [category]. intros [H|[name [Hin H]]]; [discriminate|].
  simpl in Hin.
  repeat (destruct Hin as [<-|Hin]; [vm_compute in H; discriminate|]).
  contradiction.
Qed.

(** C3, amended.  For every input text the record [parseTransactionText]
    returns has a confidence between 0 and 1, a description of at most 255
    units and an amount that is not negative, on either path; when the service
    is not configured, so that the fallback parser produced the record, a
    category that is not null is one of the names of the enumeration. *)
Theorem C3_invariants_and_fallback_category
        env JSON_parse client_send newDate toLowerCase text :
  exists r q,
    parseTransactionText env JSON_parse client_send newDate toLowerCase text
    = Normal r
    /\ confidence r = Fin q /\ (0 <= q <= 1)%Q
    /\ (forall d, description r = Some d -> length d <= 255)
    /\ (forall a, amount r = Some a -> ltb a (Fin 0) = false)
    /\ (isBedrockConfigured env = false -> category_closed (category r)).
Proof.
  unfold parseTransactionText.
  destruct (isBedrockConfigured env).
  - destruct (adapter_spec JSON_parse client_send text)
      as [ex [He [[q [Hq Hb]] [Hd Ha]]]].
    rewrite He. cbn [bind try_catch].
    eexists. exists q. split; [reflexivity|].
    cbn [confidence description amount category].
    repeat split; try assumption; try apply Hb.
    + intros a Hex. destruct Ha as [Ha|[n Ha]]; rewrite Ha in Hex;
        [discriminate|]. inversion Hex. apply abs_not_negative.
    + discriminate.
  - destruct (regex_parse_spec newDate toLowerCase text)
      as [r [q [H1 [H2 [H3 [Ha [Hd [_ [_ [Hc _]]]]]]]]]].
    exists r, q. repeat split; try assumption; try apply H3.
    + intros a Hex. destruct Ha as [Ha|[n Ha]]; rewrite Ha in Hex;
        [discriminate|]. inversion Hex. apply abs_not_negative.
    + intros _. rewrite Hc.
      destruct (category_loop categoryKeywords (toLowerCase text)) as [cat|] eqn:E;
        [|left; reflexivity].
      right. exists cat. split; [|reflexivity].
      apply category_loop_in in E. simpl in E.
      repeat (destruct E as [<-|E]; [simpl; tauto|]). contradiction.
Qed.

Lemma C3_witness :
  exists r,
    parseTransactionText env_unconfigured (fun _ => None) failing_service
                         Reference.newDate Reference.toLowerCase amazon_text
    = Normal r
    /\ category_closed (category r).
Proof.
  destruct (C3_invariants_and_fallback_category
              env_unconfigured (fun _ => None) failing_service
              Reference.newDate Reference.toLowerCase amazon_text)
    as [r [q [H [_ [_ [_ [_ Hc]]]]]]].
  exists r. split; [exact H|]. apply Hc. reflexivity.
Defined.

(** C4, as the claim states it, fails on its own example: the one line of
    "zzz qqq" is taken as the description, so the confidence is 0.2 although
    no amount, date or category is found. *)
Lemma C4_counterexample :
  exists r,
    parseTransactionTextWithRegex Reference.newDate Reference.toLowerCase zzz_text
    = Normal r
    /\ amount r = None /\ date r = None /\ category r = JNull
    /\ description r = Some zzz_text
    /\ confidence r = Fin (1 # 5)
    /\ confidence r <> Fin 0.
Proof.
  eexists. split; [vm_compute; reflexivity|].
  cbn [amount date category description confidence].
  repeat split; try reflexivity. discriminate.
Qed.

(** C4, amended.  For every input text on which the four extractors leave
    amount, date, description and category all null, the fallback parser
    returns confidence exactly 0. *)
Theorem C4_nothing_recognized_gives_zero newDate toLowerCase text :
  exists r,
    parseTransactionTextWithRegex newDate toLowerCase text = Normal r
    /\ (amount r = None /\ date r = None /\ description r = None
        /\ category r = JNull ->
        confidence r = Fin 0).
Proof.
  destruct (regex_parse_spec newDate toLowerCase text)
    as [r [q [H1 [_ [_ [_ [_ [_ [_ [_ [Hz _]]]]]]]]]]].
  exists r. split; [exact H1|]. apply Hz.
Qed.

Lemma C4_witness :
  exists r,
    parseTransactionTextWithRegex Reference.newDate Reference.toLowerCase (js "  ")
    = Normal r
    /\ confidence r = Fin 0.
Proof.
  destruct (C4_nothing_recognized_gives_zero
              Reference.newDate Reference.toLowerCase (js "  ")) as [r [H Hz]].
  exists r. split; [exact H|].
  apply Hz. vm_compute in H. inversion H. repeat split; reflexivity.
Defined.

(** On the Starbucks example the only date pattern that matches is the
    day-first one, which hands "2024-15-12" to [Date]. *)
Lemma starbucks_date_loop newDate :
  newDate (JStr (js "2024-15-12")) = None ->
  date_loop newDate datePatterns starbucks_text = None.
Proof.
  intros H. vm_compute in H. vm_compute. rewrite H. reflexivity.
Qed.

(** C5, as the claim states it, fails: on "Starbucks Coffee 12/15/2024 ₹420.00"
    the fallback parser returns no date and confidence 0.7, and the amount it
    stores is not 420. *)
Lemma C5_counterexample :
  exists r,
    parseTransactionTextWithRegex Reference.newDate Reference.toLowerCase
                                  starbucks_text
    = Normal r
    /\ amount r = Some (Fin 42)
    /\ date r = None
    /\ confidence r = Fin (7 # 10)
    /\ ltb (Fin (8 # 10)) (confidence r) = false.
Proof.
  eexists. split; [vm_compute; reflexivity|].
  cbn [amount date confidence]. repeat split; reflexivity.
Qed.

(** C5, amended.  On "Starbucks Coffee 12/15/2024 ₹420.00", with a [Date] that
    rejects month 15 and the usual lower-casing of the text, the fallback
    parser reads 12/15/2024 day first and returns no date; it returns an
    amount, the whole line as description (which contains "Starbucks Coffee"),
    the category "Food & Dining" and confidence 0.7. *)
Theorem C5_starbucks_example newDate toLowerCase :
  newDate (JStr (js "2024-15-12")) = None ->
  toLowerCase starbucks_text = js "starbucks coffee 12/15/2024 ₹420.00" ->
  exists r a,
    parseTransactionTextWithRegex newDate toLowerCase starbucks_text = Normal r
    /\ amount r = Some a
    /\ date r = None
    /\ description r = Some starbucks_text
    /\ JsString.includes starbucks_text (js "Starbucks Coffee") = true
    /\ category r = JStr (js "Food & Dining")
    /\ confidence r = Fin (7 # 10).
Proof.
  intros Hd Hl. unfold parseTransactionTextWithRegex.
  rewrite Hl, (starbucks_date_loop newDate Hd).
  eexists. eexists. split; [vm_compute; reflexivity|].
  cbn [amount date description category confidence].
  repeat split; vm_compute; reflexivity.
Qed.

Lemma C5_witness :
  exists r a,
    parseTransactionTextWithRegex Reference.newDate Reference.toLowerCase
                                  starbucks_text
    = Normal r
    /\ amount r = Some a
    /\ date r = None
    /\ description r = Some starbucks_text
    /\ JsString.includes starbucks_text (js "Starbucks Coffee") = true
    /\ category r = JStr (js "Food & Dining")
    /\ confidence r = Fin (7 # 10).
Proof.
  apply (C5_starbucks_example Reference.newDate Reference.toLowerCase);
    vm_compute; reflexivity.
Defined.

(** C6: what the code does on the claim's input.  On "Amazon Purchase Rs.
    1,500.50 dated 15-12-2024" the first amount pattern matches ". 1,50" and
    the stored amount is 150, whatever [Date] and [toLowerCase] do. *)
Theorem C6_amazon_amount_is_150 newDate toLowerCase :
  exists r,
    parseTransactionTextWithRegex newDate toLowerCase amazon_text = Normal r
    /\ amount r = Some (Fin 150)
    /\ option_map matched (exec (hd Empty amountPatterns) amazon_text)
       = Some (js ". 1,50").
Proof.
  destruct (regex_parse_spec newDate toLowerCase amazon_text)
    as [r [q [H1 [_ [_ [_ [_ [_ [_ [_ [_ [Ha _]]]]]]]]]]]].
  exists r. split; [exact H1|].
  split; [|vm_compute; reflexivity].
  assert (E : amount_loop amountPatterns amazon_text = Normal (Some (Fin 150)))
    by (vm_compute; reflexivity).
  rewrite E in Ha. inversion Ha. reflexivity.
Qed.

(* ================================================================= *)
(** ** The store: pagination, isolation and ordering *)

Import StoreProps StoreFacts.

(** C7.  [getTransactions] fetches [limit + 1] rows: the first ordered rows of
    the organization, or, with a cursor, the rows strictly after the cursor
    row.  If [limit + 1] rows come back then [hasMore] is true, the page is
    the first [limit] of them and [nextCursor] is the identifier of the last
    row of the page; otherwise [hasMore] is false and [nextCursor] is null.
    For an organization with five transactions and a limit of 2, three
    fetches that follow the returned cursors give pages of 2, 2 and 1 rows
    with [hasMore] true, true, false, and the pages put end to end are all
    the rows of the organization, newest first and without repetition. *)
Theorem C7_cursor_pagination db org :
  (forall limit cursor,
      1 <= limit -> cursor <> Some [] ->
      exists p,
        Store.getTransactions db org (Some limit) cursor = Normal p
        /\ page_of limit
                   (Store.findMany db org (limit + 1) cursor
                                   (match cursor with Some _ => 1 | None => 0 end))
                   p)
  /\ (forall n, Store.findMany db org n None 0 = firstn n (ordered_rows db org))
  /\ (forall n c pre x post,
         ordered_rows db org = pre ++ x :: post ->
         Store.id x = c -> ~ In c (map Store.id pre) ->
         Store.findMany db org n (Some c) 1 = firstn n post)
  /\ (NoDup (map Store.id db) ->
      (forall t, In t db -> Store.id t <> []) ->
      length (ordered_rows db org) = 5 ->
      exists p1 p2 p3,
        Store.getTransactions db org (Some 2) None = Normal p1
        /\ Store.getTransactions db org (Some 2) (Store.nextCursor p1) = Normal p2
        /\ Store.getTransactions db org (Some 2) (Store.nextCursor p2) = Normal p3
        /\ length (Store.items p1) = 2
        /\ length (Store.items p2) = 2
        /\ length (Store.items p3) = 1
        /\ Store.hasMore p1 = true
        /\ Store.hasMore p2 = true
        /\ Store.hasMore p3 = false
        /\ Store.nextCursor p3 = None
        /\ Store.items p1 ++ Store.items p2 ++ Store.items p3 = ordered_rows db org
        /\ StronglySorted newer_or_equal (ordered_rows db org)
        /\ NoDup (map Store.id (ordered_rows db org))
        /\ (forall t, In t (ordered_rows db org)
                      <-> In t db /\ Store.organizationId t = org)).
Proof.
  split; [intros limit cursor; apply getTransactions_page|].
  split; [intros n; apply findMany_no_cursor|].
  split; [intros n c pre x post; apply findMany_after_cursor|].
  intros Hd Hid Hlen.
  pose proof (@ordered_rows_NoDup db org Hd) as Hnd.
  pose proof (ordered_rows_in db org) as Hin.
  pose proof (orderBy_sorted
                (filter (fun t => JsString.eqb (Store.organizationId t) org) db))
    as Hsorted.
  fold (ordered_rows db org) in Hsorted.
  destruct (ordered_rows db org) as [|a [|b [|c [|d [|e [|f l]]]]]] eqn:EL;
    try discriminate Hlen. clear Hlen.
  assert (Hb : Store.id b <> []) by (apply Hid, Hin; simpl; tauto).
  assert (Hdd : Store.id d <> []) by (apply Hid, Hin; simpl; tauto).
  simpl in Hnd.
  inversion Hnd as [|? ? Na Hnd1]; subst.
  inversion Hnd1 as [|? ? Nb Hnd2]; subst.
  inversion Hnd2 as [|? ? Nc Hnd3]; subst.
  simpl in Na, Nb, Nc.
  (* first page *)
  destruct (@getTransactions_page db org 2 None)
    as [p1 [G1 P1]]; [lia|discriminate|].
  rewrite findMany_no_cursor, EL in P1. unfold page_of in P1. simpl in P1.
  destruct P1 as [M1 [I1 [front1 [t1 [F1 C1]]]]].
  rewrite I1 in F1. change [a; b] with ([a] ++ [b]) in F1.
  apply app_inj_tail in F1. destruct F1 as [_ <-].
  (* second page *)
  destruct (@getTransactions_page db org 2 (Some (Store.id b)))
    as [p2 [G2 P2]]; [lia|congruence|].
  rewrite (@findMany_after_cursor db org (2 + 1) (Store.id b) [a] b [c; d; e])
    in P2; [|exact EL|reflexivity|simpl; intuition congruence].
  unfold page_of in P2. simpl in P2.
  destruct P2 as [M2 [I2 [front2 [t2 [F2 C2]]]]].
  rewrite I2 in F2. change [c; d] with ([c] ++ [d]) in F2.
  apply app_inj_tail in F2. destruct F2 as [_ <-].
  (* third page *)
  destruct (@getTransactions_page db org 2 (Some (Store.id d)))
    as [p3 [G3 P3]]; [lia|congruence|].
  rewrite (@findMany_after_cursor db org (2 + 1) (Store.id d) [a; b; c] d [e])
    in P3; [|exact EL|reflexivity|simpl; intuition congruence].
  unfold page_of in P3. simpl in P3.
  destruct P3 as [M3 [I3 C3]].
  exists p1, p2, p3. rewrite C1, C2, I1, I2, I3.
  repeat split; try assumption; try reflexivity; apply Hin; assumption.
Qed.

Lemma five_rows_unique : NoDup (map Store.id five_rows).
Proof.
  repeat constructor; simpl; intuition discriminate.
Qed.

Lemma five_rows_named t : In t five_rows -> Store.id t <> [].
Proof.
  simpl. intros H.
  repeat (destruct H as [<-|H]; [discriminate|]). contradiction.
Qed.

Lemma C7_witness :
  exists p1 p2 p3,
    Store.getTransactions five_rows (js "orgA") (Some 2) None = Normal p1
    /\ Store.getTransactions five_rows (js "orgA") (Some 2) (Store.nextCursor p1)
       = Normal p2
    /\ Store.getTransactions five_rows (js "orgA") (Some 2) (Store.nextCursor p2)
       = Normal p3
    /\ map Store.id (Store.items p1 ++ Store.items p2 ++ Store.items p3)
       = [js "t5"; js "t4"; js "t3"; js "t2"; js "t1"].
Proof.
  destruct (C7_cursor_pagination five_rows (js "orgA")) as [_ [_ [_ H]]].
  destruct (H five_rows_unique five_rows_named eq_refl)
    as [p1 [p2 [p3 [G1 [G2 [G3 [_ [_ [_ [_ [_ [_ [_ [E _]]]]]]]]]]]]]].
  exists p1, p2, p3. repeat split; try assumption.
  rewrite E. reflexivity.
Defined.

(** C8.  A stored transaction looked up with the identifier of another
    organization is not found, exactly as an identifier that no row has; the
    route answers both requests alike, with 404 once the requester is a member
    of the organization named in the query. *)
Theorem C8_other_organization_is_not_found db t org missing userOrgs :
  NoDup (map Store.id db) ->
  In t db ->
  Store.organizationId t <> org ->
  ~ In missing (map Store.id db) ->
  Store.getTransactionById db (Store.id t) org = None
  /\ Store.getTransactionById db missing org = None
  /\ Store.get_transaction_route db userOrgs (Store.id t) (Some org)
     = Store.get_transaction_route db userOrgs missing (Some org)
  /\ (org <> [] ->
      existsb (fun o => JsString.eqb o org) userOrgs = true ->
      Store.status (Store.get_transaction_route db userOrgs (Store.id t) (Some org))
      = 404).
Proof.
  intros Hd Ht Horg Hm.
  assert (H1 : Store.getTransactionById db (Store.id t) org = None).
  { apply find_all_false. intros x Hx.
    destruct (JsString.eqb (Store.id x) (Store.id t)) eqn:E; [|reflexivity].
    apply eqb_eq in E. apply (@NoDup_map_id_eq db x t Hd Hx Ht) in E. subst x.
    simpl. apply eqb_neq. exact Horg. }
  assert (H2 : Store.getTransactionById db missing org = None).
  { apply find_all_false. intros x Hx.
    rewrite (eqb_neq (a := Store.id x) (b := missing)); [reflexivity|].
    intros E. apply Hm. rewrite <- E. apply in_map. exact Hx. }
  split; [exact H1|]. split; [exact H2|].
  destruct org as [|c s].
  - split; [reflexivity|congruence].
  - unfold Store.get_transaction_route. rewrite H1, H2.
    split; [reflexivity|]. intros _ Hacc. rewrite Hacc. reflexivity.
Qed.

Lemma C8_witness :
  Store.getTransactionById five_rows (js "t3") (js "orgB") = None
  /\ Store.getTransactionById five_rows (js "nope") (js "orgB") = None
  /\ Store.get_transaction_route five_rows [js "orgB"] (js "t3") (Some (js "orgB"))
     = Store.get_transaction_route five_rows [js "orgB"] (js "nope") (Some (js "orgB"))
  /\ Store.status
       (Store.get_transaction_route five_rows [js "orgB"] (js "t3") (Some (js "orgB")))
     = 404.
Proof.
  destruct (@C8_other_organization_is_not_found
              five_rows (row "t3" "orgA" 3000) (js "orgB")
              (js "nope") [js "orgB"])
    as [H1 [H2 [H3 H4]]].
  - exact five_rows_unique.
  - simpl. tauto.
  - discriminate.
  - simpl. intuition discriminate.
  - split; [exact H1|]. split; [exact H2|]. split; [exact H3|].
    apply H4; [discriminate|reflexivity].
Defined.

(** C9, as the claim states it, fails: two rows created at the same instant
    come out in the order in which the table holds them, whichever identifier
    is the smaller, so no order on identifiers decides the ties. *)
Lemma C9_counterexample :
  Store.getTransactions tie_ab (js "orgA") None None
  = Normal {| Store.items := tie_ab; Store.nextCursor := None;
              Store.hasMore := false |}
  /\ Store.getTransactions tie_ba (js "orgA") None None
     = Normal {| Store.items := tie_ba; Store.nextCursor := None;
                 Store.hasMore := false |}
  /\ ~ identifier_breaks_ties.
Proof.
  assert (Gab : Store.getTransactions tie_ab (js "orgA") None None
                = Normal {| Store.items := tie_ab; Store.nextCursor := None;
                            Store.hasMore := false |})
    by (vm_compute; reflexivity).
  assert (Gba : Store.getTransactions tie_ba (js "orgA") None None
                = Normal {| Store.items := tie_ba; Store.nextCursor := None;
                            Store.hasMore := false |})
    by (vm_compute; reflexivity).
  split; [exact Gab|]. split; [exact Gba|].
  intros [lt [Hasym H]].
  assert (Nab : NoDup (map Store.id tie_ab))
    by (repeat constructor; simpl; intuition discriminate).
  assert (Nba : NoDup (map Store.id tie_ba))
    by (repeat constructor; simpl; intuition discriminate).
  pose proof (H _ _ _ _ _ Nab Gab [] (row "a" "orgA" 1000) []
                (row "b" "orgA" 1000) [] eq_refl eq_refl) as L1.
  pose proof (H _ _ _ _ _ Nba Gba [] (row "b" "orgA" 1000) []
                (row "a" "orgA" 1000) [] eq_refl eq_refl) as L2.
  exact (Hasym _ _ L1 L2).
Qed.

(** C9, amended.  The page [getTransactions] returns is a run of consecutive
    rows of the organization ordered by creation time, newest first; rows
    created at the same instant keep the order in which the table holds them. *)
Theorem C9_newest_first_ties_in_table_order db org limit cursor :
  exists p pre post,
    Store.getTransactions db org limit cursor = Normal p
    /\ ordered_rows db org = pre ++ Store.items p ++ post
    /\ StronglySorted newer_or_equal (Store.items p)
    /\ Forall (fun t => Store.organizationId t = org) (Store.items p)
    /\ forall k,
        created_at k (ordered_rows db org)
        = created_at k
            (filter (fun t => JsString.eqb (Store.organizationId t) org) db).
Proof.
  destruct (getTransactions_segment db org limit cursor)
    as [p [pre [post [G Hseg]]]].
  exists p, pre, post. split; [exact G|]. split; [exact Hseg|].
  pose proof (orderBy_sorted
                (filter (fun t => JsString.eqb (Store.organizationId t) org) db))
    as Hsorted.
  fold (ordered_rows db org) in Hsorted. rewrite Hseg in Hsorted.
  apply sorted_app_inv in Hsorted. destruct Hsorted as [_ Hsorted].
  apply sorted_app_inv in Hsorted. destruct Hsorted as [Hsorted _].
  split; [exact Hsorted|]. split.
  - apply Forall_forall. intros t Ht.
    apply (ordered_rows_in db org t). rewrite Hseg.
    apply in_or_app. right. apply in_or_app. left. exact Ht.
  - intros k. apply orderBy_stable.
Qed.

(** C10.  For every input text with a unit that is not white space (so with a
    line that is not blank), the fallback parser returns a description of at
    most 255 units and a confidence of at least 0.1; a confidence of exactly 0
    is therefore returned only for texts that are empty or all white space. *)
Theorem C10_nonblank_text_has_description newDate toLowerCase text :
  existsb nonspace text = true ->
  exists r d q,
    parseTransactionTextWithRegex newDate toLowerCase text = Normal r
    /\ description r = Some d /\ length d <= 255
    /\ confidence r = Fin q /\ (1 # 10 <= q)%Q
    /\ confidence r <> Fin 0.
Proof.
  intros H. apply nonblank_lines_nonempty in H.
  destruct (regex_parse_spec newDate toLowerCase text)
    as [r [q [H1 [H2 [_ [_ [Hlen [Hsome [Hq _]]]]]]]]].
  specialize (Hsome H).
  destruct (description r) as [d|] eqn:E; [|contradiction].
  assert (Hq' : (1 # 10 <= q)%Q) by (apply Hq; discriminate).
  exists r, d, q. repeat split; try assumption.
  - apply Hlen. reflexivity.
  - rewrite H2. intros E0. inversion E0; subst q.
    apply Qle_bool_iff in Hq'. discriminate Hq'.
Qed.

Lemma C10_witness :
  exists r d q,
    parseTransactionTextWithRegex Reference.newDate Reference.toLowerCase zzz_text
    = Normal r
    /\ description r = Some d /\ length d <= 255
    /\ confidence r = Fin q /\ (1 # 10 <= q)%Q
    /\ confidence r <> Fin 0.
Proof.
  apply (C10_nonblank_text_has_description
           Reference.newDate Reference.toLowerCase zzz_text).
  reflexivity.
Defined.

(* ================================================================= *)
(** ** Facts about the rate limiter *)

Module RateLimitFacts.
Import RateLimit RateLimitProps StoreFacts.

Lemma map_get_in k l m : map_get k m = Some l -> In (k, l) m.
Proof.
  induction m as [|[k' l'] m IH]; simpl; [discriminate|].
  destruct (JsString.eqb k' k) eqn:E.
  - apply eqb_eq in E. intros H. inversion H. subst. left. reflexivity.
  - intros H. right. apply IH. exact H.
Qed.

Lemma map_get_set_same k l m : map_get k (map_set k l m) = Some l.
Proof.
  induction m as [|[k' l'] m IH]; simpl.
  - rewrite eqb_refl. reflexivity.
  - destruct (JsString.eqb k' k) eqn:E; simpl.
    + rewrite eqb_refl. reflexivity.
    + rewrite E. exact IH.
Qed.

Lemma map_get_set_other k k' l m :
  k' <> k -> map_get k' (map_set k l m) = map_get k' m.
Proof.
  intros Hne. induction m as [|[k0 l0] m IH]; simpl.
  - rewrite eqb_neq by congruence. reflexivity.
  - destruct (JsString.eqb k0 k) eqn:E; simpl.
    + apply eqb_eq in E. subst k0.
      rewrite !(eqb_neq (a := k) (b := k')) by congruence. reflexivity.
    + destruct (JsString.eqb k0 k'); [reflexivity|exact IH].
Qed.

Lemma map_set_in k l m kl : In kl (map_set k l m) -> kl = (k, l) \/ In kl m.
Proof.
  induction m as [|[k0 l0] m IH]; simpl.
  - intros [H|[]]. left. congruence.
  - destruct (JsString.eqb k0 k); simpl; intros [H|H]; auto.
    destruct (IH H); auto.
Qed.

Lemma map_set_keys k l m :
  NoDup (map fst m) -> NoDup (map fst (map_set k l m)).
Proof.
  induction m as [|[k0 l0] m IH]; simpl; intros H.
  - constructor; [tauto|constructor].
  - inversion H as [|? ? Hn Hd]; subst.
    destruct (JsString.eqb k0 k) eqn:E; simpl.
    + apply eqb_eq in E. subst k0. constructor; assumption.
    + constructor; [|apply IH; assumption].
      intros Hin. apply in_map_iff in Hin. destruct Hin as [[k1 l1] [E1 Hin]].
      simpl in E1. subst k1. apply map_set_in in Hin. destruct Hin as [Hin|Hin].
      * inversion Hin. subst. rewrite eqb_refl in E. discriminate.
      * apply Hn. apply in_map_iff. exists (k0, l1). auto.
Qed.

Lemma map_set_fresh_addresses k l m :
  NoDup (map snd m) -> (forall kl, In kl m -> snd kl <> l) ->
  NoDup (map snd (map_set k l m)).
Proof.
  induction m as [|[k0 l0] m IH]; simpl; intros H Hl.
  - constructor; [tauto|constructor].
  - inversion H as [|? ? Hn Hd]; subst.
    destruct (JsString.eqb k0 k) eqn:E; simpl.
    + constructor; [|assumption].
      intros Hin. apply in_map_iff in Hin. destruct Hin as [kl [E1 Hin]].
      apply (Hl kl); auto.
    + constructor; [|apply IH; auto].
      intros Hin. apply in_map_iff in Hin. destruct Hin as [kl [E1 Hin]].
      apply map_set_in in Hin. destruct Hin as [->|Hin].
      * simpl in E1. apply (Hl (k0, l0)); auto.
      * apply Hn. apply in_map_iff. exists kl. auto.
Qed.

Lemma map_get_filter (f : jsstring * nat -> bool) k m :
  NoDup (map fst m) ->
  map_get k (filter f m)
  = match map_get k m with
    | Some l => if f (k, l) then Some l else None
    | None => None
    end.
Proof.
  induction m as [|[k0 l0] m IH]; simpl; intros H; [reflexivity|].
  inversion H as [|? ? Hn Hd]; subst.
  destruct (JsString.eqb k0 k) eqn:E.
  - apply eqb_eq in E. subst k0.
    destruct (f (k, l0)); simpl; [rewrite eqb_refl; reflexivity|].
    rewrite (IH Hd).
    destruct (map_get k m) as [l|] eqn:G; [|reflexivity].
    exfalso. apply Hn. apply map_get_in in G. apply in_map_iff.
    exists (k, l). auto.
  - destruct (f (k0, l0)); simpl; [rewrite E|]; apply IH; assumption.
Qed.

Lemma NoDup_map_filter_gen {A B} (g : A -> B) (f : A -> bool) l :
  NoDup (map g l) -> NoDup (map g (filter f l)).
Proof.
  induction l as [|x l IH]; simpl; intros H; [constructor|].
  inversion H as [|? ? Hn Hd]; subst.
  destruct (f x); simpl; [|apply IH; assumption].
  constructor; [|apply IH; assumption].
  intros Hin. apply Hn. apply in_map_iff in Hin. destruct Hin as [y [Hy Hin]].
  apply filter_In in Hin. apply in_map_iff. exists y. tauto.
Qed.

Lemma shared_address (m : list (jsstring * nat)) a b l :
  NoDup (map snd m) -> In (a, l) m -> In (b, l) m -> a = b.
Proof.
  induction m as [|[k0 l0] m IH]; simpl; intros H Ha Hb; [contradiction|].
  inversion H as [|? ? Hn Hd]; subst.
  destruct Ha as [Ha|Ha], Hb as [Hb|Hb]; try congruence; auto.
  - inversion Ha; subst. exfalso. apply Hn. apply in_map_iff. exists (b, l). auto.
  - inversion Hb; subst. exfalso. apply Hn. apply in_map_iff. exists (a, l). auto.
Qed.

Lemma heap_set_length l e h : length (heap_set l e h) = length h.
Proof.
  revert l. induction h as [|x h IH]; intros [|l]; simpl; auto.
Qed.

Lemma deref_set_same l e h : l < length h -> deref (heap_set l e h) l = e.
Proof.
  unfold deref. revert l. induction h as [|x h IH]; intros [|l]; simpl; intros H;
    try lia; auto. apply IH. lia.
Qed.

Lemma deref_set_other l l' e h : l' <> l -> deref (heap_set l e h) l' = deref h l'.
Proof.
  unfold deref. revert l l'.
  induction h as [|x h IH]; intros [|l] [|l']; simpl; intros H; auto; try lia.
Qed.

Lemma deref_app_old h e l : l < length h -> deref (h ++ [e]) l = deref h l.
Proof.
  intros H. unfold deref. apply app_nth1. exact H.
Qed.

Lemma deref_app_new h e : deref (h ++ [e]) (length h) = e.
Proof.
  unfold deref. rewrite app_nth2 by lia. rewrite Nat.sub_diag. reflexivity.
Qed.

Lemma wf_address s k l : wf s -> map_get k (refs s) = Some l -> l < length (heap s).
Proof.
  intros [_ [_ Hb]] H. apply map_get_in in H.
  rewrite Forall_forall in Hb. exact (Hb _ H).
Qed.

Lemma wf_empty : wf empty.
Proof.
  unfold wf, empty. simpl. repeat split; constructor.
Qed.

(** Cleaning up keeps the store well formed and deletes exactly the expired
    entries. *)
Lemma cleanup_spec now s :
  wf s ->
  wf (cleanupExpiredEntries now s)
  /\ forall k, getRateLimitStatus (cleanupExpiredEntries now s) k = live now s k.
Proof.
  intros [H1 [H2 H3]]. split.
  - unfold wf, cleanupExpiredEntries. simpl. split; [|split].
    + apply NoDup_map_filter_gen. exact H1.
    + apply NoDup_map_filter_gen. exact H2.
    + apply Forall_forall. intros kl Hin. apply filter_In in Hin.
      rewrite Forall_forall in H3. apply H3. tauto.
  - intros k. unfold live, getRateLimitStatus, cleanupExpiredEntries. simpl.
    rewrite (@map_get_filter _ k _ H1).
    destruct (map_get k (refs s)) as [l|]; simpl; [|reflexivity].
    destruct (expired now (deref (heap s) l)); reflexivity.
Qed.

Lemma live_idempotent now s k :
  wf s -> live now (cleanupExpiredEntries now s) k = live now s k.
Proof.
  intros H. unfold live at 1. rewrite (proj2 (@cleanup_spec now s H) k).
  unfold live. destruct (getRateLimitStatus s k) as [e|]; [|reflexivity].
  destruct (expired now e) eqn:E; [reflexivity|]. rewrite E. reflexivity.
Qed.

(** Creating an entry: the key points at a new object, the others are as
    before. *)
Lemma new_entry_spec cfg key now s :
  wf s ->
  let '(s', l) := new_entry cfg key now s in
  wf s'
  /\ map_get key (refs s') = Some l
  /\ deref (heap s') l = {| count := 0; resetTime := now + windowMs cfg |}
  /\ forall k, k <> key -> getRateLimitStatus s' k = getRateLimitStatus s k.
Proof.
  intros [H1 [H2 H3]]. unfold new_entry. cbv zeta. simpl.
  rewrite Forall_forall in H3.
  split; [|split; [|split]].
  - unfold wf. simpl. split; [|split].
    + apply map_set_keys. exact H1.
    + apply map_set_fresh_addresses; [exact H2|].
      intros kl Hin. specialize (H3 _ Hin). lia.
    + apply Forall_forall. intros kl Hin. rewrite length_app. simpl.
      apply map_set_in in Hin. destruct Hin as [->|Hin]; simpl; [lia|].
      specialize (H3 _ Hin). lia.
  - apply map_get_set_same.
  - apply deref_app_new.
  - intros k Hk. unfold getRateLimitStatus. simpl.
    rewrite (@map_get_set_other key k _ _ Hk).
    destruct (map_get k (refs s)) as [l|] eqn:G; simpl; [|reflexivity].
    f_equal. apply deref_app_old. apply map_get_in in G. exact (H3 _ G).
Qed.

(** Counting a request: the key's object is incremented in place, the others
    are as before. *)
Lemma increment_spec key l s :
  wf s -> map_get key (refs s) = Some l ->
  wf (increment l s)
  /\ map_get key (refs (increment l s)) = Some l
  /\ deref (heap (increment l s)) l
     = {| count := count (deref (heap s) l) + 1;
          resetTime := resetTime (deref (heap s) l) |}
  /\ forall k, k <> key ->
               getRateLimitStatus (increment l s) k = getRateLimitStatus s k.
Proof.
  intros Hwf G. pose proof (@wf_address s key l Hwf G) as Hl.
  destruct Hwf as [H1 [H2 H3]].
  split; [|split; [|split]].
  - unfold wf, increment. simpl. rewrite heap_set_length. auto.
  - exact G.
  - unfold increment. simpl. apply deref_set_same. exact Hl.
  - intros k Hk. unfold getRateLimitStatus, increment. simpl.
    destruct (map_get k (refs s)) as [l'|] eqn:G'; simpl; [|reflexivity].
    f_equal. apply deref_set_other. intros ->. apply Hk.
    apply map_get_in in G, G'. exact (@shared_address _ _ _ _ H2 G' G).
Qed.

#[local] Arguments increment : simpl never.
#[local] Arguments deref : simpl never.

Lemma status_of_address s key l :
  map_get key (refs s) = Some l ->
  getRateLimitStatus s key = Some (deref (heap s) l).
Proof.
  intros H. unfold getRateLimitStatus. rewrite H. reflexivity.
Qed.

(** Finding or creating the entry of the request. *)
Lemma find_or_create_spec cfg key now s :
  wf s ->
  let '(s', l) :=
    match map_get key (refs s) with
    | Some l =>
      if expired now (deref (heap s) l) then new_entry cfg key now s else (s, l)
    | None => new_entry cfg key now s
    end in
  wf s'
  /\ map_get key (refs s') = Some l
  /\ deref (heap s') l = window cfg now (live now s key)
  /\ forall k, k <> key -> getRateLimitStatus s' k = getRateLimitStatus s k.
Proof.
  intros Hwf. unfold live, getRateLimitStatus.
  destruct (map_get key (refs s)) as [l|] eqn:G; cbn [option_map].
  - destruct (expired now (deref (heap s) l)) eqn:E.
    + exact (@new_entry_spec cfg key now s Hwf).
    + cbn [window]. repeat split; auto; apply Hwf.
  - exact (@new_entry_spec cfg key now s Hwf).
Qed.

(** What the middleware does, in terms of the live entry of the key alone: its
    answer, the entry it leaves for the key, and what becomes of the entries
    of the other keys. *)
Lemma rateLimit_spec cfg key now random status s :
  wf s ->
  let '(s', o) := rateLimit cfg key now random (handler status) s in
  wf s'
  /\ o = verdict cfg now (live now s key) status
  /\ getRateLimitStatus s' key
     = Some (entry_after cfg now (live now s key) status)
  /\ forall k, k <> key ->
               getRateLimitStatus s' k
               = if random then live now s k else getRateLimitStatus s k.
Proof.
  intros Hwf. unfold rateLimit.
  set (s1 := if random then cleanupExpiredEntries now s else s).
  assert (H1 : wf s1 /\ live now s1 key = live now s key
               /\ forall k, getRateLimitStatus s1 k
                            = if random then live now s k
                              else getRateLimitStatus s k).
  { unfold s1. destruct random.
    - destruct (@cleanup_spec now s Hwf) as [Hw Hs].
      split; [exact Hw|]. split; [apply live_idempotent; exact Hwf|exact Hs].
    - auto. }
  destruct H1 as [Hwf1 [Hlive Hothers1]].
  pose proof (@find_or_create_spec cfg key now s1 Hwf1) as H2.
  destruct (match map_get key (refs s1) with
            | Some l =>
              if expired now (deref (heap s1) l)
              then new_entry cfg key now s1 else (s1, l)
            | None => new_entry cfg key now s1
            end) as [s2 l].
  destruct H2 as [Hwf2 [G2 [D2 Hothers2]]]. rewrite Hlive in D2.
  unfold verdict, entry_after, counted, handler. rewrite D2.
  destruct (maxRequests cfg <=? count (window cfg now (live now s key)))%Z eqn:Eb.
  - split; [exact Hwf2|]. split; [reflexivity|]. split.
    + rewrite (status_of_address _ _ G2), D2. reflexivity.
    + intros k Hk. rewrite (Hothers2 k Hk). apply Hothers1.
  - destruct (@increment_spec key l s2 Hwf2 G2) as [Hwf3 [G3 [D3 Hothers3]]].
    rewrite D2 in D3.
    destruct (skipSuccessfulRequests cfg), (skipFailedRequests cfg);
      cbn [negb andb orb];
      try match goal with
          | |- context [if ?b then increment l s2 else s2] => destruct b
          end;
      (split; [assumption|]);
      (split; [rewrite ?D3, ?D2; cbn [count resetTime]; rewrite ?Z.add_0_r;
               reflexivity|]);
      (split; [first [rewrite (status_of_address _ _ G3), D3; reflexivity
                     |rewrite (status_of_address _ _ G2), D2, Z.add_0_r;
                      destruct (window cfg now (live now s key)); reflexivity]|]);
      intros k Hk; rewrite <- (Hothers1 k);
      first [rewrite (Hothers3 k Hk); exact (Hothers2 k Hk)
            |exact (Hothers2 k Hk)].
Qed.

End RateLimitFacts.

(* ================================================================= *)
(** ** The rate limiter: quota, windows and keys *)

Import RateLimit RateLimitProps RateLimitFacts.

#[local] Arguments increment : simpl never.
#[local] Arguments deref : simpl never.

Lemma live_within now s key e :
  getRateLimitStatus s key = Some e -> (now <= resetTime e)%Z ->
  live now s key = Some e.
Proof.
  intros H Hle. unfold live, expired. rewrite H.
  destruct (resetTime e <? now)%Z eqn:E; [|reflexivity].
  apply Z.ltb_lt in E. lia.
Qed.

(** Requests inside the window of an entry that counts [c] requests: those
    that the quota still allows pass, the rest are refused. *)
Lemma serve_within_window win max key reqs :
  forall s e,
    wf s ->
    getRateLimitStatus s key = Some e ->
    (forall t r st, In (t, r, st) reqs -> (t <= resetTime e)%Z) ->
    map passed (snd (serve (limit_of win max) key reqs s))
    = repeat true (Nat.min (length reqs) (Z.to_nat (max - count e)))
      ++ repeat false (length reqs - Z.to_nat (max - count e)).
Proof.
  induction reqs as [|[[t r] st] reqs IH]; intros s e Hwf He Hin; [reflexivity|].
  cbn [serve].
  pose proof (@rateLimit_spec (limit_of win max) key t r st s Hwf) as Hs.
  destruct (rateLimit (limit_of win max) key t r (handler st) s) as [s1 o].
  destruct Hs as [Hwf1 [Ho [He1 _]]].
  assert (Hl : live t s key = Some e).
  { apply live_within; [exact He|]. apply (Hin t r st). left. reflexivity. }
  rewrite Hl in Ho, He1.
  unfold verdict in Ho. unfold entry_after, counted in He1.
  cbn [RateLimitProps.window limit_of maxRequests skipSuccessfulRequests skipFailedRequests
       negb andb] in Ho, He1.
  assert (Hin' : forall t' r' st', In (t', r', st') reqs ->
                                   (t' <= resetTime e)%Z).
  { intros t' r' st' H. apply (Hin t' r' st'). right. exact H. }
  destruct (max <=? count e)%Z eqn:Eb.
  - apply Z.leb_le in Eb.
    specialize (IH s1 e Hwf1 He1 Hin').
    destruct (serve (limit_of win max) key reqs s1) as [s2 os].
    cbn [snd map] in *. rewrite IH, Ho.
    replace (Z.to_nat (max - count e)) with 0 by lia.
    rewrite !Nat.min_0_r, !Nat.sub_0_r. reflexivity.
  - apply Z.leb_gt in Eb.
    specialize (IH s1 _ Hwf1 He1).
    cbn [resetTime count] in IH. specialize (IH Hin').
    destruct (serve (limit_of win max) key reqs s1) as [s2 os].
    cbn [snd map] in *. rewrite IH, Ho.
    replace (Z.to_nat (max - count e))
      with (S (Z.to_nat (max - (count e + 1)))) by lia.
    cbn [passed length Nat.min Nat.sub repeat app]. reflexivity.
Qed.

(** X1.  The quota.  When a key has no live entry, a request opens a window of
    [windowMs] and, of the requests made for the key until the window ends,
    exactly the first [maxRequests] are let through (none if [maxRequests] is
    not positive); the draws of the clean-up make no difference. *)
Theorem rate_limit_quota win max key s t1 r1 st1 rest :
  wf s ->
  live t1 s key = None ->
  (forall t r st, In (t, r, st) rest -> (t <= t1 + win)%Z) ->
  map passed (snd (serve (limit_of win max) key ((t1, r1, st1) :: rest) s))
  = repeat true (Nat.min (S (length rest)) (Z.to_nat max))
    ++ repeat false (S (length rest) - Z.to_nat max).
Proof.
  intros Hwf Hl Hin. cbn [serve].
  pose proof (@rateLimit_spec (limit_of win max) key t1 r1 st1 s Hwf) as Hs.
  destruct (rateLimit (limit_of win max) key t1 r1 (handler st1) s) as [s1 o].
  destruct Hs as [Hwf1 [Ho [He1 _]]]. rewrite Hl in Ho, He1.
  unfold verdict in Ho. unfold entry_after, counted in He1.
  cbn [RateLimitProps.window limit_of maxRequests skipSuccessfulRequests
       skipFailedRequests windowMs negb andb count resetTime] in Ho, He1.
  pose proof (@serve_within_window win max key rest s1 _ Hwf1 He1) as Hr.
  destruct (max <=? 0)%Z eqn:Eb.
  - apply Z.leb_le in Eb. cbn [resetTime count] in Hr. specialize (Hr Hin).
    destruct (serve (limit_of win max) key rest s1) as [s2 os].
    cbn [snd map] in *. rewrite Hr, Ho.
    replace (Z.to_nat (max - 0)) with 0 by lia.
    replace (Z.to_nat max) with 0 by lia.
    rewrite !Nat.min_0_r, !Nat.sub_0_r. reflexivity.
  - apply Z.leb_gt in Eb. cbn [resetTime count] in Hr. specialize (Hr Hin).
    destruct (serve (limit_of win max) key rest s1) as [s2 os].
    cbn [snd map] in *. rewrite Hr, Ho.
    replace (Z.to_nat max) with (S (Z.to_nat (max - (0 + 1)))) by lia.
    cbn [passed length Nat.min Nat.sub repeat app]. reflexivity.
Qed.

Lemma rate_limit_quota_witness :
  map passed
      (snd (serve (limit_of 60000 3) (js "ip:127.0.0.1")
                  [(1000, false, 200); (2000, true, 200); (1500, false, 404);
                   (61000, false, 200)]%Z
                  empty))
  = [true; true; true; false].
Proof.
  apply (@rate_limit_quota 60000 3 (js "ip:127.0.0.1") empty 1000%Z false 200%Z
           [(2000, true, 200); (1500, false, 404); (61000, false, 200)]%Z).
  - exact wf_empty.
  - reflexivity.
  - intros t r st H. simpl in H.
    repeat (destruct H as [H|H]; [inversion H; subst; lia|]). contradiction.
Defined.

Lemma ceil_div_bounds d :
  (1000 * (ceil_div d 1000 - 1) < d <= 1000 * ceil_div d 1000)%Z.
Proof.
  unfold ceil_div.
  pose proof (Z.div_mod (- d) 1000 ltac:(lia)) as H.
  pose proof (Z.mod_pos_bound (- d) 1000 ltac:(lia)) as Hb.
  lia.
Qed.

(** X2.  The end of a window.  A request made after [resetTime] opens a new
    window at its own time and counts as its first request; a request made
    exactly at [resetTime] is still judged against the old window, and if the
    quota is used up it is refused with a [retryAfter] of 0 seconds. *)
Theorem rate_limit_window_end win max key now random status s e :
  wf s ->
  getRateLimitStatus s key = Some e ->
  let result := rateLimit (limit_of win max) key now random (handler status) s in
  ((resetTime e < now)%Z -> (1 <= max)%Z ->
   snd result
   = Passed {| limit := max; remaining := max - 1;
               reset := ceil_div (now + win) 1000 |} status
   /\ getRateLimitStatus (fst result) key
      = Some {| count := 1; resetTime := now + win |})
  /\ (now = resetTime e -> (max <= count e)%Z ->
      snd result
      = TooManyRequests 0 {| limit := max; remaining := 0;
                             reset := ceil_div (resetTime e) 1000 |}
      /\ getRateLimitStatus (fst result) key = Some e).
Proof.
  intros Hwf He result.
  pose proof (@rateLimit_spec (limit_of win max) key now random status s Hwf) as Hs.
  fold result in Hs. destruct result as [s1 o].
  destruct Hs as [_ [Ho [He1 _]]]. cbn [fst snd].
  unfold live in Ho, He1. rewrite He in Ho, He1. unfold expired in Ho, He1.
  split.
  - intros Hlt Hmax.
    assert (E : (resetTime e <? now)%Z = true) by (apply Z.ltb_lt; lia).
    rewrite E in Ho, He1.
    unfold verdict in Ho. unfold entry_after, counted in He1.
    cbn [window limit_of maxRequests skipSuccessfulRequests skipFailedRequests
         windowMs negb andb count resetTime] in Ho, He1.
    assert (Eb : (max <=? 0)%Z = false) by (apply Z.leb_gt; lia).
    rewrite Eb in Ho, He1. split; [|exact He1].
    rewrite Ho. f_equal. f_equal. lia.
  - intros Hnow Hmax. subst now.
    rewrite Z.ltb_irrefl in Ho, He1.
    unfold verdict in Ho. unfold entry_after in He1.
    cbn [window limit_of maxRequests] in Ho, He1.
    assert (Eb : (max <=? count e)%Z = true) by (apply Z.leb_le; lia).
    rewrite Eb in Ho, He1. split; [|exact He1].
    rewrite Ho, Z.sub_diag. reflexivity.
Qed.

Lemma rate_limit_window_end_witness :
  let s := fst (serve (limit_of 100 1) (js "k") [(0, false, 200)]%Z empty) in
  snd (rateLimit (limit_of 100 1) (js "k") 101 false (handler 200) s)
  = Passed {| limit := 1; remaining := 0; reset := 1 |} 200
  /\ snd (rateLimit (limit_of 100 1) (js "k") 100 false (handler 200) s)
     = TooManyRequests 0 {| limit := 1; remaining := 0; reset := 1 |}.
Proof.
  intros s.
  assert (Hwf : wf s).
  { pose proof (@rateLimit_spec (limit_of 100 1) (js "k") 0 false 200 empty wf_empty)
      as H. unfold s. cbn [serve]. 
    destruct (rateLimit (limit_of 100 1) (js "k") 0 false (handler 200) empty).
    exact (proj1 H). }
  assert (He : getRateLimitStatus s (js "k") = Some {| count := 1; resetTime := 100 |})
    by (vm_compute; reflexivity).
  destruct (@rate_limit_window_end 100 1 (js "k") 101 false 200 s _ Hwf He)
    as [H1 _].
  destruct (@rate_limit_window_end 100 1 (js "k") 100 false 200 s _ Hwf He)
    as [_ H2].
  split.
  - apply H1; simpl; lia.
  - apply H2; [reflexivity|simpl; lia].
Defined.

(** X3.  A refused request costs nothing.  When the middleware answers 429 the
    rest of the chain is not run, the request is not counted and the window is
    not extended: the key keeps the entry it was judged against.  The
    [retryAfter] it reports is the time to the end of the window rounded up to
    whole seconds, and is not negative. *)
Theorem rate_limit_refusal_is_free cfg key now random status s retryAfter h :
  wf s ->
  snd (rateLimit cfg key now random (handler status) s)
  = TooManyRequests retryAfter h ->
  let w := window cfg now (live now s key) in
  getRateLimitStatus (fst (rateLimit cfg key now random (handler status) s)) key
  = Some w
  /\ (maxRequests cfg <= count w)%Z
  /\ (now <= resetTime w -> 0 <= retryAfter)%Z
  /\ (1000 * (retryAfter - 1) < resetTime w - now <= 1000 * retryAfter)%Z
  /\ forall next,
      rateLimit cfg key now random next s
      = rateLimit cfg key now random (handler status) s.
Proof.
  intros Hwf Ho w.
  pose proof (@rateLimit_spec cfg key now random status s Hwf) as Hs.
  assert (Hnext : forall next,
             snd (rateLimit cfg key now random (handler status) s)
             = TooManyRequests retryAfter h ->
             rateLimit cfg key now random next s
             = rateLimit cfg key now random (handler status) s).
  { intros next. unfold rateLimit.
    destruct (match map_get key
                      (refs (if random then cleanupExpiredEntries now s else s)) with
              | Some l =>
                if expired now
                     (deref (heap (if random then cleanupExpiredEntries now s else s)) l)
                then new_entry cfg key now
                       (if random then cleanupExpiredEntries now s else s)
                else (if random then cleanupExpiredEntries now s else s, l)
              | None => new_entry cfg key now
                          (if random then cleanupExpiredEntries now s else s)
              end) as [s2 l].
    destruct (maxRequests cfg <=? count (deref (heap s2) l))%Z; [reflexivity|].
    unfold handler. cbn [snd]. destruct (next _) as [s3 st]. discriminate. }
  destruct (rateLimit cfg key now random (handler status) s) as [s1 o].
  destruct Hs as [_ [Ho' [He1 _]]]. cbn [fst snd] in *.
  rewrite Ho in Ho'. unfold verdict in Ho'. unfold entry_after in He1.
  fold w in Ho', He1.
  destruct (maxRequests cfg <=? count w)%Z eqn:Eb; [|discriminate].
  inversion Ho'. subst retryAfter h.
  pose proof (ceil_div_bounds (resetTime w - now)) as Hb.
  split; [exact He1|]. split; [apply Z.leb_le; exact Eb|].
  split; [lia|]. split; [exact Hb|].
  intros next. apply Hnext. exact Ho.
Qed.

Lemma rate_limit_refusal_is_free_witness :
  let s := fst (serve (limit_of 60000 1) (js "k") [(0, false, 200)]%Z empty) in
  getRateLimitStatus
    (fst (rateLimit (limit_of 60000 1) (js "k") 1500 false (handler 200) s))
    (js "k")
  = Some {| count := 1; resetTime := 60000 |}
  /\ snd (rateLimit (limit_of 60000 1) (js "k") 1500 false (handler 200) s)
     = TooManyRequests 59 {| limit := 1; remaining := 0; reset := 60 |}.
Proof.
  intros s.
  assert (Hwf : wf s).
  { pose proof (@rateLimit_spec (limit_of 60000 1) (js "k") 0 false 200 empty
                                wf_empty) as H.
    unfold s. cbn [serve].
    destruct (rateLimit (limit_of 60000 1) (js "k") 0 false (handler 200) empty).
    exact (proj1 H). }
  assert (Ho : snd (rateLimit (limit_of 60000 1) (js "k") 1500 false (handler 200) s)
               = TooManyRequests 59 {| limit := 1; remaining := 0; reset := 60 |})
    by (vm_compute; reflexivity).
  destruct (@rate_limit_refusal_is_free (limit_of 60000 1) (js "k") 1500 false 200
              s 59 _ Hwf Ho) as [H _].
  split; [|exact Ho]. rewrite H. vm_compute. reflexivity.
Defined.

Lemma live_after_cleanup now now' s k :
  (now <= now')%Z ->
  match live now s k with
  | Some e => if expired now' e then None else Some e
  | None => None
  end = live now' s k.
Proof.
  intros Hle. unfold live. destruct (getRateLimitStatus s k) as [e|]; [|reflexivity].
  unfold expired. destruct (resetTime e <? now)%Z eqn:E; [|reflexivity].
  apply Z.ltb_lt in E.
  assert (E' : (resetTime e <? now')%Z = true) by (apply Z.ltb_lt; lia).
  rewrite E'. reflexivity.
Qed.

(** X4.  Keys do not interfere.  A request for one key, whether it is let
    through or refused and whether or not it triggers the clean-up, changes
    neither the answer to a later request for another key nor the entry that
    request leaves. *)
Theorem rate_limit_keys_independent
        cfg key now random status cfg' key' now' random' status' s :
  wf s ->
  key' <> key ->
  (now <= now')%Z ->
  let s1 := fst (rateLimit cfg key now random (handler status) s) in
  snd (rateLimit cfg' key' now' random' (handler status') s1)
  = snd (rateLimit cfg' key' now' random' (handler status') s)
  /\ getRateLimitStatus
       (fst (rateLimit cfg' key' now' random' (handler status') s1)) key'
     = getRateLimitStatus
         (fst (rateLimit cfg' key' now' random' (handler status') s)) key'.
Proof.
  intros Hwf Hk Hle s1.
  pose proof (@rateLimit_spec cfg key now random status s Hwf) as H1.
  fold s1 in H1.
  destruct (rateLimit cfg key now random (handler status) s) as [s1' o1].
  cbn [fst] in *. subst s1. destruct H1 as [Hwf1 [_ [_ Hothers]]].
  assert (Hl : live now' s1' key' = live now' s key').
  { unfold live at 1. rewrite (Hothers key' Hk). destruct random.
    - apply live_after_cleanup. exact Hle.
    - reflexivity. }
  pose proof (@rateLimit_spec cfg' key' now' random' status' s1' Hwf1) as H2.
  pose proof (@rateLimit_spec cfg' key' now' random' status' s Hwf) as H3.
  destruct (rateLimit cfg' key' now' random' (handler status') s1') as [s2 o2].
  destruct (rateLimit cfg' key' now' random' (handler status') s) as [s3 o3].
  destruct H2 as [_ [Ho2 [He2 _]]]. destruct H3 as [_ [Ho3 [He3 _]]].
  cbn [fst snd]. rewrite Ho2, Ho3, He2, He3, Hl. auto.
Qed.

Lemma rate_limit_keys_independent_witness :
  let s1 := fst (rateLimit (limit_of 60000 1) (js "user:a") 10 true (handler 200)
                           empty) in
  snd (rateLimit (limit_of 60000 1) (js "user:b") 20 false (handler 200) s1)
  = snd (rateLimit (limit_of 60000 1) (js "user:b") 20 false (handler 200) empty).
Proof.
  intros s1.
  apply (@rate_limit_keys_independent
           (limit_of 60000 1) (js "user:a") 10 true 200
           (limit_of 60000 1) (js "user:b") 20 false 200 empty).
  - exact wf_empty.
  - discriminate.
  - lia.
Defined.

(** X5.  The skip options.  With either option set, a request that is let
    through is counted only after the rest of the chain has answered: with
    [skipFailedRequests] alone exactly the answers below 400 are counted, with
    [skipSuccessfulRequests] alone exactly those below 200 or from 400 on, and
    with both only those below 200. *)
Theorem rate_limit_skip_options win max skipS skipF key now random status s :
  wf s ->
  skipS || skipF = true ->
  let cfg := {| windowMs := win; maxRequests := max;
                skipSuccessfulRequests := skipS; skipFailedRequests := skipF |} in
  let w := window cfg now (live now s key) in
  (count w < max)%Z ->
  getRateLimitStatus (fst (rateLimit cfg key now random (handler status) s)) key
  = Some {| count := count w
                     + (if match skipS, skipF with
                           | true, true => (status <? 200)%Z
                           | true, false => (status <? 200)%Z || (400 <=? status)%Z
                           | false, _ => (status <? 400)%Z
                           end
                        then 1 else 0);
            resetTime := resetTime w |}
  /\ snd (rateLimit cfg key now random (handler status) s)
     = Passed {| limit := max; remaining := Z.max 0 (max - count w);
                 reset := ceil_div (resetTime w) 1000 |} status.
Proof.
  intros Hwf Hflags cfg w Hlt.
  pose proof (@rateLimit_spec cfg key now random status s Hwf) as Hs.
  destruct (rateLimit cfg key now random (handler status) s) as [s1 o].
  destruct Hs as [_ [Ho [He1 _]]]. cbn [fst snd].
  unfold verdict in Ho. unfold entry_after, counted in He1.
  fold w in Ho, He1.
  assert (Eb : (maxRequests cfg <=? count w)%Z = false)
    by (apply Z.leb_gt; exact Hlt).
  rewrite Eb in Ho, He1. rewrite He1, Ho.
  unfold cfg.
  cbn [maxRequests skipSuccessfulRequests skipFailedRequests].
  destruct skipS, skipF; try discriminate Hflags; cbn [negb andb orb];
    rewrite ?Z.add_0_r; (split; [|reflexivity]); do 3 f_equal;
    destruct (200 <=? status)%Z eqn:E1, (status <? 400)%Z eqn:E2,
             (400 <=? status)%Z eqn:E3, (status <? 200)%Z eqn:E4;
    try reflexivity; exfalso;
    rewrite ?Z.leb_le, ?Z.leb_gt, ?Z.ltb_lt, ?Z.ltb_ge in *; lia.
Qed.

Lemma rate_limit_skip_options_witness :
  getRateLimitStatus
    (fst (rateLimit {| windowMs := 1000; maxRequests := 5;
                       skipSuccessfulRequests := true;
                       skipFailedRequests := true |}
                    (js "k") 0 false (handler 500) empty))
    (js "k")
  = Some {| count := 0; resetTime := 1000 |}.
Proof.
  destruct (@rate_limit_skip_options 1000 5 true true (js "k") 0 false 500 empty
              wf_empty eq_refl) as [H _].
  - vm_compute. reflexivity.
  - rewrite H. vm_compute. reflexivity.
Defined.

(** X6.  The remaining count that is reported.  With the default options, the
    [X-RateLimit-Remaining] header of a request that is let through says how
    many of the requests made for the key until the window ends will still be
    let through: exactly that many, in the order made. *)
Theorem rate_limit_remaining_is_exact win max key now random status s h :
  wf s ->
  snd (rateLimit (limit_of win max) key now random (handler status) s)
  = Passed h status ->
  let s1 := fst (rateLimit (limit_of win max) key now random (handler status) s) in
  exists e,
    getRateLimitStatus s1 key = Some e
    /\ remaining h = (max - count e)%Z
    /\ (0 <= remaining h)%Z
    /\ forall reqs,
        (forall t r st, In (t, r, st) reqs -> (t <= resetTime e)%Z) ->
        map passed (snd (serve (limit_of win max) key reqs s1))
        = repeat true (Nat.min (length reqs) (Z.to_nat (remaining h)))
          ++ repeat false (length reqs - Z.to_nat (remaining h)).
Proof.
  intros Hwf Ho s1.
  pose proof (@rateLimit_spec (limit_of win max) key now random status s Hwf) as Hs.
  fold s1 in Hs.
  destruct (rateLimit (limit_of win max) key now random (handler status) s)
    as [s1' o]. cbn [fst snd] in *. subst s1.
  destruct Hs as [Hwf1 [Ho' [He1 _]]]. rewrite Ho in Ho'.
  unfold verdict in Ho'. unfold entry_after, counted in He1.
  cbn [limit_of maxRequests skipSuccessfulRequests skipFailedRequests negb andb]
    in Ho', He1.
  destruct (max <=? count (window (limit_of win max) now (live now s key)))%Z
           eqn:Eb; [discriminate|].
  apply Z.leb_gt in Eb. inversion Ho'. subst h. clear Ho'.
  eexists. split; [exact He1|]. cbn [remaining count resetTime].
  split; [lia|]. split; [lia|].
  intros reqs Hin.
  rewrite (@serve_within_window win max key reqs s1' _ Hwf1 He1 Hin).
  cbn [count]. rewrite Z.max_r by lia. reflexivity.
Qed.

Lemma rate_limit_remaining_is_exact_witness :
  let s1 := fst (rateLimit (limit_of 60000 10) (js "k") 0 false (handler 200)
                           empty) in
  map passed
      (snd (serve (limit_of 60000 10) (js "k")
                  (repeat (5%Z, false, 200%Z) 11) s1))
  = repeat true 9 ++ repeat false 2.
Proof.
  intros s1.
  assert (Ho : snd (rateLimit (limit_of 60000 10) (js "k") 0 false (handler 200)
                              empty)
               = Passed {| limit := 10; remaining := 9; reset := 60 |} 200)
    by (vm_compute; reflexivity).
  destruct (@rate_limit_remaining_is_exact 60000 10 (js "k") 0 false 200 empty _
              wf_empty Ho) as [e [He [_ [_ H]]]].
  fold s1 in He, H.
  assert (Ee : e = {| count := 1; resetTime := 60000 |}).
  { vm_compute in He. inversion He. reflexivity. }
  subst e. apply H.
  intros t r st Hin. apply repeat_spec in Hin. inversion Hin. subst. simpl. lia.
Defined.

(** With the default options nothing follows the rest of the chain, so the
    middleware in front of any chain is the middleware in front of a plain
    handler, followed by the chain if the request is let through. *)
Lemma rateLimit_then win max key now random next s :
  rateLimit (limit_of win max) key now random next s
  = let '(s1, o) := rateLimit (limit_of win max) key now random (handler 0) s in
    match o with
    | TooManyRequests _ _ => (s1, o)
    | Passed h _ => let '(s2, status) := next s1 in (s2, Passed h status)
    end.
Proof.
  unfold rateLimit.
  destruct (match map_get key
                    (refs (if random then cleanupExpiredEntries now s else s)) with
            | Some l =>
              if expired now
                   (deref (heap (if random then cleanupExpiredEntries now s else s)) l)
              then new_entry (limit_of win max) key now
                     (if random then cleanupExpiredEntries now s else s)
              else (if random then cleanupExpiredEntries now s else s, l)
            | None => new_entry (limit_of win max) key now
                        (if random then cleanupExpiredEntries now s else s)
            end) as [s2 l].
  destruct (maxRequests (limit_of win max) <=? count (deref (heap s2) l))%Z;
    [reflexivity|].
  cbn [limit_of skipSuccessfulRequests skipFailedRequests negb andb orb handler].
  destruct (next (increment l s2)) as [s3 st]. reflexivity.
Qed.

Lemma global_and_extract_keys_differ forwarded realIp userId :
  extractKey userId <> defaultKey None forwarded realIp.
Proof.
  unfold extractKey, defaultKey. intros H.
  change (js "ai-extract:") with (97%N :: JsString.lit "i-extract:") in H.
  change (js "ip:") with (105%N :: JsString.lit "p:") in H.
  simpl app in H. inversion H.
Qed.

(** X7.  The two limiters in front of the extraction route.  A request that
    the route's limiter refuses (ten requests of the user already counted in
    its window) is answered 429, leaves the user's extraction entry as it was,
    and has nevertheless been counted by the global limiter against the
    address it came from. *)
Theorem refused_extraction_counts_globally
        forwarded realIp userId now random now' random' status s e :
  wf s ->
  (now <= now')%Z ->
  let gkey := defaultKey None forwarded realIp in
  let w := window (limit_of (60 * 1000) 100) now (live now s gkey) in
  (count w < 100)%Z ->
  (now' <= resetTime w)%Z ->
  live now' s (extractKey (Some userId)) = Some e ->
  (10 <= count e)%Z ->
  let result :=
    extract_chain forwarded realIp userId now random now' random' status s in
  response_status (snd result) = 429%Z
  /\ getRateLimitStatus (fst result) gkey
     = Some {| count := count w + 1; resetTime := resetTime w |}
  /\ getRateLimitStatus (fst result) (extractKey (Some userId)) = Some e.
Proof.
  intros Hwf Hle gkey w Hquota Hopen He Hcount result.
  unfold result, extract_chain. fold gkey.
  rewrite rateLimit_then.
  pose proof (@rateLimit_spec (limit_of (60 * 1000) 100) gkey now random 0 s Hwf)
    as H1.
  destruct (rateLimit (limit_of (60 * 1000) 100) gkey now random (handler 0) s)
    as [s1 o1].
  destruct H1 as [Hwf1 [Ho1 [Hg1 Hothers1]]].
  unfold verdict in Ho1. unfold entry_after, counted in Hg1.
  fold w in Ho1, Hg1.
  cbn [limit_of maxRequests skipSuccessfulRequests skipFailedRequests negb andb]
    in Ho1, Hg1.
  assert (Eb : (100 <=? count w)%Z = false) by (apply Z.leb_gt; exact Hquota).
  rewrite Eb in Ho1, Hg1. rewrite Ho1.
  pose proof (@global_and_extract_keys_differ forwarded realIp (Some userId)) as Hk.
  fold gkey in Hk.
  assert (Hl : live now' s1 (extractKey (Some userId)) = Some e).
  { unfold live at 1. rewrite (Hothers1 _ Hk). destruct random.
    - rewrite (live_after_cleanup s (extractKey (Some userId)) Hle). exact He.
    - exact He. }
  pose proof (@rateLimit_spec preset_aiExtraction (extractKey (Some userId))
                              now' random' status s1 Hwf1) as H2.
  destruct (rateLimit preset_aiExtraction (extractKey (Some userId)) now' random'
                      (handler status) s1) as [s2 o2].
  destruct H2 as [Hwf2 [Ho2 [He2 Hothers2]]].
  rewrite Hl in Ho2, He2.
  unfold verdict in Ho2. unfold entry_after in He2.
  cbn [window preset_aiExtraction limit_of maxRequests] in Ho2, He2.
  assert (Eb2 : (10 <=? count e)%Z = true) by (apply Z.leb_le; exact Hcount).
  rewrite Eb2 in Ho2, He2.
  cbn [fst snd]. rewrite Ho2. cbn [response_status].
  split; [reflexivity|]. split; [|exact He2].
  assert (Hk' : gkey <> extractKey (Some userId)) by congruence.
  rewrite (Hothers2 _ Hk'). destruct random'; [|exact Hg1].
  apply live_within; [exact Hg1|exact Hopen].
Qed.

Lemma refused_extraction_counts_globally_witness :
  let s := {| refs := [(extractKey (Some (js "u1")), 0)];
              heap := [{| count := 10; resetTime := 60000 |}] |} in
  let result :=
    extract_chain (Some (js "10.0.0.1, 10.0.0.2")) None (js "u1")
                  5 false 6 true 201 s in
  response_status (snd result) = 429%Z
  /\ getRateLimitStatus (fst result) (js "ip:10.0.0.1")
     = Some {| count := 1; resetTime := 60005 |}.
Proof.
  intros s result.
  assert (Hwf : wf s).
  { unfold wf, s. cbn [refs heap map fst snd length].
    repeat split; repeat constructor; simpl; tauto. }
  destruct (@refused_extraction_counts_globally
              (Some (js "10.0.0.1, 10.0.0.2")) None (js "u1") 5 false 6 true 201 s
              {| count := 10; resetTime := 60000 |} Hwf) as [H1 [H2 _]].
  - lia.
  - vm_compute. reflexivity.
  - vm_compute. discriminate.
  - vm_compute. reflexivity.
  - simpl. lia.
  - split; [exact H1|].
    fold result in H2. vm_compute in H2. vm_compute. exact H2.
Defined.

(* ================================================================= *)
(** ** Organizations: roles, access and membership *)

Module OrganizationFacts.
Import Organization OrganizationProps StoreFacts.

Lemma roleHierarchy_name r :
  roleHierarchy (role_name r)
  = Some match r with owner => 3 | admin => 2 | member => 1 end%Z.
Proof. destruct r; reflexivity. Qed.

Lemma roleHierarchy_other role :
  (forall r, role <> role_name r) -> roleHierarchy role = None.
Proof.
  intros H. unfold roleHierarchy.
  rewrite (eqb_neq (a := role) (b := js "owner")) by exact (H owner).
  rewrite (eqb_neq (a := role) (b := js "admin")) by exact (H admin).
  rewrite (eqb_neq (a := role) (b := js "member")) by exact (H member).
  reflexivity.
Qed.

Lemma insert_member_perm x l : Permutation (x :: l) (insert_member_desc x l).
Proof.
  induction l as [|y l IH]; simpl; [reflexivity|].
  destruct (m_createdAt y <=? m_createdAt x)%Z; [reflexivity|].
  rewrite perm_swap. apply perm_skip. exact IH.
Qed.

Lemma orderBy_member_perm l : Permutation l (orderBy_member_createdAt_desc l).
Proof.
  induction l as [|x l IH]; simpl; [reflexivity|].
  rewrite <- insert_member_perm. apply perm_skip. exact IH.
Qed.

Lemma is_member_iff u o m :
  is_member u o m = true <-> m_userId m = u /\ m_organizationId m = o.
Proof.
  unfold is_member. rewrite andb_true_iff, !eqb_eq. tauto.
Qed.

Lemma find_member_none u o l :
  find (is_member u o) l = None <-> forall m, In m l -> is_member u o m = false.
Proof.
  split.
  - intros H m Hin. exact (find_none _ _ H m Hin).
  - induction l as [|x l IH]; simpl; intros H; [reflexivity|].
    rewrite (H x) by (left; reflexivity). apply IH. intros m Hm. apply H.
    right. exact Hm.
Qed.

Lemma find_app_none (f : Member -> bool) l x :
  find f l = None -> find f (l ++ [x]) = if f x then Some x else None.
Proof.
  induction l as [|y l IH]; simpl; [reflexivity|].
  destruct (f y); [discriminate|exact IH].
Qed.

Lemma find_app_some (f : Member -> bool) l l' m :
  find f l = Some m -> find f (l ++ l') = Some m.
Proof.
  induction l as [|y l IH]; simpl; [discriminate|].
  destruct (f y); [auto|exact IH].
Qed.

Lemma remove_first_app_last (f : Member -> bool) l x :
  find f l = None -> f x = true -> remove_first f (l ++ [x]) = l.
Proof.
  induction l as [|y l IH]; simpl; intros H Hx.
  - rewrite Hx. reflexivity.
  - destruct (f y); [discriminate|]. rewrite (IH H Hx). reflexivity.
Qed.

Lemma find_update_first_same (f : Member -> bool) g l m :
  find f l = Some m -> f (g m) = true ->
  find f (update_first f g l) = Some (g m).
Proof.
  induction l as [|y l IH]; simpl; [discriminate|].
  destruct (f y) eqn:E; intros H Hg.
  - inversion H. subst y. simpl. rewrite Hg. reflexivity.
  - simpl. rewrite E. apply IH; assumption.
Qed.

End OrganizationFacts.

Import Organization OrganizationProps OrganizationFacts.

(** X8.  Role checks and access.  A user who passes a role check is a member.
    A member whose stored role is one of the three names passes the checks at
    or below it in the order owner, admin, member.  A member whose stored role
    is any other text has access (the predicate of the transaction layer) and
    yet passes no role check, not even the one for member. *)
Theorem role_checks_and_access db userId organizationId :
  (forall need, hasOrganizationRole db userId organizationId need = true ->
                hasOrganizationAccess db userId organizationId = true)
  /\ (forall m have need,
         findUnique_member db userId organizationId = Some m ->
         m_role m = role_name have ->
         hasOrganizationRole db userId organizationId need = passes have need)
  /\ (forall m,
         findUnique_member db userId organizationId = Some m ->
         (forall r, m_role m <> role_name r) ->
         hasOrganizationAccess db userId organizationId = true
         /\ forall need,
             hasOrganizationRole db userId organizationId need = false).
Proof.
  unfold hasOrganizationRole, hasOrganizationAccess.
  split; [|split].
  - intros need.
    destruct (findUnique_member db userId organizationId); [reflexivity|discriminate].
  - intros m have need Hm Hr. rewrite Hm, Hr, !roleHierarchy_name.
    destruct have, need; reflexivity.
  - intros m Hm Hr. rewrite Hm. split; [reflexivity|].
    intros need. rewrite (@roleHierarchy_other (m_role m) Hr). reflexivity.
Qed.

Lemma role_checks_and_access_witness :
  hasOrganizationRole acme (js "adam") (js "org1") owner = false
  /\ hasOrganizationRole acme (js "adam") (js "org1") member = true
  /\ hasOrganizationAccess acme (js "vic") (js "org1") = true
  /\ hasOrganizationRole acme (js "vic") (js "org1") member = false.
Proof.
  destruct (role_checks_and_access acme (js "adam") (js "org1")) as [_ [H2 _]].
  destruct (role_checks_and_access acme (js "vic") (js "org1")) as [_ [_ H3]].
  assert (Hvic : forall r, js "viewer" <> role_name r)
    by (intros r; destruct r; discriminate).
  destruct (H3 _ eq_refl Hvic) as [Ha Hn].
  split; [exact (H2 _ admin owner eq_refl eq_refl)|].
  split; [exact (H2 _ admin member eq_refl eq_refl)|].
  split; [exact Ha|exact (Hn member)].
Defined.

(** X9.  The access check of the transaction routes, which looks for the
    organization among those [getUserOrganizations] returns, holds exactly
    when [hasOrganizationAccess] does, given that every membership refers to
    an organization that exists. *)
Theorem route_access_is_membership db userId organizationId :
  memberships_refer db ->
  route_hasAccess db userId organizationId
  = hasOrganizationAccess db userId organizationId.
Proof.
  intros Hfk. unfold route_hasAccess, hasOrganizationAccess, findUnique_member,
                getUserOrganizations.
  destruct (find (is_member userId organizationId) (members db)) as [m|] eqn:E.
  - apply find_some in E. destruct E as [Hin Hm]. apply is_member_iff in Hm.
    destruct Hm as [Hu Ho]. apply existsb_exists.
    destruct (Hfk m Hin) as [o [Hoin Hoid]].
    destruct (find (fun o' => JsString.eqb (org_id o') (m_organizationId m))
                   (organizations db)) as [o'|] eqn:Ef.
    + exists {| uo_org := o'; uo_role := m_role m |}. split.
      * apply in_flat_map. exists m. split.
        -- apply (Permutation_in _ (orderBy_member_perm _)).
           apply filter_In. split; [exact Hin|]. apply eqb_eq. exact Hu.
        -- rewrite Ef. left. reflexivity.
      * simpl. apply find_some in Ef. destruct Ef as [_ Ef].
        apply eqb_eq in Ef. apply eqb_eq. congruence.
    + exfalso. pose proof (find_none _ _ Ef o Hoin) as Hn. simpl in Hn.
      rewrite Hoid, eqb_refl in Hn. discriminate.
  - destruct (existsb _ _) eqn:Ex; [|reflexivity]. exfalso.
    apply existsb_exists in Ex. destruct Ex as [uo [Hin Huo]].
    apply in_flat_map in Hin. destruct Hin as [m [Hm Hin]].
    apply (Permutation_in _ (Permutation_sym (orderBy_member_perm _))) in Hm.
    apply filter_In in Hm. destruct Hm as [Hm Hu]. apply eqb_eq in Hu.
    destruct (find (fun o' => JsString.eqb (org_id o') (m_organizationId m))
                   (organizations db)) as [o'|] eqn:Ef; [|contradiction].
    destruct Hin as [<-|[]]. simpl in Huo. apply eqb_eq in Huo.
    apply find_some in Ef. destruct Ef as [_ Ef]. apply eqb_eq in Ef.
    pose proof (proj1 (find_member_none userId organizationId (members db)) E m Hm)
      as Hn.
    assert (Ht : is_member userId organizationId m = true)
      by (apply is_member_iff; split; congruence).
    congruence.
Qed.

Lemma route_access_is_membership_witness :
  route_hasAccess acme (js "vic") (js "org1") = true
  /\ route_hasAccess acme (js "vic") (js "org2") = false.
Proof.
  assert (Hfk : memberships_refer acme).
  { intros m Hin. exists {| org_id := js "org1"; org_name := js "Acme";
                            org_slug := js "acme" |}.
    split; [left; reflexivity|]. simpl in Hin.
    repeat (destruct Hin as [<-|Hin]; [reflexivity|]). contradiction. }
  rewrite !(@route_access_is_membership acme _ _ Hfk). split; reflexivity.
Defined.

(** X10.  Role changes are gated on admin only.  A requester who passes the
    admin check can give any member any non-empty role; in particular an admin
    can make themselves owner with one request, after which they pass the
    owner check. *)
Theorem admin_can_take_ownership db requester id :
  hasOrganizationRole db requester id admin = true ->
  let result := update_member_route db requester id requester (Some (js "owner")) in
  snd result = 200
  /\ forall need, hasOrganizationRole (fst result) requester id need = true.
Proof.
  intros Hadmin result. unfold result, update_member_route.
  change (js "owner") with (111%N :: JsString.lit "wner").
  cbv iota beta. rewrite Hadmin. cbn [negb].
  change (111%N :: JsString.lit "wner") with (js "owner").
  unfold updateUserRole, hasOrganizationRole in *.
  destruct (findUnique_member db requester id) as [m|] eqn:E; [|discriminate].
  cbn [fst snd]. split; [reflexivity|]. intros need.
  unfold findUnique_member in *. cbn [members].
  rewrite (@find_update_first_same (is_member requester id) _ _ m E).
  - cbn [m_role]. rewrite roleHierarchy_name.
    change (roleHierarchy (js "owner")) with (Some 3%Z).
    destruct need; reflexivity.
  - apply find_some in E. destruct E as [_ E]. exact E.
Qed.

Lemma admin_can_take_ownership_witness :
  let result := update_member_route acme (js "adam") (js "org1") (js "adam")
                                    (Some (js "owner")) in
  snd result = 200
  /\ hasOrganizationRole (fst result) (js "adam") (js "org1") owner = true.
Proof.
  intros result.
  destruct (@admin_can_take_ownership acme (js "adam") (js "org1") eq_refl)
    as [H1 H2].
  split; [exact H1|exact (H2 owner)].
Defined.



(** X12.  Adding and removing a member.  After [addUserToOrganization]
    succeeds the user has access and the memberships of every other pair of
    user and organization are as before; adding the same pair again fails on
    the unique constraint, which the route answers with 409; removing the
    member gives back the memberships there were. *)
Theorem add_then_remove_member db now userId organizationId role db' :
  addUserToOrganization db now userId organizationId role = Done db' ->
  hasOrganizationAccess db' userId organizationId = true
  /\ (forall u o, (u, o) <> (userId, organizationId) ->
                  findUnique_member db' u o = findUnique_member db u o)
  /\ (forall now' role',
         addUserToOrganization db' now' userId organizationId role'
         = Failed P2002)
  /\ removeUserFromOrganization db' userId organizationId = Done db.
Proof.
  unfold addUserToOrganization, hasOrganizationAccess, removeUserFromOrganization,
         findUnique_member.
  destruct (find (is_member userId organizationId) (members db)) eqn:E;
    [discriminate|].
  intros H. inversion H. subst db'. clear H. cbn [members organizations].
  set (row := {| m_userId := userId; m_organizationId := organizationId;
                 m_role := match role with Some r => r | None => js "member" end;
                 m_createdAt := now |}).
  assert (Hrow : is_member userId organizationId row = true).
  { apply is_member_iff. split; reflexivity. }
  rewrite (find_app_none _ _ row E), Hrow.
  split; [reflexivity|]. split; [|split].
  - intros u o Hne.
    destruct (find (is_member u o) (members db)) as [m|] eqn:F.
    + apply find_app_some. exact F.
    + rewrite (find_app_none _ _ row F).
      destruct (is_member u o row) eqn:Hm; [|reflexivity].
      apply is_member_iff in Hm. simpl in Hm. destruct Hm. congruence.
  - reflexivity.
  - rewrite (remove_first_app_last _ _ row E Hrow). destruct db. reflexivity.
Qed.

Lemma add_then_remove_member_witness :
  exists db',
    addUserToOrganization acme 9 (js "ned") (js "org1") None = Done db'
    /\ hasOrganizationAccess db' (js "ned") (js "org1") = true
    /\ snd (add_member_route db' 10 (js "olga") (js "org1") (Some (js "ned")) None)
       = 409
    /\ removeUserFromOrganization db' (js "ned") (js "org1") = Done acme.
Proof.
  eexists. split; [reflexivity|].
  destruct (@add_then_remove_member acme 9 (js "ned") (js "org1") None _ eq_refl)
    as [H1 [_ [_ H4]]].
  split; [exact H1|]. split; [vm_compute; reflexivity|exact H4].
Defined.

(** X13.  The creator of an organization is its owner.  After
    [createOrganization] succeeds with an identifier that no membership
    referred to, the creator passes every role check for the new organization
    and the access check of the transaction routes; creating another
    organization with the same slug fails on the unique constraint. *)
Theorem creator_is_owner db newId now name slug creatorUserId db' :
  createOrganization db newId now name slug creatorUserId = Done db' ->
  (forall m, In m (members db) -> m_organizationId m <> newId) ->
  (forall need, hasOrganizationRole db' creatorUserId newId need = true)
  /\ route_hasAccess db' creatorUserId newId = true
  /\ forall newId' now' name' creator',
      createOrganization db' newId' now' name' slug creator' = Failed P2002.
Proof.
  unfold createOrganization.
  destruct (existsb (fun o => JsString.eqb (org_slug o) slug
                                || JsString.eqb (org_id o) newId)
                    (organizations db))
           eqn:Es; [discriminate|].
  intros H Hfresh. inversion H. subst db'. clear H.
  set (row := {| m_userId := creatorUserId; m_organizationId := newId;
                 m_role := js "owner"; m_createdAt := now |}).
  set (org := {| org_id := newId; org_name := name; org_slug := slug |}).
  assert (Hrow : is_member creatorUserId newId row = true).
  { apply is_member_iff. split; reflexivity. }
  assert (Hnone : find (is_member creatorUserId newId) (members db) = None).
  { apply find_member_none. intros m Hin.
    destruct (is_member creatorUserId newId m) eqn:Hm; [|reflexivity].
    apply is_member_iff in Hm. exfalso. apply (Hfresh m Hin). tauto. }
  assert (Hfind : find (is_member creatorUserId newId) (members db ++ [row])
                  = Some row).
  { rewrite (find_app_none _ _ row Hnone), Hrow. reflexivity. }
  split; [|split].
  - intros need. unfold hasOrganizationRole, findUnique_member. cbn [members].
    rewrite Hfind. cbn [m_role row]. rewrite roleHierarchy_name.
    change (roleHierarchy (js "owner")) with (Some 3%Z).
    destruct need; reflexivity.
  - unfold route_hasAccess, getUserOrganizations. cbn [members organizations].
    apply existsb_exists.
    assert (Hin : In row (orderBy_member_createdAt_desc
                            (filter (fun m => JsString.eqb (m_userId m) creatorUserId)
                                    (members db ++ [row])))).
    { apply (Permutation_in _ (orderBy_member_perm _)). apply filter_In.
      split; [apply in_or_app; right; left; reflexivity|]. apply eqb_refl. }
    destruct (find (fun o => JsString.eqb (org_id o) newId)
                   (organizations db ++ [org])) as [o|] eqn:Ef.
    + exists {| uo_org := o; uo_role := js "owner" |}. split.
      * apply in_flat_map. exists row. split; [exact Hin|].
        cbn [m_organizationId m_role row]. rewrite Ef. left. reflexivity.
      * simpl. apply find_some in Ef. tauto.
    + exfalso.
      assert (Ho : In org (organizations db ++ [org]))
        by (apply in_or_app; right; left; reflexivity).
      pose proof (find_none _ _ Ef org Ho) as Hn. simpl in Hn.
      rewrite eqb_refl in Hn. discriminate.
  - intros newId' now' name' creator'. cbn [organizations].
    rewrite existsb_app. cbn [existsb org_slug org]. rewrite eqb_refl.
    cbn [orb]. rewrite orb_true_r. reflexivity.
Qed.

Lemma creator_is_owner_witness :
  exists db',
    createOrganization acme (js "org2") 20 (js "Beta") (js "beta") (js "mia")
    = Done db'
    /\ hasOrganizationRole db' (js "mia") (js "org2") owner = true
    /\ hasOrganizationRole db' (js "mia") (js "org1") admin = false.
Proof.
  eexists. split; [reflexivity|].
  destruct (@creator_is_owner acme (js "org2") 20 (js "Beta") (js "beta") (js "mia")
              _ eq_refl) as [H1 _].
  - intros m Hin. simpl in Hin.
    repeat (destruct Hin as [<-|Hin]; [discriminate|]). contradiction.
  - split; [exact (H1 owner)|reflexivity].
Defined.

(* ================================================================= *)
(** ** The transaction routes *)

Module RouteFacts.
Import Js Transaction Organization OrganizationProps OrganizationFacts.
Import StoreFacts AdapterFacts FallbackFacts TransactionRoutes.

(** The route's access check finds a membership and an organization. *)
Lemma route_hasAccess_member db userId organizationId :
  route_hasAccess db userId organizationId = true ->
  hasOrganizationAccess db userId organizationId = true
  /\ existsb (fun o => JsString.eqb (org_id o) organizationId) (organizations db)
     = true.
Proof.
  unfold route_hasAccess, getUserOrganizations, hasOrganizationAccess,
         findUnique_member.
  intros Ex. apply existsb_exists in Ex. destruct Ex as [uo [Hin Huo]].
  apply in_flat_map in Hin. destruct Hin as [m [Hm Hin]].
  apply (Permutation_in _ (Permutation_sym (orderBy_member_perm _))) in Hm.
  apply filter_In in Hm. destruct Hm as [Hm Hu]. apply eqb_eq in Hu.
  destruct (find (fun o' => JsString.eqb (org_id o') (m_organizationId m))
                 (organizations db)) as [o'|] eqn:Ef; [|contradiction].
  destruct Hin as [<-|[]]. cbn [uo_org] in Huo. apply eqb_eq in Huo.
  apply find_some in Ef. destruct Ef as [Hoin Ef]. apply eqb_eq in Ef.
  split.
  - destruct (find (is_member userId organizationId) (members db)) eqn:E;
      [reflexivity|].
    pose proof (proj1 (find_member_none userId organizationId (members db)) E m Hm)
      as Hn.
    assert (Ht : is_member userId organizationId m = true)
      by (apply is_member_iff; split; congruence).
    congruence.
  - apply existsb_exists. exists o'. split; [exact Hoin|]. apply eqb_eq. exact Huo.
Qed.

Lemma existsb_userOrgs db user org :
  existsb (fun o => JsString.eqb o org) (userOrgs_ids db user)
  = route_hasAccess db user org.
Proof.
  unfold userOrgs_ids, route_hasAccess.
  induction (getUserOrganizations db user) as [|uo l IH]; simpl; [reflexivity|].
  rewrite IH. reflexivity.
Qed.

(** What either strategy of the parser guarantees. *)
Lemma parse_spec env JSON_parse client_send newDate toLowerCase text :
  exists r q,
    parseTransactionText env JSON_parse client_send newDate toLowerCase text
    = Normal r
    /\ confidence r = Fin q /\ (0 <= q <= 1)%Q
    /\ (forall d, description r = Some d -> length d <= 255)
    /\ (forall a, amount r = Some a -> ltb a (Fin 0) = false)
    /\ (isBedrockConfigured env = false ->
        category r = match category_loop categoryKeywords (toLowerCase text) with
                     | Some cat => JStr (js cat)
                     | None => JNull
                     end).
Proof.
  unfold parseTransactionText.
  destruct (isBedrockConfigured env).
  - destruct (adapter_spec JSON_parse client_send text)
      as [ex [He [[q [Hq Hb]] [Hd Ha]]]].
    rewrite He. cbn [bind try_catch].
    eexists. exists q. split; [reflexivity|].
    cbn [confidence description amount category].
    repeat split; try assumption; try apply Hb.
    + intros a Hex. destruct Ha as [Ha|[n Ha]]; rewrite Ha in Hex;
        [discriminate|]. inversion Hex. apply abs_not_negative.
    + discriminate.
  - destruct (regex_parse_spec newDate toLowerCase text)
      as [r [q [H1 [H2 [H3 [Ha [Hd [_ [_ [Hc _]]]]]]]]]].
    exists r, q. repeat split; try assumption; try apply H3;
      try (intros _; exact Hc).
    intros a Hex. destruct Ha as [Ha|[n Ha]]; rewrite Ha in Hex;
      [discriminate|]. inversion Hex. apply abs_not_negative.
Qed.

(** The row [createTransaction] appends, where it succeeds. *)
Lemma createTransaction_spec w g data w' t :
  createTransaction w g data = Normal (w', t) ->
  orgdb w' = orgdb w
  /\ transactions w' = transactions w ++ [t]
  /\ ~ In (g_id g) (map Store.id (transactions w))
  /\ Store.id t = g_id g
  /\ Store.text t = d_text data
  /\ Store.amount t = d_amount data
  /\ Store.date t = d_date data
  /\ Store.description t = d_description data
  /\ d_category data = match Store.category t with
                       | Some s => JStr s
                       | None => JNull
                       end
  /\ Store.confidence t = d_confidence data
  /\ Store.organizationId t = d_organizationId data
  /\ Store.userId t = d_userId data
  /\ Store.createdAt t = g_createdAt g
  /\ Store.updatedAt t = g_updatedAt g.
Proof.
  unfold createTransaction.
  assert (Hfresh : existsb (fun t => JsString.eqb (Store.id t) (g_id g))
                           (transactions w) = false ->
                   ~ In (g_id g) (map Store.id (transactions w))).
  { intros E Hin. apply in_map_iff in Hin. destruct Hin as [x [Hx Hin]].
    assert (existsb (fun t => JsString.eqb (Store.id t) (g_id g)) (transactions w)
            = true).
    { apply existsb_exists. exists x. split; [exact Hin|]. apply eqb_eq. exact Hx. }
    congruence. }
  destruct (d_category data) eqn:Ec; try discriminate;
    destruct (existsb _ (transactions w)) eqn:Eid; try discriminate;
    destruct (existsb _ (organizations (orgdb w))); try discriminate;
    cbn [negb]; intros H; inversion H; subst; cbn;
    repeat split; auto.
Qed.

End RouteFacts.

Import TransactionRoutes TransactionRoutesProps RouteFacts.

(** X14.  What the extraction route writes.  Whatever the request body, the
    route leaves the organizations alone, and it either answers 201 after
    appending exactly one row, or leaves the transactions as they were.  The
    row appended belongs to an organization the requester is a member of,
    names the requester as its user, holds the non-empty text and organization
    of the body, and has an identifier no earlier row had. *)
Theorem extract_route_effect env JSON_parse client_send newDate toLowerCase
        w g user body :
  let result :=
    extract_route env JSON_parse client_send newDate toLowerCase w g user body in
  orgdb (fst result) = orgdb w
  /\ match snd result with
     | Created t =>
       transactions (fst result) = transactions w ++ [t]
       /\ hasOrganizationAccess (orgdb w) user (Store.organizationId t) = true
       /\ Store.userId t = user
       /\ Store.id t = g_id g
       /\ ~ In (g_id g) (map Store.id (transactions w))
       /\ Store.text t <> [] /\ Store.organizationId t <> []
       /\ exists b,
           body = Some b
           /\ Js.get (Some b) (js "text") = Js.Normal (Some (Js.JStr (Store.text t)))
           /\ Js.get (Some b) (js "organizationId")
              = Js.Normal (Some (Js.JStr (Store.organizationId t)))
     | _ => fst result = w
     end.
Proof.
  unfold extract_route. cbv zeta.
  destruct body as [b|]; cbn [Js.bind]; [|split; reflexivity].
  destruct (Js.get (Some b) (js "text")) as [text|e] eqn:Et; cbn [Js.bind];
    [|split; reflexivity].
  destruct (Js.get (Some b) (js "organizationId")) as [oid|e] eqn:Eo;
    cbn [Js.bind]; [|split; reflexivity].
  destruct text as [[| | |[|c s]| |]|]; try (split; reflexivity).
  destruct oid as [[| | |[|c' s']| |]|]; try (split; reflexivity).
  destruct (route_hasAccess (orgdb w) user (c' :: s')) eqn:Ha; cbn [negb];
    [|split; reflexivity].
  destruct (Transaction.parseTransactionText _ _ _ _ _ _) as [parsed|e];
    cbn [Js.bind]; [|split; reflexivity].
  match goal with
  | |- context [createTransaction w g ?d] =>
    destruct (createTransaction w g d) as [[w' t]|e] eqn:Ecr
  end; cbn [Js.bind fst snd]; [|split; reflexivity].
  apply createTransaction_spec in Ecr. cbn in Ecr.
  destruct Ecr as [H1 [H2 [H3 [H4 [H5 [_ [_ [_ [_ [_ [H6 [H7 _]]]]]]]]]]]].
  split; [exact H1|].
  split; [exact H2|]. split.
  { rewrite H6. apply (route_hasAccess_member _ _ _ Ha). }
  split; [exact H7|]. split; [exact H4|]. split; [exact H3|].
  split; [rewrite H5; discriminate|]. split; [rewrite H6; discriminate|].
  exists b. rewrite H5, H6. auto.
Qed.

Module RoundTripFacts.
Import Js Store StoreProps StoreFacts.







End RoundTripFacts.

Import RoundTripFacts.



Module InvariantFacts.
Import Js Organization.

Lemma extract_route_cases env JSON_parse client_send newDate toLowerCase
      w g user body :
  let result :=
    extract_route env JSON_parse client_send newDate toLowerCase w g user body in
  fst result = w
  \/ exists text organizationId parsed t,
      route_hasAccess (orgdb w) user organizationId = true
      /\ text <> []
      /\ Transaction.parseTransactionText
           env JSON_parse client_send newDate toLowerCase text = Normal parsed
      /\ createTransaction w g
           {| d_text := text;
              d_amount := Transaction.amount parsed;
              d_date := Transaction.date parsed;
              d_description := Transaction.description parsed;
              d_category := Transaction.category parsed;
              d_confidence := Transaction.confidence parsed;
              d_organizationId := organizationId;
              d_userId := user |}
         = Normal (fst result, t).
Proof.
  unfold extract_route. cbv zeta.
  destruct body as [b|]; cbn [bind]; [|left; reflexivity].
  destruct (get (Some b) (js "text")) as [text|e]; cbn [bind];
    [|left; reflexivity].
  destruct (get (Some b) (js "organizationId")) as [oid|e];
    cbn [bind]; [|left; reflexivity].
  destruct text as [[| | |[|c s]| |]|]; try (left; reflexivity).
  destruct oid as [[| | |[|c' s']| |]|]; try (left; reflexivity).
  destruct (route_hasAccess (orgdb w) user (c' :: s')) eqn:Ha; cbn [negb];
    [|left; reflexivity].
  destruct (Transaction.parseTransactionText _ _ _ _ _ _) as [parsed|e] eqn:Ep;
    cbn [bind]; [|left; reflexivity].
  match goal with
  | |- context [createTransaction w g ?d] =>
    destruct (createTransaction w g d) as [[w' t]|e] eqn:Ecr
  end; cbn [bind fst snd]; [|left; reflexivity].
  right. exists (c :: s), (c' :: s'), parsed, t.
  split; [exact Ha|]. split; [discriminate|]. split; [exact Ep|exact Ecr].
Qed.

Lemma NoDup_app_fresh (A : Type) (l : list A) x :
  NoDup l -> ~ In x l -> NoDup (l ++ [x]).
Proof.
  intros Hl Hx. induction Hl as [|y l Hy Hl IH]; simpl.
  - constructor; [intros []|constructor].
  - constructor.
    + intros Hin. apply in_app_or in Hin. destruct Hin as [Hin|[<-|[]]].
      * contradiction.
      * apply Hx. left. reflexivity.
    + apply IH. intros Hin. apply Hx. right. exact Hin.
Qed.

(** One request keeps what holds of the table. *)
Lemma extract_route_keeps env JSON_parse client_send newDate toLowerCase
      db w g user body :
  orgdb w = db ->
  NoDup (map Store.id (transactions w)) ->
  Forall (written_by_member db) (transactions w) ->
  let w' :=
    fst (extract_route env JSON_parse client_send newDate toLowerCase
                       w g user body) in
  orgdb w' = db
  /\ NoDup (map Store.id (transactions w'))
  /\ Forall (written_by_member db) (transactions w').
Proof.
  intros Hdb Hnd Hall w'. subst w'.
  destruct (extract_route_cases env JSON_parse client_send newDate toLowerCase
                                w g user body)
    as [Hsame|[text [org [parsed [t [Ha [Htext [Hp Hcr]]]]]]]].
  - rewrite Hsame. auto.
  - apply createTransaction_spec in Hcr.
    cbn [d_text d_amount d_date d_description d_category d_confidence
         d_organizationId d_userId] in Hcr.
    destruct Hcr as [H1 [H2 [H3 [H4 [H5 [H6 [_ [H8 [_ [H10 [H11 [H12 _]]]]]]]]]]]].
    rewrite H1, H2. split; [exact Hdb|]. split.
    + rewrite map_app. apply NoDup_app_fresh; [exact Hnd|].
      simpl. rewrite H4. exact H3.
    + apply Forall_app. split; [exact Hall|]. constructor; [|constructor].
      destruct (parse_spec env JSON_parse client_send newDate toLowerCase text)
        as [r [q [Hr [Hq [Hb [Hd [Hamt _]]]]]]].
      rewrite Hp in Hr. inversion Hr. subst r.
      split; [|split].
      * split; [|split].
        -- exists q. rewrite H10. auto.
        -- rewrite H8. exact Hd.
        -- rewrite H6. exact Hamt.
      * rewrite H5. exact Htext.
      * rewrite H11, H12, <- Hdb. apply (route_hasAccess_member _ _ _ Ha).
Qed.

End InvariantFacts.

Import InvariantFacts.

(** X16.  What the extraction route can put in the table.  Starting from an
    empty table, whatever requests are served while the memberships stay as
    they are, and whichever strategy parses them: the identifiers of the rows
    are distinct, and every row has a non-empty text, a confidence between 0
    and 1, a description of at most 255 units and an amount that is not
    negative where it has them, and a user who is a member of its
    organization. *)
Theorem extracted_rows_invariants env JSON_parse client_send newDate toLowerCase
        db requests :
  let w := extract_all env JSON_parse client_send newDate toLowerCase
                       {| orgdb := db; transactions := [] |} requests in
  orgdb w = db
  /\ NoDup (map Store.id (transactions w))
  /\ Forall (written_by_member db) (transactions w).
Proof.
  cbv zeta.
  assert (Hgen : forall w,
             orgdb w = db ->
             NoDup (map Store.id (transactions w)) ->
             Forall (written_by_member db) (transactions w) ->
             orgdb (extract_all env JSON_parse client_send newDate toLowerCase
                                w requests) = db
             /\ NoDup (map Store.id
                         (transactions
                            (extract_all env JSON_parse client_send newDate
                                         toLowerCase w requests)))
             /\ Forall (written_by_member db)
                       (transactions
                          (extract_all env JSON_parse client_send newDate
                                       toLowerCase w requests))).
  { induction requests as [|rq requests IH]; intros w H1 H2 H3; [auto|].
    unfold extract_all. cbn [fold_left].
    destruct (@extract_route_keeps env JSON_parse client_send newDate toLowerCase
                db w (rq_generated rq) (rq_user rq) (rq_body rq) H1 H2 H3)
      as [K1 [K2 K3]].
    exact (IH _ K1 K2 K3). }
  apply Hgen; cbn [orgdb transactions]; [reflexivity|constructor|constructor].
Qed.

Module ReadFacts.
Import Js Store StoreProps StoreFacts.

(** A page has at most [limit] rows, all of them rows of the organization. *)
Lemma getTransactions_items db org limit cursor p :
  1 <= limit -> cursor <> Some [] ->
  getTransactions db org (Some limit) cursor = Normal p ->
  length (items p) <= limit
  /\ forall t, In t (items p) -> In t db /\ organizationId t = org.
Proof.
  intros Hl Hc Hp. split.
  - destruct (@getTransactions_page db org limit cursor Hl Hc) as [p' [Hp' Hpage]].
    rewrite Hp in Hp'. inversion Hp'. subst p'. clear Hp'.
    unfold page_of in Hpage.
    set (fetched := findMany db org (limit + 1) cursor
                             match cursor with Some _ => 1 | None => 0 end) in *.
    assert (Hlen : length fetched <= limit + 1).
    { unfold fetched, findMany. apply firstn_le_length. }
    destruct (Nat.eqb (length fetched) (limit + 1)) eqn:E.
    + destruct Hpage as [_ [Hi _]]. rewrite Hi. apply firstn_le_length.
    + destruct Hpage as [_ [Hi _]]. rewrite Hi. apply Nat.eqb_neq in E. lia.
  - destruct (getTransactions_segment db org (Some limit) cursor)
      as [p' [pre [post [Hp' Hseg]]]].
    rewrite Hp in Hp'. inversion Hp'. subst p'. clear Hp'.
    intros t Hin. apply ordered_rows_in. rewrite Hseg.
    apply in_or_app. right. apply in_or_app. left. exact Hin.
Qed.

Lemma alpha_starts_no_number c s :
  JsString.is_alpha c = true -> TransactionRoutes.parseInt10 (c :: s) = None.
Proof.
  intros H. unfold TransactionRoutes.parseInt10.
  unfold JsString.is_alpha, JsString.is_upper, JsString.is_lower in H.
  rewrite orb_true_iff, !andb_true_iff, !N.leb_le in H.
  assert (H1 : JsString.is_space c = false).
  { destruct (JsString.is_space c) eqn:E; [exfalso|reflexivity].
    unfold JsString.is_space in E.
    rewrite !orb_true_iff, !andb_true_iff, !N.leb_le, !N.eqb_eq in E. lia. }
  assert (H2 : JsString.is_digit c = false).
  { destruct (JsString.is_digit c) eqn:E; [exfalso|reflexivity].
    unfold JsString.is_digit in E. rewrite andb_true_iff, !N.leb_le in E. lia. }
  cbn [JsString.trimStart]. rewrite H1.
  destruct (N.eqb_spec c 45) as [E|_]; [lia|].
  destruct (N.eqb_spec c 43) as [E|_]; [lia|].
  cbn [take_digits]. rewrite H2. reflexivity.
Qed.

End ReadFacts.

Import ReadFacts.

(** X17.  Tenant isolation of the read routes.  Whatever the query parameters,
    the list route answers with at most 100 rows, no more than the limit asked
    for (20 where none is read), and every row it or the single-transaction
    route returns is a row of the table that belongs to the organization named
    in the query, of which the requester is a member. *)
Theorem reads_are_isolated w user :
  (forall organizationId limit cursor p n,
      list_route w user organizationId limit cursor = ListOk p n ->
      n = length (Store.items p)
      /\ n <= 100
      /\ n <= match parseInt10 (or_default limit (js "20")) with
              | Some k => Z.to_nat k
              | None => 20
              end
      /\ Forall (fun t =>
                   In t (transactions w)
                   /\ Some (Store.organizationId t) = organizationId
                   /\ hasOrganizationAccess (orgdb w) user (Store.organizationId t)
                      = true)
                (Store.items p))
  /\ (forall i organizationId t,
         get_route w user i organizationId = Store.Ok t ->
         In t (transactions w)
         /\ Store.id t = i
         /\ Some (Store.organizationId t) = organizationId
         /\ hasOrganizationAccess (orgdb w) user (Store.organizationId t) = true).
Proof.
  split.
  - intros organizationId limit cursor p n. unfold list_route.
    destruct (parseInt10 (or_default limit (js "20"))) as [k|] eqn:Ek.
    + destruct ((k <? 1)%Z || (100 <? k)%Z) eqn:Eb; [discriminate|].
      apply orb_false_iff in Eb. destruct Eb as [E1 E2].
      apply Z.ltb_ge in E1. apply Z.ltb_ge in E2.
      destruct organizationId as [[|c s]|]; try discriminate.
      destruct (route_hasAccess (orgdb w) user (c :: s)) eqn:Ha; [|discriminate].
      cbn [negb option_map].
      destruct (Store.getTransactions _ _ _ _) as [result|e] eqn:Eg;
        [|discriminate].
      intros H. inversion H. subst result n. clear H.
      apply getTransactions_items in Eg;
        [|lia|destruct cursor as [[|? ?]|]; discriminate].
      destruct Eg as [Hlen Hrows].
      split; [reflexivity|]. split; [lia|]. split; [exact Hlen|].
      apply Forall_forall. intros t Hin. destruct (Hrows t Hin) as [Hdb Ho].
      split; [exact Hdb|]. rewrite Ho. split; [reflexivity|].
      apply (route_hasAccess_member _ _ _ Ha).
    + destruct organizationId as [[|c s]|]; try discriminate.
      destruct (route_hasAccess (orgdb w) user (c :: s)) eqn:Ha; [|discriminate].
      cbn [negb option_map].
      change (Store.getTransactions (transactions w) (c :: s) None
                                    (or_undefined cursor))
        with (Store.getTransactions (transactions w) (c :: s) (Some 20)
                                    (or_undefined cursor)).
      destruct (Store.getTransactions _ _ _ _) as [result|e] eqn:Eg;
        [|discriminate].
      intros H. inversion H. subst result n. clear H.
      apply getTransactions_items in Eg;
        [|lia|destruct cursor as [[|? ?]|]; discriminate].
      destruct Eg as [Hlen Hrows].
      split; [reflexivity|]. split; [lia|]. split; [exact Hlen|].
      apply Forall_forall. intros t Hin. destruct (Hrows t Hin) as [Hdb Ho].
      split; [exact Hdb|]. rewrite Ho. split; [reflexivity|].
      apply (route_hasAccess_member _ _ _ Ha).
  - intros i organizationId t.
    unfold get_route, Store.get_transaction_route, Store.getTransactionById,
           Store.findFirst.
    destruct organizationId as [[|c s]|]; try discriminate.
    rewrite existsb_userOrgs.
    destruct (route_hasAccess (orgdb w) user (c :: s)) eqn:Ha; [|discriminate].
    cbn [negb].
    destruct (find _ (transactions w)) as [t'|] eqn:Ef; [|discriminate].
    intros H. inversion H. subst t'. clear H.
    apply find_some in Ef. destruct Ef as [Hin Hm].
    apply andb_true_iff in Hm. destruct Hm as [Hi Ho].
    apply StoreFacts.eqb_eq in Hi. apply StoreFacts.eqb_eq in Ho.
    split; [exact Hin|]. split; [exact Hi|]. rewrite Ho. split; [reflexivity|].
    apply (route_hasAccess_member _ _ _ Ha).
Qed.

Lemma reads_are_isolated_witness :
  exists p n,
    list_route acme_busy (js "mia") (Some (js "org1")) (Some (js "2")) None
    = ListOk p n
    /\ n = 2
    /\ Forall (fun t => Some (Store.organizationId t) = Some (js "org1"))
              (Store.items p).
Proof.
  destruct (list_route acme_busy (js "mia") (Some (js "org1")) (Some (js "2")) None)
    as [| | |p n] eqn:E; try (vm_compute in E; discriminate E).
  exists p, n. split; [reflexivity|].
  destruct (reads_are_isolated acme_busy (js "mia")) as [Hlist _].
  destruct (Hlist _ _ _ _ _ E) as [Hlen [_ [_ Hrows]]].
  split; [vm_compute in E; inversion E; reflexivity|].
  apply Forall_forall. intros t Hin.
  rewrite Forall_forall in Hrows. exact (proj1 (proj2 (Hrows t Hin))).
Defined.

(** X18.  How the list route reads its limit.  A limit that begins with a
    letter is not a number and is not rejected: the route answers as if no
    limit had been given.  A limit that reads as a number below 1 or above 100
    is rejected with 400 before the organization and the access are looked at,
    so 0 is rejected although a missing limit is not. *)
Theorem list_limit_handling w user organizationId cursor :
  (forall c s,
      JsString.is_alpha c = true ->
      list_route w user organizationId (Some (c :: s)) cursor
      = list_route w user organizationId None cursor)
  /\ (forall l k,
         l <> [] ->
         parseInt10 l = Some k ->
         (k < 1 \/ 100 < k)%Z ->
         list_route w user organizationId (Some l) cursor = ListBadRequest)
  /\ list_route w user organizationId (Some (js "0")) cursor = ListBadRequest
  /\ (forall c s,
         list_status (list_route w user (Some (c :: s)) None cursor) <> 400).
Proof.
  split; [|split; [|split]].
  - intros c s Hc. unfold list_route. cbn [or_default].
    rewrite (alpha_starts_no_number c s Hc).
    change (parseInt10 (js "20")) with (Some 20%Z).
    reflexivity.
  - intros l k Hl Hk Hr. unfold list_route.
    destruct l as [|c s]; [contradiction|]. cbn [or_default]. rewrite Hk.
    destruct Hr as [Hr|Hr].
    + apply Z.ltb_lt in Hr. rewrite Hr. reflexivity.
    + apply Z.ltb_lt in Hr. rewrite Hr, orb_true_r. reflexivity.
  - reflexivity.
  - intros c s. unfold list_route. cbn [or_default].
    change (parseInt10 (js "20")) with (Some 20%Z).
    change ((20 <? 1)%Z || (100 <? 20)%Z) with false. cbv iota.
    destruct (negb _); [discriminate|].
    destruct (Store.getTransactions _ _ _ _); discriminate.
Qed.

Lemma list_limit_handling_witness :
  list_route acme_busy (js "mia") (Some (js "org1")) (Some (js "abc")) None
  = list_route acme_busy (js "mia") (Some (js "org1")) None None
  /\ list_route acme_busy (js "mia") (Some (js "org1")) (Some (js "101")) None
     = ListBadRequest.
Proof.
  destruct (list_limit_handling acme_busy (js "mia") (Some (js "org1")) None)
    as [H1 [H2 _]].
  split.
  - exact (H1 97%N (js "bc") eq_refl).
  - apply (H2 (js "101") 101%Z); [discriminate|reflexivity|lia].
Defined.

Module ExtractFacts.
Import Js Organization.



End ExtractFacts.

Import ExtractFacts.



(** X20.  A category that is not a string is a server error.  The adapter
    passes on whatever truthy category the model returned; when that value is
    not a string the client rejects the row, so the route answers 500 to a
    member and stores nothing. *)
Theorem non_string_category_is_server_error
        env JSON_parse client_send newDate toLowerCase w g user b text org parsed :
  Js.get (Some b) (js "text") = Js.Normal (Some (Js.JStr text)) ->
  Js.get (Some b) (js "organizationId") = Js.Normal (Some (Js.JStr org)) ->
  text <> [] -> org <> [] ->
  route_hasAccess (orgdb w) user org = true ->
  Transaction.parseTransactionText
    env JSON_parse client_send newDate toLowerCase text = Js.Normal parsed ->
  Transaction.category parsed <> Js.JNull ->
  (forall s, Transaction.category parsed <> Js.JStr s) ->
  extract_route env JSON_parse client_send newDate toLowerCase w g user (Some b)
  = (w, ExtractError).
Proof.
  intros Et Eo Htext Horg Ha Hp Hnull Hstr.
  destruct text as [|c s]; [contradiction|].
  destruct org as [|c' s']; [contradiction|].
  unfold extract_route. cbv zeta. cbn [Js.bind]. rewrite Et. cbn [Js.bind].
  rewrite Eo. cbn [Js.bind]. rewrite Ha. cbn [negb]. rewrite Hp. cbn [Js.bind].
  unfold createTransaction. cbn [d_category].
  destruct (Transaction.category parsed) as [| | |x| |]; try reflexivity.
  - contradiction.
  - exfalso. apply (Hstr x). reflexivity.
Qed.

Lemma non_string_category_is_server_error_witness :
  extract_route Props.env_configured
                (Reference.JSON_parse
                   [(numeric_category_reply, numeric_category_object)])
                numeric_category_service
                Reference.newDate Reference.toLowerCase
                acme_world first_row (js "mia")
                (Some (extract_body Props.starbucks_text (js "org1")))
  = (acme_world, ExtractError).
Proof.
  eapply (@non_string_category_is_server_error
            Props.env_configured
            (Reference.JSON_parse
               [(numeric_category_reply, numeric_category_object)])
            numeric_category_service
            Reference.newDate Reference.toLowerCase
            acme_world first_row (js "mia")
            (extract_body Props.starbucks_text (js "org1"))
            Props.starbucks_text (js "org1")).
  - reflexivity.
  - reflexivity.
  - discriminate.
  - discriminate.
  - vm_compute. reflexivity.
  - vm_compute. reflexivity.
  - discriminate.
  - discriminate.
Defined.

(* ================================================================= *)
(** ** The fallback parser: category and confidence label *)

Module CategoryFacts.
Import Js Transaction FallbackFacts CategoryProps.

Lemma category_loop_app pre e post lowerText :
  category_loop (pre ++ e :: post) lowerText
  = match category_loop pre lowerText with
    | Some cat => Some cat
    | None => if entry_matches lowerText e then Some (fst e)
              else category_loop post lowerText
    end.
Proof.
  induction pre as [|[c ks] pre IH]; simpl.
  - destruct e as [c ks]. reflexivity.
  - destruct (existsb _ ks); [reflexivity|exact IH].
Qed.

Lemma category_loop_none entries lowerText :
  category_loop entries lowerText = None
  <-> forallb (fun e => negb (entry_matches lowerText e)) entries = true.
Proof.
  induction entries as [|[c ks] entries IH]; simpl; [tauto|].
  unfold entry_matches at 1. simpl.
  destruct (existsb _ ks); simpl; [split; discriminate|exact IH].
Qed.

Lemma category_names_distinct :
  NoDup (map (fun e => js (fst e)) categoryKeywords).
Proof.
  repeat (constructor;
          [simpl; intros H;
           repeat (destruct H as [H|H]; [vm_compute in H; discriminate|]);
           contradiction|]).
  constructor.
Qed.

Lemma NoDup_middle (A : Type) (pre post : list A) x y :
  NoDup (pre ++ x :: post) -> In y (pre ++ post) -> y <> x.
Proof.
  intros Hnd Hin <-. apply NoDup_remove_2 in Hnd. contradiction.
Qed.

(** The description loop does not produce an empty description. *)
Lemma description_loop_nonempty text :
  description_loop (nonblank_lines text) <> Some [].
Proof.
  assert (H : Forall (fun line => 0 < length (JsString.trim line))
                     (nonblank_lines text)).
  { apply Forall_forall. intros line Hin. unfold nonblank_lines in Hin.
    apply filter_In in Hin. destruct Hin as [_ Hin].
    apply Nat.ltb_lt in Hin. exact Hin. }
  induction H as [|line lines Hline _ IH]; simpl; [discriminate|].
  destruct (Regex.test numeric_line (JsString.trim line)); [exact IH|].
  unfold JsString.substring0.
  destruct (JsString.trim line); [simpl in Hline; lia|discriminate].
Qed.

End CategoryFacts.

Import CategoryProps CategoryFacts.

(** X21.  The category of the fallback parser is the first entry of the
    keyword table one of whose keywords occurs in the lowered text, as a
    substring: an entry is the result exactly when it has such a keyword and
    no entry before it has one. *)
Theorem category_is_first_match newDate toLowerCase text pre cat keywords post :
  Transaction.categoryKeywords = pre ++ (cat, keywords) :: post ->
  exists r,
    Transaction.parseTransactionTextWithRegex newDate toLowerCase text
    = Js.Normal r
    /\ (Transaction.category r = Js.JStr (js cat)
        <-> existsb (fun keyword =>
                       JsString.includes (toLowerCase text) (js keyword))
                    keywords = true
            /\ forallb (fun e => negb (entry_matches (toLowerCase text) e)) pre
               = true).
Proof.
  intros Htable.
  destruct (FallbackFacts.regex_parse_spec newDate toLowerCase text)
    as [r [q [H1 [_ [_ [_ [_ [_ [_ [Hc _]]]]]]]]]].
  exists r. split; [exact H1|]. rewrite Hc. clear Hc H1.
  pose proof category_names_distinct as Hnd. rewrite Htable in *.
  rewrite category_loop_app. cbn [fst].
  change (entry_matches (toLowerCase text) (cat, keywords))
    with (existsb (fun keyword =>
                     JsString.includes (toLowerCase text) (js keyword)) keywords).
  rewrite map_app in Hnd. cbn [map fst] in Hnd.
  destruct (Transaction.category_loop pre (toLowerCase text)) as [c|] eqn:Epre.
  - split.
    + intros H. exfalso. inversion H as [Hjs].
      apply FallbackFacts.category_loop_in in Epre.
      refine (@NoDup_middle _ _ _ (js cat) (js c) Hnd _ Hjs).
      apply in_or_app. left. apply in_map_iff in Epre.
      destruct Epre as [e [He Hin]]. apply in_map_iff. exists e.
      split; [rewrite He; reflexivity|exact Hin].
    + intros [_ Hall]. apply category_loop_none in Hall. congruence.
  - apply category_loop_none in Epre. rewrite Epre.
    destruct (existsb _ keywords).
    + tauto.
    + split; [|intros [H _]; discriminate].
      intros H. exfalso.
      destruct (Transaction.category_loop post (toLowerCase text)) as [c|] eqn:Epost;
        [|discriminate].
      inversion H as [Hjs].
      apply FallbackFacts.category_loop_in in Epost.
      refine (@NoDup_middle _ _ _ (js cat) (js c) Hnd _ Hjs).
      apply in_or_app. right. apply in_map_iff in Epost.
      destruct Epost as [e [He Hin]]. apply in_map_iff. exists e.
      split; [rewrite He; reflexivity|exact Hin].
Qed.

Lemma category_is_first_match_witness :
  exists r,
    Transaction.parseTransactionTextWithRegex
      Reference.newDate Reference.toLowerCase (js "Coca-Cola 2L") = Js.Normal r
    /\ Transaction.category r = Js.JStr (js "Transportation").
Proof.
  destruct (@category_is_first_match
              Reference.newDate Reference.toLowerCase (js "Coca-Cola 2L")
              (firstn 2 Transaction.categoryKeywords)
              "Transportation"
              ["uber"; "ola"; "rapido"; "lyft"; "gas"; "fuel"; "parking";
               "transit"; "taxi"; "train"; "bus"; "metro"; "petrol";
               "diesel"]%string
              (skipn 3 Transaction.categoryKeywords) eq_refl)
    as [r [H1 H2]].
  exists r. split; [exact H1|]. apply H2. vm_compute. split; reflexivity.
Defined.

(** X22.  The label the form shows for a fallback parse.  High is shown only
    when an amount and a date were both found; when neither was found the
    label is Low; when both were found it is not Low. *)
Theorem label_of_fallback_parse newDate toLowerCase text :
  exists r,
    Transaction.parseTransactionTextWithRegex newDate toLowerCase text
    = Js.Normal r
    /\ (Frontend.getConfidenceLabel (Transaction.confidence r) = Frontend.High ->
        Transaction.amount r <> None /\ Transaction.date r <> None)
    /\ (Transaction.amount r = None -> Transaction.date r = None ->
        Frontend.getConfidenceLabel (Transaction.confidence r) = Frontend.Low)
    /\ (Transaction.amount r <> None -> Transaction.date r <> None ->
        Frontend.getConfidenceLabel (Transaction.confidence r) <> Frontend.Low).
Proof.
  unfold Transaction.parseTransactionTextWithRegex.
  destruct (FallbackFacts.amount_loop_normal text FallbackFacts.amountPatterns_set_group)
    as [a [Ha _]].
  rewrite Ha. clear Ha.
  generalize (Transaction.date_loop newDate Transaction.datePatterns text).
  intros dt.
  generalize (description_loop_nonempty text).
  generalize (Transaction.description_loop (Transaction.nonblank_lines text)).
  intros dl Hdl.
  generalize (Transaction.category_loop Transaction.categoryKeywords
                                        (toLowerCase text)).
  intros ct.
  generalize (Transaction.nonblank_lines text). intros lines.
  destruct a as [n|], dt as [z|], dl as [[|c d0]|], lines as [|line0 lines],
           ct as [cat|];
    try (exfalso; apply Hdl; reflexivity);
    cbn [Js.bind Transaction.no_description Nat.ltb Nat.leb];
    eexists; (split; [reflexivity|]);
    cbn [Transaction.confidence Transaction.amount Transaction.date
         Transaction.description];
    (split; [intros H; first [vm_compute in H; discriminate H
                             | repeat split; discriminate]|]);
    (split; [intros H1 H2; first [discriminate | vm_compute; reflexivity]|]);
    intros H1 H2;
    first [exfalso; apply H1; reflexivity
          | exfalso; apply H2; reflexivity
          | vm_compute; discriminate].
Qed.

(* ================================================================= *)
(** ** The route guard of the frontend *)

Module GuardFacts.
Import Frontend.


End GuardFacts.

Import Frontend GuardFacts.



Module RemovalFacts.
Import Organization OrganizationProps OrganizationFacts.

Lemma find_remove_first_other (f g : Member -> bool) l :
  (forall m, f m = true -> g m = false) ->
  find g (remove_first f l) = find g l.
Proof.
  intros H. induction l as [|m l IH]; simpl; [reflexivity|].
  destruct (f m) eqn:E.
  - rewrite (H m E). reflexivity.
  - simpl. rewrite IH. reflexivity.
Qed.

Lemma find_remove_first_same u o l :
  NoDup (map (fun m => (m_userId m, m_organizationId m)) l) ->
  find (is_member u o) (remove_first (is_member u o) l) = None.
Proof.
  induction l as [|m l IH]; simpl; intros Hnd; [reflexivity|].
  inversion Hnd as [|x xs Hnotin Hnd']. subst.
  destruct (is_member u o m) eqn:E.
  - apply find_member_none. intros m' Hin.
    destruct (is_member u o m') eqn:E'; [|reflexivity].
    exfalso. apply Hnotin. apply is_member_iff in E. apply is_member_iff in E'.
    apply in_map_iff. exists m'. split; [|exact Hin].
    destruct E as [-> ->]. destruct E' as [-> ->]. reflexivity.
  - simpl. rewrite E. apply IH. exact Hnd'.
Qed.

End RemovalFacts.

Import RemovalFacts.

(** X24.  Removal is gated on admin only.  A requester who passes the admin
    check can remove any member of the organization, the owner and themselves
    included: the route answers 200, the member removed has no access
    afterwards, and every other membership is as before. *)
Theorem admin_can_remove_anyone db requester id target :
  memberships_unique db ->
  hasOrganizationRole db requester id admin = true ->
  hasOrganizationAccess db target id = true ->
  let result := remove_member_route db requester id target in
  snd result = 200
  /\ hasOrganizationAccess (fst result) target id = false
  /\ (forall need, hasOrganizationRole (fst result) target id need = false)
  /\ forall u o,
      (u, o) <> (target, id) ->
      findUnique_member (fst result) u o = findUnique_member db u o.
Proof.
  intros Huniq Hadmin Hacc result. unfold result, remove_member_route.
  rewrite Hadmin. cbn [negb].
  unfold removeUserFromOrganization, hasOrganizationAccess, hasOrganizationRole,
         findUnique_member in *.
  destruct (find (is_member target id) (members db)) as [m|] eqn:E;
    [|discriminate].
  cbn [fst snd members].
  rewrite (@find_remove_first_same target id (members db) Huniq).
  split; [reflexivity|]. split; [reflexivity|]. split; [reflexivity|].
  intros u o Hne. apply find_remove_first_other.
  intros m' Hm'. destruct (is_member u o m') eqn:E'; [|reflexivity].
  exfalso. apply Hne. apply is_member_iff in Hm'. apply is_member_iff in E'.
  destruct Hm' as [<- <-]. destruct E' as [<- <-]. reflexivity.
Qed.

Lemma admin_can_remove_anyone_witness :
  let result := remove_member_route acme (js "adam") (js "org1") (js "olga") in
  snd result = 200
  /\ hasOrganizationAccess (fst result) (js "olga") (js "org1") = false
  /\ hasOrganizationAccess (fst result) (js "mia") (js "org1") = true.
Proof.
  intros result.
  assert (Huniq : memberships_unique acme).
  { unfold memberships_unique. simpl.
    repeat (constructor;
            [simpl; intros H;
             repeat (destruct H as [H|H]; [vm_compute in H; discriminate|]);
             contradiction|]).
    constructor. }
  destruct (@admin_can_remove_anyone acme (js "adam") (js "org1") (js "olga")
              Huniq eq_refl eq_refl) as [H1 [H2 [_ H4]]].
  split; [exact H1|]. split; [exact H2|].
  assert (Hother : (js "mia", js "org1") <> (js "olga", js "org1"))
    by (vm_compute; discriminate).
  pose proof (H4 (js "mia") (js "org1") Hother) as H5.
  unfold hasOrganizationAccess. subst result. rewrite H5. reflexivity.
Defined.

(* ================================================================= *)
(** ** The amount patterns: what a capture can be *)

Module SoundFacts.
Import Regex Props RegexFacts AmountProps.

Lemma captures_ok_clear text number gs x :
  captures_ok text number (caps x) ->
  captures_ok text number (caps (clear_caps gs x)).
Proof.
  unfold captures_ok, clear_caps. simpl. intros H.
  apply Forall_forall. intros kv Hin. apply filter_In in Hin.
  rewrite Forall_forall in H. apply H. tauto.
Qed.

Lemma repeat_matcher_sound text number r1 m gs greedy c
      (Hm : sound text number r1 m) :
  forall fuel min max x z,
    (exists pre, text = pre ++ rest x) ->
    captures_ok text number (caps x) ->
    repeat_matcher m gs greedy c fuel min max x = Some z ->
    exists y ws,
      c y = Some z /\ rest x = concat ws ++ rest y /\ Forall (matches r1) ws
      /\ match max with
         | Some k => length ws <= k /\ (min <= k -> min <= length ws)
         | None => min <= length ws
         end
      /\ captures_ok text number (caps y).
Proof.
  induction fuel as [|fuel IH]; intros min max x z Hpre Hcaps H; simpl in H;
    [discriminate|].
  assert (Hstop : min = 0 \/ max = Some 0 -> c x = Some z ->
                  exists y ws,
                    c y = Some z /\ rest x = concat ws ++ rest y
                    /\ Forall (matches r1) ws
                    /\ match max with
                       | Some k => length ws <= k /\ (min <= k -> min <= length ws)
                       | None => min <= length ws
                       end
                    /\ captures_ok text number (caps y)).
  { intros Hmin Hc. exists x, []. split; [exact Hc|]. split; [reflexivity|].
    split; [constructor|]. split; [|exact Hcaps].
    destruct max as [k|]; simpl; destruct Hmin as [->|Hk]; try lia;
      try discriminate. inversion Hk. lia. }
  assert (Hiter :
            max <> Some 0 ->
            m (clear_caps gs x)
              (fun y => if Nat.eqb min 0 && Nat.eqb (length (rest y)) (length (rest x))
                        then None
                        else repeat_matcher m gs greedy c fuel (Nat.pred min)
                                            (option_map Nat.pred max) y) = Some z ->
            exists y ws,
              c y = Some z /\ rest x = concat ws ++ rest y
              /\ Forall (matches r1) ws
              /\ match max with
                 | Some k => length ws <= k /\ (min <= k -> min <= length ws)
                 | None => min <= length ws
                 end
              /\ captures_ok text number (caps y)).
  { intros Hmax Hd. apply Hm in Hd; [|exact Hpre|apply captures_ok_clear; exact Hcaps].
    destruct Hd as [y1 [w1 [Hy1 [Hr1 [Hw1 Hc1]]]]]. simpl in Hr1.
    destruct (Nat.eqb min 0 && Nat.eqb (length (rest y1)) (length (rest x)));
      [discriminate|].
    apply IH in Hy1; [|destruct Hpre as [pre Hpre]; exists (pre ++ w1);
                        rewrite Hpre, Hr1, app_assoc; reflexivity|exact Hc1].
    destruct Hy1 as [y [ws [Hy [Hr [Hws [Hb Hc]]]]]].
    exists y, (w1 :: ws). split; [exact Hy|]. split.
    { simpl. rewrite Hr1, Hr, app_assoc. reflexivity. }
    split; [constructor; assumption|]. split; [|exact Hc].
    destruct max as [[|k]|]; simpl in *; [congruence| |]; lia. }
  destruct max as [[|k]|]; [apply Hstop; [right; reflexivity|exact H]| |];
    (destruct min as [|min'];
     [cbn [Nat.eqb negb] in H;
      destruct greedy; apply orelse_some in H; destruct H as [H|H];
      first [apply Hstop; [left; reflexivity|exact H]
            | apply Hiter; [discriminate|exact H]]
     |cbn [Nat.eqb negb] in H; apply Hiter; [discriminate|exact H]]).
Qed.

Lemma matcher_sound text number len0 r :
  groups_enclose number r -> sound text number r (matcher len0 r).
Proof.
  induction r as [|p|r1 IH1 r2 IH2|r1 IH1 r2 IH2|r1 IH1 min max greedy|j r1 IH1| |];
    intros Hg x c z Hpre Hcaps H;
    [simpl in H|simpl in H|simpl in H|simpl in H|rewrite matcher_Repeat in H
     |simpl in H|simpl in H|simpl in H].
  - exists x, []. simpl. auto.
  - destruct (rest x) as [|ch s'] eqn:E; [discriminate|].
    destruct (p ch) eqn:Ep; [|discriminate].
    exists {| rest := s'; caps := caps x |}, [ch]. simpl.
    split; [exact H|]. split; [reflexivity|]. split; [|exact Hcaps].
    exists ch. auto.
  - destruct Hg as [Hg1 Hg2].
    apply (IH1 Hg1) in H; [|exact Hpre|exact Hcaps].
    destruct H as [y1 [w1 [H [Hr1 [Hw1 Hc1]]]]].
    apply (IH2 Hg2) in H;
      [|destruct Hpre as [pre Hpre]; exists (pre ++ w1);
        rewrite Hpre, Hr1, app_assoc; reflexivity|exact Hc1].
    destruct H as [y2 [w2 [H [Hr2 [Hw2 Hc2]]]]].
    exists y2, (w1 ++ w2). split; [exact H|]. split.
    { rewrite Hr1, Hr2, app_assoc. reflexivity. }
    split; [|exact Hc2]. simpl. exists w1, w2. auto.
  - destruct Hg as [Hg1 Hg2]. apply orelse_some in H.
    destruct H as [H|H];
      [apply (IH1 Hg1) in H|apply (IH2 Hg2) in H]; try assumption;
      destruct H as [y [w [H [Hr [Hw Hc]]]]];
      exists y, w; simpl; auto.
  - simpl in Hg.
    apply (@repeat_matcher_sound text number r1 (matcher len0 r1) (groups_of r1)
                                 greedy c (IH1 Hg)) in H;
      [|exact Hpre|exact Hcaps].
    destruct H as [y [ws [H [Hr [Hws [Hb Hc]]]]]].
    exists y, (concat ws). split; [exact H|]. split; [exact Hr|].
    split; [|exact Hc]. simpl. exists ws. auto.
  - destruct Hg as [Hn Hg].
    apply (IH1 Hg) in H; [|exact Hpre|exact Hcaps].
    destruct H as [y [w [H [Hr [Hw Hc]]]]].
    eexists. exists w. split; [exact H|]. simpl. split; [exact Hr|].
    split; [exact Hw|].
    assert (Hcut : firstn (length (rest x) - length (rest y)) (rest x) = w).
    { rewrite Hr, length_app.
      replace (length w + length (rest y) - length (rest y)) with (length w) by lia.
      rewrite firstn_app, Nat.sub_diag, firstn_all. simpl. apply app_nil_r. }
    rewrite Hcut. constructor; [|exact Hc]. simpl. split.
    + destruct Hpre as [pre Hpre]. exists pre, (rest y). rewrite Hpre, Hr.
      reflexivity.
    + rewrite <- Hn. exact Hw.
  - destruct (Nat.eqb (length (rest x)) len0); [|discriminate].
    exists x, []. simpl. auto.
  - destruct (rest x) eqn:E; [|discriminate].
    exists x, []. simpl. rewrite E. auto.
Qed.

End SoundFacts.

Module NumberFacts.
Import Regex Js Transaction Props RegexFacts FallbackFacts AmountProps SoundFacts.

Lemma exec_from_sound text number p len0 :
  groups_enclose number p ->
  forall s m,
    (exists pre, text = pre ++ s) ->
    exec_from p len0 s = Some m ->
    captures_ok text number (groups m).
Proof.
  intros Hg. induction s as [|ch s IH]; intros m Hpre H; simpl in H.
  - destruct (matcher len0 p {| rest := []; caps := [] |} Some) as [y|] eqn:E;
      [|discriminate].
    apply (@matcher_sound text number len0 p Hg) in E;
      [|exact Hpre|constructor].
    destruct E as [y' [w [Hy [_ [_ Hc]]]]]. inversion Hy. subst y'.
    inversion H. subst m. exact Hc.
  - destruct (matcher len0 p {| rest := ch :: s; caps := [] |} Some) as [y|] eqn:E.
    + apply (@matcher_sound text number len0 p Hg) in E;
        [|exact Hpre|constructor].
      destruct E as [y' [w [Hy [_ [_ Hc]]]]]. inversion Hy. subst y'.
      inversion H. subst m. exact Hc.
    + apply IH; [|exact H]. destruct Hpre as [pre Hpre].
      exists (pre ++ [ch]). rewrite <- app_assoc. exact Hpre.
Qed.

(** The value of a group of a match is a word of the number the groups
    enclose, and occurs in the text. *)
Lemma capture_is_number number p text m i g :
  groups_enclose number p ->
  exec p text = Some m -> group i m = Some g ->
  occurs_in text g /\ matches number g.
Proof.
  intros Hg He Hgr. unfold exec in He.
  apply (@exec_from_sound text number p (length text) Hg) in He;
    [|exists []; reflexivity].
  unfold group in Hgr.
  destruct (find (fun kv => Nat.eqb (fst kv) i) (groups m)) as [kv|] eqn:Ef;
    [|discriminate].
  inversion Hgr. subst g. apply find_some in Ef. destruct Ef as [Hin _].
  unfold captures_ok in He. rewrite Forall_forall in He. exact (He kv Hin).
Qed.

Lemma matches_opt_chr c u : matches (opt (chr c)) u -> u = [] \/ u = [c].
Proof.
  simpl. intros [ws [-> [Hws [Hlen _]]]].
  destruct ws as [|w [|w' ws]]; simpl in Hlen; [left; reflexivity| |lia].
  right. inversion Hws as [|? ? [ch [-> Hch]] _]. subst. simpl.
  apply N.eqb_eq in Hch. subst. reflexivity.
Qed.

Lemma matches_digits a b u :
  a <= b -> matches (times a b digit) u ->
  Forall (fun c => JsString.is_digit c = true) u /\ a <= length u <= b.
Proof.
  simpl. intros Hab [ws [-> [Hws [Hmax Hmin]]]]. specialize (Hmin Hab).
  assert (H : Forall (fun c => JsString.is_digit c = true) (concat ws)
              /\ length (concat ws) = length ws).
  { clear Hmax Hmin. induction Hws as [|w ws [ch [-> Hch]] _ [IH1 IH2]]; simpl.
    - split; [constructor|reflexivity].
    - split; [constructor; assumption|]. rewrite IH2. reflexivity. }
  destruct H as [H1 H2]. split; [exact H1|]. lia.
Qed.

Lemma matches_separated k u :
  1 <= k -> matches (star (seq [chr 44; times k k digit])) u ->
  u = [] \/ exists d r, u = 44%N :: d :: r /\ JsString.is_digit d = true.
Proof.
  intros Hk. unfold star, seq. cbn [fold_right matches].
  intros [ws [-> [Hws _]]].
  destruct ws as [|w ws]; [left; reflexivity|]. right.
  inversion Hws as [|? ? Hw _]. subst.
  destruct Hw as [u1 [v1 [-> [[ch [-> Hch]] [u2 [v2 [-> [Hd Hv2]]]]]]]].
  apply N.eqb_eq in Hch. subst ch.
  apply matches_digits in Hd; [|lia]. destruct Hd as [Hd Hlen].
  destruct u2 as [|d u2]; [simpl in Hlen; lia|].
  inversion Hd. subst. simpl. eexists. eexists. split; [reflexivity|assumption].
Qed.

Lemma matches_fraction u :
  matches (opt (seq [chr 46; times 2 2 digit])) u ->
  u = []
  \/ exists a b, u = [46%N; a; b]
                 /\ JsString.is_digit a = true /\ JsString.is_digit b = true.
Proof.
  unfold opt, seq. cbn [fold_right matches].
  intros [ws [-> [Hws [Hlen _]]]].
  destruct ws as [|w [|w' ws]]; simpl in Hlen; [left; reflexivity| |lia].
  right. inversion Hws as [|? ? Hw _]. subst.
  destruct Hw as [u1 [v1 [-> [[ch [-> Hch]] [u2 [v2 [-> [Hd Hv2]]]]]]]].
  apply N.eqb_eq in Hch. subst ch. subst v2.
  apply matches_digits in Hd; [|lia]. destruct Hd as [Hd Hl].
  destruct u2 as [|a [|b [|c u2]]]; simpl in Hl; try lia.
  inversion Hd as [|? ? Ha Hd']. inversion Hd' as [|? ? Hb _]. subst.
  exists a, b. simpl. auto.
Qed.

Lemma has_separator_at pre d post :
  JsString.is_digit d = true -> has_separator (pre ++ 44%N :: d :: post) = true.
Proof.
  intros Hd. induction pre as [|c pre IH].
  - simpl. rewrite Hd. reflexivity.
  - change ((c :: pre) ++ 44%N :: d :: post)
      with (c :: (pre ++ 44%N :: d :: post)).
    cbn [has_separator]. fold has_separator.
    destruct (pre ++ 44%N :: d :: post) as [|e s'] eqn:E.
    + destruct pre; discriminate.
    + rewrite IH. apply orb_true_r.
Qed.

Lemma not_separated text pre u post :
  has_separator text = false ->
  text = pre ++ u ++ post ->
  u = [] \/ (exists d r, u = 44%N :: d :: r /\ JsString.is_digit d = true) ->
  u = [].
Proof.
  intros Hs Ht [Hu|[d [r [Hu Hd]]]]; [exact Hu|]. exfalso.
  subst u. simpl in Ht. rewrite Ht in Hs.
  rewrite (@has_separator_at pre d (r ++ post) Hd) in Hs. discriminate.
Qed.

Lemma indian_plain n text w :
  1 <= n ->
  has_separator text = false ->
  occurs_in text w ->
  matches (indian_number n) w ->
  plain_number n w.
Proof.
  intros Hn Hs [pre [post Ht]]. unfold indian_number, seq.
  cbn [fold_right matches].
  intros [u1 [v1 [-> [H1 [u2 [v2 [-> [H2 [u3 [v3 [-> [H3 [u4 [v4 [-> [H4
          [u5 [v5 [-> [H5 ->]]]]]]]]]]]]]]]]]]]].
  apply matches_opt_chr in H1. apply matches_digits in H2; [|exact Hn].
  apply matches_separated in H3; [|lia].
  apply matches_separated in H4; [|lia].
  apply matches_fraction in H5.
  assert (E3 : u3 = []).
  { apply (@not_separated text (pre ++ u1 ++ u2) u3
                          (u4 ++ u5 ++ [] ++ post) Hs); [|exact H3].
    rewrite Ht. rewrite <- !app_assoc. reflexivity. }
  subst u3.
  assert (E4 : u4 = []).
  { apply (@not_separated text (pre ++ u1 ++ u2) u4 (u5 ++ [] ++ post) Hs);
      [|exact H4].
    rewrite Ht. rewrite <- !app_assoc. reflexivity. }
  subst u4.
  exists u1, u2, u5. simpl. rewrite app_nil_r.
  split; [reflexivity|]. split; [exact H1|]. destruct H2 as [H2 H2'].
  split; [exact H2|]. split; [exact H2'|exact H5].
Qed.

Lemma western_plain text w :
  has_separator text = false ->
  occurs_in text w ->
  matches western_number w ->
  plain_number 3 w.
Proof.
  intros Hs [pre [post Ht]]. unfold western_number, seq.
  cbn [fold_right matches].
  intros [u1 [v1 [-> [H1 [u2 [v2 [-> [H2 [u3 [v3 [-> [H3
          [u5 [v5 [-> [H5 ->]]]]]]]]]]]]]]]].
  apply matches_opt_chr in H1. apply matches_digits in H2; [|lia].
  apply matches_separated in H3; [|lia].
  apply matches_fraction in H5.
  assert (E3 : u3 = []).
  { apply (@not_separated text (pre ++ u1 ++ u2) u3 (u5 ++ [] ++ post) Hs);
      [|exact H3].
    rewrite Ht. rewrite <- !app_assoc. reflexivity. }
  subst u3.
  exists u1, u2, u5. simpl. rewrite app_nil_r.
  split; [reflexivity|]. split; [exact H1|]. destruct H2 as [H2 H2'].
  split; [exact H2|]. split; [exact H2'|exact H5].
Qed.

Lemma repeat_optional_some m gs c fuel max x :
  c x <> None -> repeat_matcher m gs true c (S fuel) 0 max x <> None.
Proof.
  intros Hc. cbn [repeat_matcher Nat.eqb negb andb].
  destruct max as [[|k]|]; [exact Hc| |];
    unfold orelse; destruct (m _ _); try discriminate; exact Hc.
Qed.

Lemma optional_some len0 r max x c :
  c x <> None -> matcher len0 (Repeat r 0 max true) x c <> None.
Proof.
  intros Hc. rewrite matcher_Repeat. apply repeat_optional_some. exact Hc.
Qed.

(** The first amount pattern matches wherever a unit of its class is
    directly followed by a digit. *)
Lemma first_pattern_at len0 c d post :
  one_of (js "₹Rs.") c = true -> JsString.is_digit d = true ->
  matcher len0 (hd Empty amountPatterns)
          {| rest := c :: d :: post; caps := [] |} Some <> None.
Proof.
  intros Hc Hd.
  change (hd Empty amountPatterns)
    with (Seq (Char (one_of (js "₹Rs.")))
              (Seq (star space) (Seq (Group 1 (indian_number 2)) Empty))).
  cbn [matcher rest caps]. rewrite Hc.
  apply optional_some.
  cbn [matcher rest caps].
  change (indian_number 2)
    with (Seq (opt (chr 45))
              (Seq (times 1 2 digit)
                   (Seq (star (seq [chr 44; times 2 2 digit]))
                        (Seq (star (seq [chr 44; times 3 3 digit]))
                             (Seq (opt (seq [chr 46; times 2 2 digit])) Empty))))).
  cbn [matcher]. apply optional_some.
  unfold times at 1. rewrite matcher_Repeat.
  cbn [repeat_matcher Nat.eqb negb andb plus rest length clear_caps caps filter
       Nat.pred option_map Nat.add].
  unfold digit at 1.
  cbn [matcher rest caps clear_caps groups_of filter]. rewrite Hd.
  unfold orelse.
  match goal with |- context [matcher len0 digit ?x ?k] =>
    destruct (matcher len0 digit x k); [discriminate|]
  end.
  apply optional_some. apply optional_some. apply optional_some.
  discriminate.
Qed.

Lemma first_pattern_matches len0 s :
  has_sign_before_digit s = true ->
  exec_from (hd Empty amountPatterns) len0 s <> None.
Proof.
  induction s as [|c s IH]; [discriminate|].
  cbn [has_sign_before_digit]. fold has_sign_before_digit.
  destruct s as [|d post]; [discriminate|].
  intros H. cbn [exec_from].
  destruct (matcher len0 (hd Empty amountPatterns)
                    {| rest := c :: d :: post; caps := [] |} Some) eqn:E;
    [discriminate|].
  apply orb_true_iff in H. destruct H as [H|H].
  - apply andb_true_iff in H. destruct H as [Hc Hd].
    exfalso. exact (@first_pattern_at len0 c d post Hc Hd E).
  - apply IH. exact H.
Qed.

Lemma digit_range c :
  JsString.is_digit c = true -> (48 <= c <= 57)%N.
Proof.
  unfold JsString.is_digit. rewrite andb_true_iff, !N.leb_le. tauto.
Qed.

Lemma not_digit c : (c < 48)%N -> JsString.is_digit c = false.
Proof.
  intros H. unfold JsString.is_digit.
  destruct (N.leb_spec 48 c); [lia|reflexivity].
Qed.

Lemma take_digits_app ds r :
  Forall (fun c => JsString.is_digit c = true) ds ->
  match r with c :: _ => JsString.is_digit c = false | [] => True end ->
  take_digits (ds ++ r) = (map (fun c => Z.of_N (c - 48)) ds, r).
Proof.
  intros Hds Hr. induction Hds as [|d ds Hd _ IH]; cbn [app map].
  - destruct r as [|c r]; [reflexivity|]. cbn [take_digits]. rewrite Hr.
    reflexivity.
  - cbn [take_digits]. rewrite Hd, IH. reflexivity.
Qed.

Lemma digits_value_from acc vs :
  Forall (fun v => 0 <= v <= 9)%Z vs ->
  (0 <= acc)%Z ->
  (acc * 10 ^ Z.of_nat (length vs)
   <= fold_left (fun a d => a * 10 + d) vs acc
   < (acc + 1) * 10 ^ Z.of_nat (length vs))%Z.
Proof.
  intros H. revert acc. induction H as [|v vs Hv _ IH]; intros acc Hacc.
  - simpl. lia.
  - cbn [fold_left length]. rewrite Nat2Z.inj_succ, Z.pow_succ_r by lia.
    specialize (IH (acc * 10 + v)%Z ltac:(lia)).
    assert (0 < 10 ^ Z.of_nat (length vs))%Z by (apply Z.pow_pos_nonneg; lia).
    nia.
Qed.

Lemma digits_value_bound ds :
  Forall (fun c => JsString.is_digit c = true) ds ->
  (0 <= digits_value (map (fun c => Z.of_N (c - 48)) ds)
   < 10 ^ Z.of_nat (length ds))%Z.
Proof.
  intros H. unfold digits_value.
  assert (Hv : Forall (fun v => 0 <= v <= 9)%Z
                      (map (fun c => Z.of_N (c - 48)) ds)).
  { apply Forall_forall. intros v Hin. apply in_map_iff in Hin.
    destruct Hin as [c [<- Hin]]. rewrite Forall_forall in H.
    pose proof (@digit_range c (H c Hin)). lia. }
  pose proof (@digits_value_from 0%Z _ Hv ltac:(lia)) as Hb.
  rewrite length_map in Hb. lia.
Qed.

Lemma Qlt_ltb x y : (x < y)%Q -> ltb (Fin x) (Fin y) = true.
Proof.
  intros H. unfold ltb. destruct (Qle_bool y x) eqn:E; [|reflexivity].
  apply Qle_bool_iff in E. exfalso. exact (Qlt_not_le _ _ H E).
Qed.

(** The value read from the digits and the fraction of a plain number. *)
Lemma decimal_plain n neg ds frac :
  Forall (fun c => JsString.is_digit c = true) ds ->
  1 <= length ds <= n ->
  (frac = []
   \/ exists a b, frac = [46%N; a; b]
                  /\ JsString.is_digit a = true /\ JsString.is_digit b = true) ->
  exists q,
    decimal neg (ds ++ frac) = Fin (if neg then Qopp q else q)
    /\ (0 <= q)%Q /\ (q < inject_Z (10 ^ Z.of_nat n))%Q.
Proof.
  intros Hds Hlen Hfrac. unfold decimal.
  rewrite take_digits_app;
    [|exact Hds
     |destruct Hfrac as [->|[a [b [-> _]]]]; [exact I|reflexivity]].
  pose proof (@digits_value_bound ds Hds) as Hip.
  set (ip := map (fun c => Z.of_N (c - 48)) ds) in *.
  assert (Hne : ip <> []).
  { unfold ip. destruct ds; [simpl in Hlen; lia|discriminate]. }
  assert (Hpow : (10 ^ Z.of_nat (length ds) <= 10 ^ Z.of_nat n)%Z).
  { apply Z.pow_le_mono_r; lia. }
  assert (Hfp : exists fp,
             match frac with 46%N :: r => fst (take_digits r) | _ => [] end = fp
             /\ (0 <= digits_value fp < 10 ^ Z.of_nat (length fp))%Z).
  { destruct Hfrac as [->|[a [b [-> [Ha Hb]]]]].
    - exists []. split; [reflexivity|]. vm_compute. split; [discriminate|reflexivity].
    - eexists. split; [reflexivity|].
      assert (Hab : Forall (fun c => JsString.is_digit c = true) [a; b])
        by (repeat constructor; assumption).
      pose proof (@take_digits_app [a; b] [] Hab I) as Ht.
      rewrite app_nil_r in Ht. rewrite Ht. cbn [fst].
      pose proof (@digits_value_bound [a; b] Hab) as Hb'.
      rewrite length_map. exact Hb'. }
  destruct Hfp as [fp [-> Hfp]].
  set (scale := (10 ^ Z.of_nat (length fp))%Z) in *.
  assert (Hscale : (0 < scale)%Z) by (apply Z.pow_pos_nonneg; lia).
  exists (Qred (Qmake (digits_value ip * scale + digits_value fp)
                      (Z.to_pos scale))).
  split.
  - destruct ip as [|v ip']; [contradiction|]. destruct fp; reflexivity.
  - split.
    + rewrite Qred_correct. unfold Qle. simpl. nia.
    + rewrite Qred_correct. unfold Qlt. simpl.
      rewrite Z2Pos.id by exact Hscale. nia.
Qed.

Lemma parseFloat_minus r : parseFloat (45%N :: r) = decimal true r.
Proof. reflexivity. Qed.

Lemma parseFloat_digit c r :
  JsString.is_digit c = true -> parseFloat (c :: r) = decimal false (c :: r).
Proof.
  intros H. pose proof (@digit_range c H) as Hr.
  assert (Hc : (c = 48 \/ c = 49 \/ c = 50 \/ c = 51 \/ c = 52 \/ c = 53
                \/ c = 54 \/ c = 55 \/ c = 56 \/ c = 57)%N) by lia.
  repeat (destruct Hc as [->|Hc]; [reflexivity|]). subst c. reflexivity.
Qed.

(** The amount read from a plain number with at most [n] digits before the
    point is below [10 ^ n]. *)
Lemma plain_number_value n g :
  plain_number n g ->
  exists q,
    abs (parseFloat (JsString.remove_all 44 g)) = Fin q
    /\ (0 <= q)%Q /\ (q < inject_Z (10 ^ Z.of_nat n))%Q.
Proof.
  intros [sign [ds [frac [-> [Hsign [Hds [Hlen Hfrac]]]]]]].
  assert (Hkeep : JsString.remove_all 44 (sign ++ ds ++ frac)
                  = sign ++ ds ++ frac).
  { unfold JsString.remove_all. rewrite !filter_app.
    assert (H1 : filter (fun x => negb (x =? 44)%N) sign = sign)
      by (destruct Hsign as [->| ->]; reflexivity).
    assert (H2 : filter (fun x => negb (x =? 44)%N) ds = ds).
    { clear Hlen. induction Hds as [|d ds Hd _ IH]; simpl; [reflexivity|].
      pose proof (@digit_range d Hd).
      destruct (N.eqb_spec d 44); [lia|]. simpl. rewrite IH. reflexivity. }
    assert (H3 : filter (fun x => negb (x =? 44)%N) frac = frac).
    { destruct Hfrac as [->|[a [b [-> [Ha Hb]]]]]; [reflexivity|]. simpl.
      pose proof (@digit_range a Ha). pose proof (@digit_range b Hb).
      destruct (N.eqb_spec a 44); [lia|]. destruct (N.eqb_spec b 44); [lia|].
      reflexivity. }
    rewrite H1, H2, H3. reflexivity. }
  rewrite Hkeep.
  destruct Hsign as [->| ->].
  - destruct ds as [|d ds]; [simpl in Hlen; lia|].
    assert (Hd : JsString.is_digit d = true) by (inversion Hds; assumption).
    change ([] ++ (d :: ds) ++ frac) with (d :: ds ++ frac).
    rewrite (@parseFloat_digit d (ds ++ frac) Hd).
    change (d :: ds ++ frac) with ((d :: ds) ++ frac).
    destruct (@decimal_plain n false (d :: ds) frac Hds Hlen Hfrac)
      as [q [Hq [H0 Hb]]].
    rewrite Hq. exists (Qabs q). split; [reflexivity|].
    rewrite (Qabs_pos _ H0). auto.
  - change ([45%N] ++ ds ++ frac) with (45%N :: ds ++ frac).
    rewrite parseFloat_minus.
    destruct (@decimal_plain n true ds frac Hds Hlen Hfrac) as [q [Hq [H0 Hb]]].
    rewrite Hq. exists (Qabs (- q)). split; [reflexivity|].
    rewrite Qabs_opp, (Qabs_pos _ H0). auto.
Qed.

Lemma plain_number_le n n' g : n <= n' -> plain_number n g -> plain_number n' g.
Proof.
  intros Hn [sign [ds [frac [H1 [H2 [H3 [H4 H5]]]]]]].
  exists sign, ds, frac. repeat split; try assumption; lia.
Qed.

Lemma amount_loop_inv patterns text a :
  amount_loop patterns text = Normal (Some a) ->
  exists p m g,
    In p patterns /\ exec p text = Some m /\ group 1 m = Some g
    /\ a = abs (parseFloat (JsString.remove_all 44 g)).
Proof.
  induction patterns as [|p ps IH]; cbn [amount_loop]; [discriminate|].
  destruct (exec p text) as [m|] eqn:E.
  - destruct (group 1 m) as [g|] eqn:G; [|discriminate].
    intros H. inversion H. exists p, m, g. simpl. auto.
  - intros H. destruct (IH H) as [p' [m [g [Hin Hrest]]]].
    exists p', m, g. simpl. auto.
Qed.

Lemma number_has_no_group number n :
  groups_enclose number (indian_number n)
  /\ groups_enclose number western_number.
Proof.
  cbv [indian_number western_number seq fold_right groups_enclose opt times
       star chr digit].
  repeat split.
Qed.

Lemma first_pattern_encloses :
  groups_enclose (indian_number 2) (hd Empty amountPatterns).
Proof.
  cbv [hd amountPatterns seq fold_right]. cbn [groups_enclose].
  repeat split; try reflexivity;
    try apply (number_has_no_group (indian_number 2) 2).
Qed.

Lemma amountPatterns_enclose p :
  In p amountPatterns ->
  exists n,
    1 <= n <= 3
    /\ (groups_enclose (indian_number n) p \/ groups_enclose western_number p).
Proof.
  intros Hin. simpl in Hin.
  destruct Hin as [<-|[<-|[<-|[<-|[<-|[]]]]]].
  - exists 2. split; [lia|]. left. exact first_pattern_encloses.
  - exists 2. split; [lia|]. left.
    cbv [seq fold_right]. cbn [groups_enclose].
    repeat split; try reflexivity;
      try apply (number_has_no_group (indian_number 2) 2);
      try (vm_compute; tauto).
  - exists 3. split; [lia|]. left.
    cbv [seq fold_right]. cbn [groups_enclose].
    repeat split; try reflexivity;
      try apply (number_has_no_group (indian_number 3) 3);
      try (vm_compute; tauto).
  - exists 3. split; [lia|]. right.
    cbv [seq fold_right chr]. cbn [groups_enclose].
    repeat split; try reflexivity;
      try apply (number_has_no_group western_number 0).
  - exists 3. split; [lia|]. left.
    cbv [seq fold_right]. cbn [groups_enclose].
    repeat split; try reflexivity;
      try apply (number_has_no_group (indian_number 3) 3).
Qed.

(** The number behind an amount, where the text has no separator. *)
Lemma capture_plain text p n m g :
  has_separator text = false ->
  1 <= n ->
  groups_enclose (indian_number n) p \/ groups_enclose western_number p ->
  exec p text = Some m -> group 1 m = Some g ->
  plain_number (Nat.max n 3) g.
Proof.
  intros Hs Hn [Hg|Hg] He Hgr;
    destruct (@capture_is_number _ p text m 1 g Hg He Hgr) as [Ho Hm].
  - apply (@plain_number_le n); [lia|].
    exact (@indian_plain n text g Hn Hs Ho Hm).
  - apply (@plain_number_le 3); [lia|].
    exact (@western_plain text g Hs Ho Hm).
Qed.

End NumberFacts.

Import Regex Js Transaction Props RegexFacts FallbackFacts AmountProps SoundFacts NumberFacts.

(** X25.  Amounts are only read in full when written with separators.  For a
    text in which no comma is directly followed by a digit, the amount of the
    fallback parser, when there is one, is below 1000: each pattern reads at
    most three digits before the point.  If moreover a rupee sign, an R, an s
    or a point is directly followed by a digit somewhere in the text, there is
    an amount and it is below 100: the first pattern applies and reads at most
    two digits. *)
Theorem amounts_without_separators newDate toLowerCase text :
  has_separator text = false ->
  exists r,
    parseTransactionTextWithRegex newDate toLowerCase text = Normal r
    /\ (forall a, amount r = Some a -> ltb a (Fin 1000) = true)
    /\ (has_sign_before_digit text = true ->
        exists a, amount r = Some a /\ ltb a (Fin 100) = true).
Proof.
  intros Hs.
  destruct (regex_parse_spec newDate toLowerCase text)
    as [r [q [H1 [_ [_ [_ [_ [_ [_ [_ [_ [Hloop _]]]]]]]]]]]].
  exists r. split; [exact H1|]. split.
  - intros a Ha. rewrite Ha in Hloop.
    apply amount_loop_inv in Hloop.
    destruct Hloop as [p [m [g [Hin [He [Hg ->]]]]]].
    destruct (@amountPatterns_enclose p Hin) as [n [Hn Hen]].
    pose proof (@capture_plain text p n m g Hs ltac:(lia) Hen He Hg) as Hp.
    replace (Nat.max n 3) with 3 in Hp by lia.
    destruct (@plain_number_value _ g Hp) as [v [Hv [_ Hb]]].
    rewrite Hv. apply Qlt_ltb. exact Hb.
  - intros Hsign.
    pose proof (@first_pattern_matches (length text) text Hsign) as Hm.
    change amountPatterns
      with (hd Empty amountPatterns :: tl amountPatterns) in Hloop.
    cbn [amount_loop] in Hloop. fold (exec (hd Empty amountPatterns) text) in Hm.
    destruct (exec (hd Empty amountPatterns) text) as [m|] eqn:He;
      [|contradiction].
    destruct (group 1 m) as [g|] eqn:Hg; [|discriminate].
    inversion Hloop as [Ha]. eexists. split; [reflexivity|].
    destruct (@capture_is_number _ _ text m 1 g first_pattern_encloses He Hg)
      as [Ho Hw].
    pose proof (@indian_plain 2 text g ltac:(lia) Hs Ho Hw) as Hp.
    destruct (@plain_number_value _ g Hp) as [v [Hv [_ Hb]]].
    rewrite Hv. apply Qlt_ltb. exact Hb.
Qed.

Lemma amounts_without_separators_witness :
  exists r,
    parseTransactionTextWithRegex Reference.newDate Reference.toLowerCase
                                  (js "Uber Ride 2024-12-15 ₹350.00")
    = Normal r
    /\ amount r = Some (Fin 35).
Proof.
  destruct (@amounts_without_separators
              Reference.newDate Reference.toLowerCase
              (js "Uber Ride 2024-12-15 ₹350.00") eq_refl)
    as [r [H1 [_ H3]]].
  exists r. split; [exact H1|].
  destruct (H3 eq_refl) as [a [Ha _]].
  vm_compute in H1. inversion H1. reflexivity.
Defined.

(* ================================================================= *)
(** ** Paging through the list *)

Module PagingFacts.
Import Js Store StoreProps StoreFacts TransactionRoutes.

Lemma firstn_add (A : Type) a b (l : list A) :
  firstn (a + b) l = firstn a l ++ firstn b (skipn a l).
Proof.
  revert l. induction a as [|a IH]; intros l; [reflexivity|].
  destruct l as [|x l]; simpl; [rewrite firstn_nil; reflexivity|].
  rewrite IH. reflexivity.
Qed.

(** The page that follows the first [k] rows. *)
Lemma next_page db org k fetched p :
  fetched = firstn 21 (skipn k (ordered_rows db org)) ->
  page_of 20 fetched p ->
  items p = firstn 20 (skipn k (ordered_rows db org))
  /\ if Nat.ltb (k + 20) (length (ordered_rows db org))
     then hasMore p = true
          /\ exists pre x, firstn (k + 20) (ordered_rows db org) = pre ++ [x]
                           /\ nextCursor p = Some (id x)
     else hasMore p = false /\ nextCursor p = None.
Proof.
  set (rows := ordered_rows db org). intros Hf Hp. unfold page_of in Hp.
  assert (Hlen : length fetched = Nat.min 21 (length rows - k)).
  { rewrite Hf, length_firstn, length_skipn. reflexivity. }
  change (20 + 1) with 21 in Hp.
  destruct (Nat.eqb (length fetched) 21) eqn:E.
  - apply Nat.eqb_eq in E. destruct Hp as [Hm [Hi [front [t [Hft Hc]]]]].
    assert (Hitems : items p = firstn 20 (skipn k rows)).
    { rewrite Hi, Hf, firstn_firstn. reflexivity. }
    split; [exact Hitems|].
    assert (Hlt : Nat.ltb (k + 20) (length rows) = true)
      by (apply Nat.ltb_lt; lia).
    rewrite Hlt. split; [exact Hm|].
    exists (firstn k rows ++ front), t. split; [|exact Hc].
    rewrite firstn_add, <- Hitems, Hft, app_assoc. reflexivity.
  - apply Nat.eqb_neq in E. destruct Hp as [Hm [Hi Hc]].
    assert (Hshort : length rows - k <= 20) by lia.
    split.
    + rewrite Hi, Hf. rewrite !firstn_all2 by (rewrite length_skipn; lia).
      reflexivity.
    + assert (Hlt : Nat.ltb (k + 20) (length rows) = false)
        by (apply Nat.ltb_ge; lia).
      rewrite Hlt. auto.
Qed.

(** One load brings the next twenty rows. *)
Lemma load_next w user org k st :
  org <> [] ->
  Organization.route_hasAccess (orgdb w) user org = true ->
  NoDup (map id (transactions w)) ->
  (forall t, In t (transactions w) -> id t <> []) ->
  (k = 0
   \/ (Nat.ltb k (length (ordered_rows (transactions w) org)) = true
       /\ TransactionsList.paged (ordered_rows (transactions w) org) k st)) ->
  TransactionsList.paged
    (ordered_rows (transactions w) org) (k + 20)
    (TransactionsList.loadTransactions
       w user org
       (if Nat.eqb k 0 then None else TransactionsList.nextCursor st)
       (negb (Nat.eqb k 0)) st).
Proof.
  intros Horg Ha Hnd Hnamed Hk.
  set (rows := ordered_rows (transactions w) org) in *.
  unfold TransactionsList.loadTransactions, list_route.
  change (parseInt10 (or_default (Some (js "20")) (js "20"))) with (Some 20%Z).
  cbv beta iota zeta.
  change ((20 <? 1)%Z || (100 <? 20)%Z) with false. cbv iota.
  destruct org as [|c0 s0]; [contradiction|].
  rewrite Ha. cbn [negb option_map]. change (Z.to_nat 20) with 20.
  assert (Hfetch :
            exists cursor,
              or_undefined (if Nat.eqb k 0 then None
                            else TransactionsList.nextCursor st) = cursor
              /\ cursor <> Some []
              /\ findMany (transactions w) (c0 :: s0) (20 + 1) cursor
                          (match cursor with Some _ => 1 | None => 0 end)
                 = firstn 21 (skipn k rows)).
  { destruct k as [|k'].
    - exists None. split; [reflexivity|]. split; [discriminate|].
      rewrite findMany_no_cursor. reflexivity.
    - destruct Hk as [Hk|[Hk [_ Hcur]]]; [discriminate|]. rewrite Hk in Hcur.
      destruct Hcur as [_ [pre [x [Hpre Hc]]]].
      assert (Hrows : rows = pre ++ x :: skipn (S k') rows).
      { rewrite <- (firstn_skipn (S k') rows) at 1. rewrite Hpre, <- app_assoc.
        reflexivity. }
      assert (Hin : In x (transactions w)).
      { apply (proj1 (@ordered_rows_in (transactions w) (c0 :: s0) x)).
        fold rows. rewrite Hrows. apply in_or_app. right. left. reflexivity. }
      pose proof (Hnamed x Hin) as Hx.
      cbn [Nat.eqb]. rewrite Hc.
      destruct (id x) as [|c1 s1] eqn:Eid; [contradiction|].
      exists (Some (c1 :: s1)). split; [reflexivity|]. split; [discriminate|].
      apply (@findMany_after_cursor (transactions w) (c0 :: s0) (20 + 1)
                                    (c1 :: s1) pre x (skipn (S k') rows)).
      + exact Hrows.
      + exact Eid.
      + pose proof (@ordered_rows_NoDup (transactions w) (c0 :: s0) Hnd) as Hn.
        fold rows in Hn. rewrite Hrows, map_app in Hn. cbn [map] in Hn.
        apply NoDup_remove_2 in Hn. rewrite <- Eid. intros Hin'. apply Hn.
        apply in_or_app. left. exact Hin'. }
  destruct Hfetch as [cursor [-> [Hne Hfetch]]].
  assert (Hfix : or_undefined cursor = cursor)
    by (destruct cursor as [[|? ?]|];
        [exfalso; apply Hne; reflexivity|reflexivity|reflexivity]).
  rewrite Hfix.
  destruct (@getTransactions_page (transactions w) (c0 :: s0) 20 cursor
                                  ltac:(lia) Hne) as [p [Hp Hpage]].
  rewrite Hp.
  assert (Hpage' : page_of 20 (firstn 21 (skipn k rows)) p)
    by (rewrite <- Hfetch; exact Hpage).
  destruct (@next_page (transactions w) (c0 :: s0) k _ p eq_refl Hpage')
    as [Hitems Hnext].
  fold rows in Hitems, Hnext.
  unfold TransactionsList.paged.
  cbn [TransactionsList.shown TransactionsList.nextCursor TransactionsList.hasMore].
  split; [|exact Hnext].
  rewrite firstn_add, Hitems.
  destruct k as [|k']; cbn [Nat.eqb negb]; [reflexivity|].
  destruct Hk as [Hk|[_ [Hshown _]]]; [discriminate|].
  rewrite Hshown. reflexivity.
Qed.

Lemma after_clicks_paged w user org clicks :
  org <> [] ->
  Organization.route_hasAccess (orgdb w) user org = true ->
  NoDup (map id (transactions w)) ->
  (forall t, In t (transactions w) -> id t <> []) ->
  TransactionsList.paged (ordered_rows (transactions w) org)
                         (20 * (clicks + 1))
                         (TransactionsList.after_clicks w user org clicks).
Proof.
  intros Horg Ha Hnd Hnamed.
  set (rows := ordered_rows (transactions w) org).
  induction clicks as [|n IH].
  - exact (@load_next w user org 0 TransactionsList.initial_state
                      Horg Ha Hnd Hnamed (or_introl eq_refl)).
  - unfold TransactionsList.after_clicks in *. rewrite Nat.iter_succ.
    set (st := Nat.iter n (TransactionsList.handleLoadMore w user org)
                        (TransactionsList.loadTransactions
                           w user org None false
                           TransactionsList.initial_state)) in *.
    replace (20 * (S n + 1)) with (20 * (n + 1) + 20) by lia.
    set (k := 20 * (n + 1)) in *.
    destruct (Nat.ltb k (length rows)) eqn:Hlt.
    + pose proof IH as [_ Hcur]. fold rows in Hcur. rewrite Hlt in Hcur.
      destruct Hcur as [_ [pre [x [Hpre Hc]]]].
      assert (Hin : In x (transactions w)).
      { apply (proj1 (@ordered_rows_in (transactions w) org x)). fold rows.
        rewrite <- (firstn_skipn k rows), Hpre.
        apply in_or_app. left. apply in_or_app. right. left. reflexivity. }
      pose proof (Hnamed x Hin) as Hx.
      pose proof (@load_next w user org k st Horg Ha Hnd Hnamed
                             (or_intror (conj Hlt IH))) as Hnext.
      unfold TransactionsList.handleLoadMore. rewrite Hc.
      destruct (id x) as [|c s] eqn:Eid; [contradiction|].
      assert (Hk0 : Nat.eqb k 0 = false) by (apply Nat.eqb_neq; unfold k; lia).
      rewrite Hk0, Hc in Hnext. exact Hnext.
    + destruct IH as [Hshown Hcur]. fold rows in Hshown, Hcur.
      rewrite Hlt in Hcur. destruct Hcur as [Hmore Hnone].
      unfold TransactionsList.handleLoadMore. rewrite Hnone.
      apply Nat.ltb_ge in Hlt.
      unfold TransactionsList.paged. fold rows.
      assert (Hlt' : Nat.ltb (k + 20) (length rows) = false)
        by (apply Nat.ltb_ge; lia).
      rewrite Hlt'. split; [|auto].
      rewrite Hshown, !firstn_all2 by lia. reflexivity.
Qed.


Lemma NoDup_map_injective (A B : Type) (f : A -> B) l :
  (forall x y, f x = f y -> x = y) -> NoDup l -> NoDup (map f l).
Proof.
  intros Hf H. induction H as [|x l Hx _ IH]; simpl; constructor; [|exact IH].
  intros Hin. apply in_map_iff in Hin. destruct Hin as [y [Hy Hin]].
  apply Hf in Hy. subst y. contradiction.
Qed.

End PagingFacts.

Import TransactionRoutes PagingFacts.

(** X26.  The list of the frontend shows every row once.  For a member of the
    organization, every load being answered by the list route, with the
    table unchanged between the loads and the
    identifiers distinct and not empty, the list shows after the first load
    and any number of uses of "load more" the first 20, 40, 60, ... rows of
    the organization, newest first, none skipped and none repeated; "load
    more" is offered exactly while rows are left, and once all rows are shown
    further uses change nothing. *)
Theorem load_more_shows_every_row w user org clicks :
  org <> [] ->
  Organization.route_hasAccess (orgdb w) user org = true ->
  NoDup (map Store.id (transactions w)) ->
  (forall t, In t (transactions w) -> Store.id t <> []) ->
  let st := TransactionsList.after_clicks w user org clicks in
  let rows := StoreProps.ordered_rows (transactions w) org in
  TransactionsList.shown st = firstn (20 * (clicks + 1)) rows
  /\ TransactionsList.hasMore st = Nat.ltb (20 * (clicks + 1)) (length rows)
  /\ (length rows <= 20 * (clicks + 1) ->
      TransactionsList.shown st = rows
      /\ TransactionsList.handleLoadMore w user org st = st).
Proof.
  intros Horg Ha Hnd Hnamed st rows.
  destruct (@after_clicks_paged w user org clicks Horg Ha Hnd Hnamed)
    as [Hshown Hcur].
  fold st rows in Hshown, Hcur.
  split; [exact Hshown|]. split.
  - destruct (Nat.ltb (20 * (clicks + 1)) (length rows)); tauto.
  - intros Hall.
    assert (Hlt : Nat.ltb (20 * (clicks + 1)) (length rows) = false)
      by (apply Nat.ltb_ge; lia).
    rewrite Hlt in Hcur. destruct Hcur as [_ Hnone]. split.
    + rewrite Hshown. apply firstn_all2. lia.
    + unfold TransactionsList.handleLoadMore. rewrite Hnone. reflexivity.
Qed.

Lemma load_more_shows_every_row_witness :
  map Store.createdAt
      (TransactionsList.shown
         (TransactionsList.after_clicks TransactionsList.acme_long
                                        (js "mia") (js "org1") 1))
  = map Z.of_nat (rev (List.seq 5 40))
  /\ TransactionsList.hasMore
       (TransactionsList.after_clicks TransactionsList.acme_long
                                      (js "mia") (js "org1") 1)
     = true.
Proof.
  assert (Hnd : NoDup (map Store.id (transactions TransactionsList.acme_long))).
  { cbn [transactions TransactionsList.acme_long]. rewrite map_map.
    cbn [Store.id TransactionsList.numbered_row].
    apply NoDup_map_injective; [|apply List.seq_NoDup].
    intros n m H. apply (f_equal (@length N)) in H.
    rewrite !repeat_length in H. lia. }
  assert (Hnamed : forall t, In t (transactions TransactionsList.acme_long) ->
                             Store.id t <> []).
  { intros t Hin. cbn [transactions TransactionsList.acme_long] in Hin.
    apply in_map_iff in Hin. destruct Hin as [n [<- _]]. discriminate. }
  assert (Horg : js "org1" <> []) by discriminate.
  assert (Ha : Organization.route_hasAccess
                 (orgdb TransactionsList.acme_long) (js "mia") (js "org1") = true)
    by (vm_compute; reflexivity).
  pose proof (@load_more_shows_every_row TransactionsList.acme_long
                (js "mia") (js "org1") 1 Horg Ha Hnd Hnamed) as H.
  cbv zeta in H. destruct H as [H1 [H2 _]].
  rewrite H1, H2. split; vm_compute; reflexivity.
Defined.
